(** * qcc: the circuit builder of [src/lib/circuit.py]

    A shallow embedding of class [qc] (state + operators + recorded IR) and of
    the collaborators it drives, followed by the properties of the decomposition
    and transformation algorithms.

    Amplitudes are exact complex numbers (pairs of reals): the rounding of the
    numeric back end is not part of the model. *)

From Stdlib Require Import Reals Lra Psatz Lia Bool Arith NArith List String Ring.
From Stdlib Require Import DecimalString.
From Stdlib Require Import FunctionalExtensionality.
Import ListNotations.

Set Implicit Arguments.

Arguments Nat.ltb : simpl never.
Arguments Nat.leb : simpl never.

(* ------------------------------------------------------------------ *)
(** ** Complex numbers *)

Module Cx.

Local Open Scope R_scope.

Definition C : Type := (R * R)%type.

Definition re (z : C) : R := fst z.
Definition im (z : C) : R := snd z.

Definition czero : C := (0, 0).
Definition cone : C := (1, 0).
Definition ci : C := (0, 1).
Definition cadd (a b : C) : C := (re a + re b, im a + im b).
Definition cmul (a b : C) : C :=
  (re a * re b - im a * im b, re a * im b + im a * re b).
Definition copp (a : C) : C := (- re a, - im a).
Definition csub (a b : C) : C := cadd a (copp b).
Definition conj (a : C) : C := (re a, - im a).
Definition of_R (x : R) : C := (x, 0).
(** [e^{i theta}] *)
Definition cis (theta : R) : C := (cos theta, sin theta).
(** squared modulus *)
Definition norm2 (a : C) : R := re a * re a + im a * im a.

Lemma C_ring : ring_theory czero cone cadd cmul csub copp (@eq C).
Proof.
  constructor; intros; repeat match goal with z : C |- _ => destruct z end;
    unfold csub, cadd, cmul, copp, czero, cone, re, im; simpl;
    f_equal; ring.
Qed.

Lemma c_eq (a b : C) : re a = re b -> im a = im b -> a = b.
Proof. destruct a, b; simpl; intros; subst; reflexivity. Qed.

Lemma cis_neg_r (theta : R) : cmul (cis theta) (cis (- theta)) = cone.
Proof.
  unfold cmul, cis, cone, re, im; simpl.
  rewrite cos_neg, sin_neg. apply c_eq; simpl.
  - generalize (sin2_cos2 theta). unfold Rsqr. lra.
  - ring.
Qed.

Lemma norm2_zero : norm2 czero = 0.
Proof. unfold norm2, czero, re, im; simpl; ring. Qed.

End Cx.

Import Cx.
Add Ring CRing : Cx.C_ring.

Declare Scope C_scope.
Delimit Scope C_scope with C.
Bind Scope C_scope with C.
Infix "+" := cadd : C_scope.
Infix "*" := cmul : C_scope.
Infix "-" := csub : C_scope.
Notation "- x" := (copp x) : C_scope.

(* ------------------------------------------------------------------ *)
(** ** Operators ([src.lib.ops]) *)

Module Ops.

Local Open Scope C_scope.

(** Modelled from the spec: the matrix of an operator ([ops.py] is not in
    src); the four entries that [gate.reshape(4)] hands to the kernel,
    row-major. *)
Record Mat2 : Type := mkMat2 { m00 : C; m01 : C; m10 : C; m11 : C }.

(** Modelled from the spec: entry at (row, column), a bit each. *)
Definition ment (m : Mat2) (r c : bool) : C :=
  match r, c with
  | false, false => m00 m
  | false, true => m01 m
  | true, false => m10 m
  | true, true => m11 m
  end.

(** Modelled from the spec: the identity, matrix product (sequential
    application) and unitarity of the numeric facility. *)
Definition mid : Mat2 := mkMat2 cone czero czero cone.

Definition mmul (a b : Mat2) : Mat2 :=
  mkMat2 (m00 a * m00 b + m01 a * m10 b) (m00 a * m01 b + m01 a * m11 b)
         (m10 a * m00 b + m11 a * m10 b) (m10 a * m01 b + m11 a * m11 b).

(** Modelled from the spec: conjugate transpose. *)
Definition madj (a : Mat2) : Mat2 :=
  mkMat2 (conj (m00 a)) (conj (m10 a)) (conj (m01 a)) (conj (m11 a)).

Definition unitary (a : Mat2) : Prop :=
  mmul (madj a) a = mid /\ mmul a (madj a) = mid.

(** Modelled from the spec: class [ops.Operator] is not in src. An operator is
    an immutable matrix with a display name; [circuit.py] only ever hands
    2x2 operators to the kernel ([gate.reshape(4)]), so the matrix is 2x2. *)
Record Operator : Type := mkOp { name : string; mat : Mat2 }.

(** Modelled from the spec: [ops.Operator(m)] built from a bare matrix carries
    no display name of its own. *)
Definition Operator_of (m : Mat2) : Operator := mkOp EmptyString m.

(** Modelled from the spec: [adjoint()] is the conjugate transpose, the
    display name kept with a dagger marker. *)
Definition adjoint (op : Operator) : Operator :=
  mkOp (name op ++ "^dag") (madj (mat op)).

(** Modelled from the spec: the named elementary gates used by the builder. *)
Definition PauliX : Operator := mkOp "X" (mkMat2 czero cone cone czero).

Definition rsqrt2 : C := of_R (/ sqrt 2).

Definition Hadamard : Operator :=
  mkOp "H" (mkMat2 rsqrt2 rsqrt2 rsqrt2 (- rsqrt2)).

(** Modelled from the spec: the phase gate
    [U1(theta) = diag(1, e^{i theta})]. *)
Definition U1 (theta : R) : Operator :=
  mkOp "U1" (mkMat2 cone czero czero (cis theta)).

End Ops.

Import Ops.

(* ------------------------------------------------------------------ *)
(** ** State and gate-application kernel ([src.lib.state], [libxgates]) *)

Module St.

Local Open Scope C_scope.

(** Modelled from the spec: class [state.State] is not in src. A state is a
    dense amplitude vector over [nbits] qubits, read here as the map from a
    basis-state integer to its amplitude. *)
Record State : Type := mkState { nbits : nat; amp : N -> C }.

(** Modelled from the spec: [state.State(1.0)], the 0-qubit unit state. *)
Definition unit_state : State :=
  mkState 0 (fun i => if N.eqb i 0 then cone else czero).

(** Modelled from the spec: the big-endian convention. Qubit 0 is the most
    significant bit of the basis-state integer, so qubit [q] of [n] sits at
    bit [n - 1 - q]. *)
Definition pos (n q : nat) : N := N.of_nat (n - 1 - q).

Definition qbit (n q : nat) (i : N) : bool := N.testbit i (pos n q).

Definition qset (n q : nat) (v : bool) (i : N) : N :=
  if v then N.setbit i (pos n q) else N.clearbit i (pos n q).

(** Modelled from the spec: the kernel on the amplitude pair of index [i],
    the two basis states that differ in the target bit only. *)
Definition k_apply1 (g : Mat2) (n q : nat) (f : N -> C) : N -> C :=
  fun i =>
    ment g (qbit n q i) false * f (qset n q false i)
    + ment g (qbit n q i) true * f (qset n q true i).

(** Modelled from the spec: controlled application, only pairs whose
    control bit is 1 are touched. *)
Definition k_applyc (g : Mat2) (n c t : nat) (f : N -> C) : N -> C :=
  fun i => if qbit n c i then k_apply1 g n t f i else f i.

End St.

Import St.

(* ------------------------------------------------------------------ *)
(** ** Failures *)

(** The exceptions the builder can raise. [AssertionError] carries the
    message of the failed [assert]; [KernelIndexError] is the failure of
    the kernel on an index that is out of range. *)
Inductive Exc : Type :=
| AssertionError (msg : string)
| IndexError
| TypeError
| KernelIndexError.

(** Modelled from the spec: the kernel entry points [apply1] and [applyc]
    that [circuit.py] imports from [libxgates], or redirects to
    [psi.apply1] / [psi.applyc]; neither is in src. Target and control
    index must be below the qubit count, else the kernel fails. *)
Definition xgates_apply1 (psi : State) (gate : Mat2) (qubit : nat)
  : State + Exc :=
  if qubit <? nbits psi
  then inl (mkState (nbits psi) (k_apply1 gate (nbits psi) qubit (amp psi)))
  else inr KernelIndexError.

Definition xgates_applyc (psi : State) (gate : Mat2) (control target : nat)
  : State + Exc :=
  if (control <? nbits psi) && (target <? nbits psi)
  then inl (mkState (nbits psi)
              (k_applyc gate (nbits psi) control target (amp psi)))
  else inr KernelIndexError.

(* ------------------------------------------------------------------ *)
(** ** Circuit IR ([src.lib.ir]) *)

Module Ir.

(** Modelled from the spec: module [ir] is not in src. A node is a tagged
    variant, single-target or controlled, carrying its label, indices,
    operator and optional real parameter. *)
Inductive Node : Type :=
| Single (name : option string) (idx0 : nat) (gate : Operator) (val : option R)
| Controlled (name : option string) (ctl idx1 : nat) (gate : Operator)
    (val : option R).

(** Modelled from the spec: the accessors of a node ([is_single],
    [is_ctl], [name], [gate], [val]). *)
Definition is_single (g : Node) : bool :=
  match g with Single _ _ _ _ => true | Controlled _ _ _ _ _ => false end.

Definition is_ctl (g : Node) : bool :=
  match g with Single _ _ _ _ => false | Controlled _ _ _ _ _ => true end.

Definition node_name (g : Node) : option string :=
  match g with Single n _ _ _ => n | Controlled n _ _ _ _ => n end.

Definition node_gate (g : Node) : Operator :=
  match g with Single _ _ o _ => o | Controlled _ _ _ o _ => o end.

Definition node_val (g : Node) : option R :=
  match g with Single _ _ _ v => v | Controlled _ _ _ _ v => v end.

(** Modelled from the spec: control promotion of a single-target node
    ([Node.to_ctl]); it becomes a node controlled on [c] with the same
    target. *)
Definition to_ctl (c : nat) (g : Node) : Node :=
  match g with
  | Single n i o v => Controlled n c i o v
  | Controlled _ _ _ _ _ => g
  end.

(** Modelled from the spec: a section marker, with the label and the
    position in the gate log where the section opens, or the position where
    it closes. Sections group nodes and carry no semantics. *)
Inductive Mark : Type :=
| SectionOpen (desc : string) (at_gate : nat)
| SectionClose (at_gate : nat).

(** Modelled from the spec: the IR, the ordered log of gate nodes with
    the section markers. *)
Record Ir : Type := mkIr { gates : list Node; marks : list Mark }.

(** Modelled from the spec: [ir.Ir()], and the appends [add_node],
    [single], [controlled], [section], [end_section]. *)
Definition empty : Ir := mkIr [] [].

Definition add_node (g : Node) (r : Ir) : Ir :=
  mkIr (gates r ++ [g]) (marks r).

Definition single (name : option string) (idx : nat) (gate : Operator)
  (val : option R) (r : Ir) : Ir :=
  add_node (Single name idx gate val) r.

Definition controlled (name : option string) (ctl idx : nat)
  (gate : Operator) (val : option R) (r : Ir) : Ir :=
  add_node (Controlled name ctl idx gate val) r.

Definition section (desc : string) (r : Ir) : Ir :=
  mkIr (gates r) (marks r ++ [SectionOpen desc (List.length (gates r))]).

Definition end_section (r : Ir) : Ir :=
  mkIr (gates r) (marks r ++ [SectionClose (List.length (gates r))]).

End Ir.

Import Ir.

(* ------------------------------------------------------------------ *)
(** ** The circuit builder (class [qc]) *)

(** A gate index argument: one qubit index, or a register / list of them. *)
Inductive Idx : Type :=
| IInt (i : nat)
| IReg (r : list nat).

(** A control argument: a qubit index, or a one-element list [[q]] for a
    control that fires on 0. *)
Inductive Ctl : Type :=
| CInt (q : nat)
| CList (q : nat).

(** Instance attributes of [qc]. *)
Record qc : Type := mkQc {
  name : option string;
  psi : State;
  ir : Ir;
  eager : bool;
  build_ir : bool;
  global_reg : nat;
  sub_circuits : nat
}.

Definition set_psi (p : State) (s : qc) : qc :=
  mkQc (name s) p (ir s) (eager s) (build_ir s) (global_reg s) (sub_circuits s).
Definition set_ir (r : Ir) (s : qc) : qc :=
  mkQc (name s) (psi s) r (eager s) (build_ir s) (global_reg s) (sub_circuits s).
Definition set_eager (b : bool) (s : qc) : qc :=
  mkQc (name s) (psi s) (ir s) b (build_ir s) (global_reg s) (sub_circuits s).
Definition set_build_ir (b : bool) (s : qc) : qc :=
  mkQc (name s) (psi s) (ir s) (eager s) b (global_reg s) (sub_circuits s).
Definition set_global_reg (n : nat) (s : qc) : qc :=
  mkQc (name s) (psi s) (ir s) (eager s) (build_ir s) n (sub_circuits s).

(** Outcome of a method call: the instance as the call leaves it, with the
    returned value or the raised exception. *)
Inductive Res (A : Type) : Type :=
| Ok (a : A) (s : qc)
| Err (e : Exc) (s : qc).
Arguments Ok {A} a s.
Arguments Err {A} e s.

Definition M (A : Type) : Type := qc -> Res A.

Definition ret {A : Type} (a : A) : M A := fun s => Ok a s.

Definition bind {A B : Type} (m : M A) (k : A -> M B) : M B :=
  fun s => match m s with
           | Ok a s' => k a s'
           | Err e s' => Err e s'
           end.

Definition raise {A : Type} (e : Exc) : M A := fun s => Err e s.
Definition get {A : Type} (f : qc -> A) : M A := fun s => Ok (f s) s.
Definition modify (f : qc -> qc) : M unit := fun s => Ok tt (f s).
Definition when (b : bool) (m : M unit) : M unit := if b then m else ret tt.

(** [if self.<flag>: m], the flag read when the statement runs. *)
Definition when_ (flag : qc -> bool) (m : M unit) : M unit :=
  fun s => if flag s then m s else Ok tt s.

Definition py_assert (b : bool) (msg : string) : M unit :=
  if b then ret tt else raise (AssertionError msg).

Declare Scope qc_scope.
Delimit Scope qc_scope with qc.
Notation "x <- m ;; k" := (bind m (fun x => k))
  (at level 61, m at next level, right associativity) : qc_scope.
Notation "m ;; k" := (bind m (fun _ => k))
  (at level 61, right associativity) : qc_scope.

Local Open Scope qc_scope.

Fixpoint for_each {A : Type} (l : list A) (body : A -> M unit) : M unit :=
  match l with
  | [] => ret tt
  | a :: rest => body a ;; for_each rest body
  end.

(** The kernel mutates [self.psi] in place; on failure the state is left
    as it was. *)
Definition call_kernel (k : State -> State + Exc) : M unit :=
  fun s => match k (psi s) with
           | inl p => Ok tt (set_psi p s)
           | inr e => Err e s
           end.

(** [with self.scope(self.ir, desc): body]: the section is closed on every
    exit path. *)
Definition scope {A : Type} (desc : string) (body : M A) : M A :=
  fun s =>
    match body (set_ir (section desc (ir s)) s) with
    | Ok a s' => Ok a (set_ir (end_section (ir s')) s')
    | Err e s' => Err e (set_ir (end_section (ir s')) s')
    end.

(** *** Text of labels *)

Definition str_nat (n : nat) : string := NilEmpty.string_of_uint (Nat.to_uint n).

Definition str_ctl (c : Ctl) : string :=
  match c with
  | CInt q => str_nat q
  | CList q => ("[" ++ str_nat q ++ "]")%string
  end.

Definition str_desc (d : option string) : string :=
  match d with Some t => t | None => "None"%string end.

Fixpoint str_ctls (l : list Ctl) : string :=
  match l with
  | [] => EmptyString
  | [c] => str_ctl c
  | c :: rest => (str_ctl c ++ ", " ++ str_ctls rest)%string
  end.

(** *** States *)

(** Modelled from the spec: tensor composition appends the new qubits at
    increasing indices (Kronecker product of the amplitude vectors). *)
Definition tensor (a b : State) : State :=
  mkState (nbits a + nbits b)
    (fun i => cmul (amp a (N.shiftr i (N.of_nat (nbits b))))
                   (amp b (N.land i (N.ones (N.of_nat (nbits b)))))).

(** Modelled from the spec: [state.zeros(n)], all qubits 0. *)
Definition state_zeros (n : nat) : State :=
  mkState n (fun i => if N.eqb i 0 then cone else czero).

Definition _tprod (new_state : State) (nqubits : nat) : M unit :=
  modify (fun s => set_global_reg (global_reg s + nqubits)
                     (set_psi (tensor (psi s) new_state) s)).

Definition zeros (n : nat) : M unit := _tprod (state_zeros n) n.

Definition _ctl_by_0 (ctl : Ctl) : nat * bool :=
  match ctl with
  | CInt q => (q, false)
  | CList q => (q, true)
  end.

(** *** Gates *)

Definition indices_of (idx_set : Idx) : list nat :=
  match idx_set with
  | IInt i => [i]
  | IReg r => r
  end.

(** The body of the loop of [apply1], for one index. *)
Definition apply1_idx (gate : Operator) (name : option string)
  (val : option R) (idx : nat) : M unit :=
  when_ build_ir
    (modify (fun s => set_ir (single name idx gate val (ir s)) s)) ;;
  when_ eager (
    n <- get (fun s => nbits (psi s)) ;;
    py_assert (idx <? n) "Invalid qubit index" ;;
    call_kernel (fun p => xgates_apply1 p (mat gate) idx)).

Definition apply1 (gate : Operator) (idx_set : Idx) (name : option string)
  (val : option R) : M unit :=
  for_each (indices_of idx_set) (apply1_idx gate name val).

(** [add_single]: the gate handle [lambda idx, cond=True: ...]. *)
Definition add_single (name : string) (gate : Operator) (idx : Idx)
  (cond : bool) : M unit :=
  if cond then apply1 gate idx (Some name) None else ret tt.

Definition x : Idx -> bool -> M unit := add_single "x" PauliX.
Definition h : Idx -> bool -> M unit := add_single "h" Hadamard.

Definition applyc (gate : Operator) (ctl : Ctl) (idx : Idx)
  (name : option string) (val : option R) : M unit :=
  idx <- match idx with
         | IReg r =>
             py_assert (List.length r =? 1)
               "Controlled n-qbit register not supported" ;;
             ret (nth 0 r 0)
         | IInt i => ret i
         end ;;
  let (ctl_qubit, by_0) := _ctl_by_0 ctl in
  x (IInt ctl_qubit) by_0 ;;
  when_ build_ir
    (modify (fun s =>
       set_ir (controlled name ctl_qubit idx gate val (ir s)) s)) ;;
  when_ eager (
    n <- get (fun s => nbits (psi s)) ;;
    py_assert (idx <? n) "Invalid qubit index" ;;
    call_kernel (fun p => xgates_applyc p (mat gate) ctl_qubit idx)) ;;
  x (IInt ctl_qubit) by_0.

(** [add_ctl]: the handle [lambda idx0, idx1, cond=True: ...]. *)
Definition add_ctl (name : string) (gate : Operator) (idx0 : Ctl) (idx1 : Idx)
  (cond : bool) : M unit :=
  if cond then applyc gate idx0 idx1 (Some name) None else ret tt.

Definition cx (idx0 : Ctl) (idx1 : Idx) : M unit := add_ctl "cx" PauliX idx0 idx1 true.

(** [cu]: the shape assertion cannot fail on a 2x2 operator. *)
Definition cu (idx0 : Ctl) (idx1 : Idx) (op : Operator) (desc : option string)
  : M unit :=
  applyc op idx0 idx1 desc None.

Definition u1 (idx : Idx) (v : R) : M unit :=
  apply1 (U1 v) idx (Some "u1"%string) (Some v).

Definition cu1 (idx0 : Ctl) (idx1 : Idx) (value : R) : M unit :=
  applyc (U1 value) idx0 idx1 (Some "cu1"%string) (Some value).

Section Builder.

(** [scipy.linalg.sqrtm], the principal matrix square root of the external
    linear-algebra facility. *)
Variable sqrtm : Mat2 -> Mat2.

(** The concatenation [FLAGS.libq + FLAGS.qasm + FLAGS.cirq + FLAGS.text +
    FLAGS.latex] of the export flags, or [None] where reading the flags
    fails (the [except] branch of the constructor). *)
Variable FLAGS : option string.

(** [qc.__init__]. *)
Definition init (name : option string) (eager : bool) : qc :=
  let self := mkQc name unit_state Ir.empty eager (negb eager) 0 0 in
  match FLAGS with
  | Some (String _ _) => set_eager false self
  | _ => self
  end.

Definition ccu (idx0 idx1 : Ctl) (idx2 : nat) (op : Operator)
  (desc : option string) : M unit :=
  let (i0, c0_by_0) := _ctl_by_0 idx0 in
  let (i1, c1_by_0) := _ctl_by_0 idx1 in
  scope ("CC" ++ Ops.name op ++ "\" ++ str_desc desc ++ "(" ++ str_ctl idx0
         ++ "," ++ str_ctl idx1 ++ "," ++ str_nat idx2 ++ ")")%string
    (x (IInt i0) c0_by_0 ;;
     x (IInt i1) c1_by_0 ;;
     let v := Operator_of (sqrtm (mat op)) in
     cu (CInt i0) (IInt idx2) v (Some (Ops.name op ++ "^{1/2}")%string) ;;
     cx (CInt i0) (IInt i1) ;;
     cu (CInt i1) (IInt idx2) (adjoint v) (Some (Ops.name op ++ "^t")%string) ;;
     cx (CInt i0) (IInt i1) ;;
     cu (CInt i1) (IInt idx2) v (Some (Ops.name op ++ "^{1/2}")%string) ;;
     x (IInt i1) c1_by_0 ;;
     x (IInt i0) c0_by_0).

Definition ccx (idx0 idx1 : Ctl) (idx2 : nat) : M unit :=
  ccu idx0 idx1 idx2 PauliX (Some "ccx"%string).

Definition toffoli (idx0 idx1 : Ctl) (idx2 : nat) : M unit :=
  ccu idx0 idx1 idx2 PauliX (Some "ccx"%string).

Definition swap (idx0 idx1 : nat) : M unit :=
  scope ("swap(" ++ str_nat idx0 ++ ", " ++ str_nat idx1 ++ ")")%string
    (cx (CInt idx1) (IInt idx0) ;;
     cx (CInt idx0) (IInt idx1) ;;
     cx (CInt idx1) (IInt idx0)).

(** [reg[i]] inside a loop whose bounds keep [i] below [len(reg)]. *)
Definition reg_at (reg : list nat) (i : nat) : nat := nth i reg 0.

Definition flip (reg : list nat) : M unit :=
  for_each (seq 0 (List.length reg / 2)) (fun i =>
    swap (reg_at reg i) (reg_at reg (List.length reg - 1 - i))).

Definition qft (reg : list nat) (with_swaps : bool) : M unit :=
  for_each (rev (seq 0 (List.length reg))) (fun i =>
    h (IInt (reg_at reg i)) true ;;
    for_each (rev (seq 0 i)) (fun j =>
      cu1 (CInt (reg_at reg i)) (IInt (reg_at reg j)) (PI / 2 ^ (i - j))%R)) ;;
  when with_swaps (flip reg).

Definition inverse_qft (reg : list nat) (with_swaps : bool) : M unit :=
  when with_swaps (flip reg) ;;
  for_each (combine (seq 0 (List.length reg)) reg) (fun '(idx, r) =>
    h (IInt r) true ;;
    when (negb (idx =? List.length reg - 1))
      (for_each (rev (seq 0 (idx + 1))) (fun y =>
         cu1 (CInt (reg_at reg (idx + 1))) (IInt (reg_at reg y))
             (- PI / 2 ^ (idx + 1 - y))%R))).

(** [aux[j]]: [aux] may be [None] (not subscriptable) or too short. *)
Definition aux_get (aux : option (list nat)) (j : nat) : M nat :=
  match aux with
  | None => raise TypeError
  | Some l => match nth_error l j with
              | Some a => ret a
              | None => raise IndexError
              end
  end.

(** Truth value of [aux] in [if aux:]. *)
Definition aux_truthy (aux : option (list nat)) : bool :=
  match aux with
  | Some (_ :: _) => true
  | _ => false
  end.

Definition aux_len (aux : option (list nat)) : nat :=
  match aux with Some l => List.length l | None => 0 end.

Definition ctl_at (ctl : list Ctl) (i : nat) : Ctl := nth i ctl (CInt 0).

(** The two ladder loops of [multi_control]; [aux_idx] is threaded through
    and is only read while it is non-negative. *)
Fixpoint compute_loop (ctl : list Ctl) (aux : option (list nat))
  (rng : list nat) (aux_idx : nat) : M nat :=
  match rng with
  | [] => ret aux_idx
  | i :: rest =>
      a0 <- aux_get aux aux_idx ;;
      a1 <- aux_get aux (aux_idx + 1) ;;
      ccx (ctl_at ctl i) (CInt a0) a1 ;;
      compute_loop ctl aux rest (aux_idx + 1)
  end.

Fixpoint uncompute_loop (ctl : list Ctl) (aux : option (list nat))
  (rng : list nat) (aux_idx : nat) : M unit :=
  match rng with
  | [] => ret tt
  | i :: rest =>
      a0 <- aux_get aux aux_idx ;;
      a1 <- aux_get aux (aux_idx + 1) ;;
      ccx (ctl_at ctl i) (CInt a0) a1 ;;
      uncompute_loop ctl aux rest (aux_idx - 1)
  end.

Definition multi_control (ctl : list Ctl) (idx1 : nat)
  (aux : option (list nat)) (gate : Operator) (desc : option string)
  : M unit :=
  when (aux_truthy aux)
    (py_assert (List.length ctl - 1 <=? aux_len aux)
       "Incorrect number of ancilla qubits.") ;;
  scope ("multi-" ++ Ops.name gate ++ "([" ++ str_ctls ctl ++ "], "
         ++ str_nat idx1 ++ ") # " ++ str_desc desc ++ ")")%string
    match ctl with
    | [] => apply1 gate (IInt idx1) desc None
    | [c0] => applyc gate c0 (IInt idx1) desc None
    | [c0; c1] => ccu c0 c1 idx1 gate desc
    | c0 :: c1 :: _ =>
        (* Compute the predicate. *)
        a0 <- aux_get aux 0 ;;
        ccx c0 c1 a0 ;;
        aux_idx <- compute_loop ctl aux (seq 2 (List.length ctl - 2)) 0 ;;
        (* Use predicate to single-control qubit at idx1. *)
        a <- aux_get aux aux_idx ;;
        applyc gate (CInt a) (IInt idx1) desc None ;;
        (* Uncompute predicate. *)
        uncompute_loop ctl aux (rev (seq 2 (List.length ctl - 2)))
          (aux_idx - 1) ;;
        a0 <- aux_get aux 0 ;;
        ccx c0 c1 a0
    end.

(** [qc.qc]: add another full circuit to this circuit, gate by gate, using
    this circuit's modes. [gates] is the other circuit's gate log as the
    loop reads it. *)
Definition qc_qc (gates : list Node) (offset : nat) : M unit :=
  for_each gates (fun gate =>
    match gate with
    | Single name idx0 g val => apply1 g (IInt (idx0 + offset)) name val
    | Controlled name ctl idx1 g val =>
        applyc g (CInt (ctl + offset)) (IInt (idx1 + offset)) name val
    end).

(** [qc.run]: [self.qc(self)] reads this circuit's own gate log; recording
    is off while it runs, so the log is not extended under the loop. *)
Definition run : M unit :=
  build_ir0 <- get build_ir ;;
  eager0 <- get eager ;;
  modify (set_build_ir false) ;;
  modify (set_eager true) ;;
  gs <- get (fun s => gates (ir s)) ;;
  qc_qc gs 0 ;;
  modify (set_build_ir build_ir0) ;;
  modify (set_eager eager0).

(** [-gate.val if gate.val else None]: a float is true when it is not 0. *)
Definition inverse_val (val : option R) : option R :=
  match val with
  | Some v => if Req_dec_T v 0 then None else Some (- v)%R
  | None => None
  end.

(** [gate.name + '*']. *)
Definition name_star (name : option string) : M (option string) :=
  match name with
  | Some t => ret (Some (t ++ "*")%string)
  | None => raise TypeError
  end.

(** [qc.inverse]: the new circuit, or the exception raised on the way. *)
Definition inverse (self : qc) : qc + Exc :=
  let newqc := init (name self) false in
  match
    for_each (rev (gates (ir self))) (fun gate =>
      let val := inverse_val (node_val gate) in
      match gate with
      | Single nm idx0 g _ =>
          nm' <- name_star nm ;;
          apply1 (adjoint g) (IInt idx0) nm' val
      | Controlled nm ctl idx1 g _ =>
          nm' <- name_star nm ;;
          applyc (adjoint g) (CInt ctl) (IInt idx1) nm' val
      end) newqc
  with
  | Ok _ s => inl s
  | Err e _ => inr e
  end.

(** A call of a local Python function that declares [params] positional
    parameters with [nargs] arguments: the body runs only when the two
    agree, else the call raises [TypeError]. *)
Definition py_call {A : Type} (params nargs : nat) (body : M A) : M A :=
  if nargs =? params then body else raise TypeError.

Fixpoint list_set (l : list nat) (i v : nat) : list nat :=
  match l, i with
  | [], _ => []
  | _ :: t, O => v :: t
  | a :: t, S j => a :: list_set t j v
  end.

(** The local function [swap_bits(reg, idx)] of [invert]; it exchanges two
    entries of the register it is given. *)
Definition swap_bits (reg : list nat) (idx : nat) : M (list nat) :=
  let d := List.length reg - idx - 1 in
  match nth_error reg idx, nth_error reg d with
  | Some tmp, Some rd => ret (list_set (list_set reg idx rd) d tmp)
  | _, _ => raise IndexError
  end.

Definition node_idx0 (g : Node) : nat :=
  match g with Single _ i _ _ => i | Controlled _ c _ _ _ => c end.

Definition node_idx1 (g : Node) : nat :=
  match g with Single _ i _ _ => i | Controlled _ _ t _ _ => t end.

(** [qc.invert]: both calls of [swap_bits] pass three arguments
    ([reg], the index, [reg.size]). Returns the register as the loop
    leaves it. *)
Fixpoint invert_loop (gs : list Node) (reg : list nat) : M (list nat) :=
  match gs with
  | [] => ret reg
  | gate :: rest =>
      reg1 <- py_call 2 3 (swap_bits reg (node_idx0 gate)) ;;
      reg2 <- (if is_ctl gate
               then py_call 2 3 (swap_bits reg1 (node_idx1 gate))
               else ret reg1) ;;
      invert_loop rest reg2
  end.

Definition invert (reg : list nat) : M (list nat) :=
  gs <- get (fun s => gates (ir s)) ;;
  invert_loop gs reg.

(** [qc.control_by]. [to_ctl] changes the node in place, so the circuit's
    own log ([done] then the rest) already shows the promoted node while the
    loop runs. *)
Fixpoint control_by_loop (ctl : nat) (done todo : list Node) (res : Ir)
  : M Ir :=
  match todo with
  | [] => ret res
  | gate :: rest =>
      match gate with
      | Single _ _ _ _ =>
          let gate' := to_ctl ctl gate in
          modify (fun s =>
            set_ir (mkIr (done ++ gate' :: rest) (marks (ir s))) s) ;;
          control_by_loop ctl (done ++ [gate']) rest (add_node gate' res)
      | Controlled nm c i g _ =>
          match multi_control [CInt ctl; CInt c] i None g nm
                  (init (Some "multi"%string) false) with
          | Ok _ sub =>
              control_by_loop ctl (done ++ [gate]) rest
                (fold_left (fun r n => add_node n r) (gates (ir sub)) res)
          | Err e _ => raise e
          end
      end
  end.

Definition control_by (ctl : nat) : M unit :=
  e <- get eager ;;
  py_assert (negb e) "control_by() used in non-eager circuit." ;;
  gs <- get (fun s => gates (ir s)) ;;
  res <- control_by_loop ctl [] gs Ir.empty ;;
  modify (set_ir res).

End Builder.

(* ------------------------------------------------------------------ *)
(** ** Bits of a basis-state index *)

Lemma pos_inj (n q1 q2 : nat) :
  q1 < n -> q2 < n -> q1 <> q2 -> pos n q1 <> pos n q2.
Proof. unfold pos; intros H1 H2 Hne Heq. apply Nat2N.inj in Heq. lia. Qed.

Lemma qbit_qset_same (n q : nat) (v : bool) (i : N) :
  qbit n q (qset n q v i) = v.
Proof.
  unfold qbit, qset; destruct v.
  - apply N.setbit_eq.
  - apply N.clearbit_eq.
Qed.

Lemma qbit_qset_other (n q1 q2 : nat) (v : bool) (i : N) :
  q1 < n -> q2 < n -> q1 <> q2 ->
  qbit n q1 (qset n q2 v i) = qbit n q1 i.
Proof.
  intros H1 H2 Hne. pose proof (pos_inj H2 H1 (not_eq_sym Hne)) as Hp.
  unfold qbit, qset; destruct v.
  - now apply N.setbit_neq.
  - now apply N.clearbit_neq.
Qed.

Lemma testbit_qset (n q : nat) (v : bool) (i p : N) :
  N.testbit (qset n q v i) p
  = if N.eqb (pos n q) p then v else N.testbit i p.
Proof.
  unfold qset; destruct v.
  - rewrite N.setbit_eqb. destruct (N.eqb (pos n q) p); reflexivity.
  - rewrite N.clearbit_eqb. destruct (N.eqb (pos n q) p); simpl;
      [apply andb_false_r | apply andb_true_r].
Qed.

Lemma qset_qset_same (n q : nat) (a b : bool) (i : N) :
  qset n q a (qset n q b i) = qset n q a i.
Proof.
  apply N.bits_inj; intro p. rewrite !testbit_qset.
  destruct (N.eqb (pos n q) p); reflexivity.
Qed.

Lemma qset_comm (n q1 q2 : nat) (a b : bool) (i : N) :
  q1 < n -> q2 < n -> q1 <> q2 ->
  qset n q1 a (qset n q2 b i) = qset n q2 b (qset n q1 a i).
Proof.
  intros H1 H2 Hne. pose proof (pos_inj H1 H2 Hne) as Hp.
  apply N.bits_inj; intro p. rewrite !testbit_qset.
  destruct (N.eqb_spec (pos n q1) p), (N.eqb_spec (pos n q2) p);
    try reflexivity. congruence.
Qed.

Lemma qset_id (n q : nat) (i : N) : qset n q (qbit n q i) i = i.
Proof.
  apply N.bits_inj; intro p. rewrite testbit_qset. unfold qbit.
  destruct (N.eqb_spec (pos n q) p); congruence.
Qed.

Lemma qset_id' (n q : nat) (v : bool) (i : N) :
  qbit n q i = v -> qset n q v i = i.
Proof. intros <-. apply qset_id. Qed.

(* ------------------------------------------------------------------ *)
(** ** Algebra of the kernel *)

Section Kernel.

Local Open Scope C_scope.

Variable n : nat.

Lemma k_apply1_compose (a b : Mat2) (q : nat) (f : N -> C) (i : N) :
  k_apply1 a n q (k_apply1 b n q f) i = k_apply1 (mmul a b) n q f i.
Proof.
  unfold k_apply1. rewrite !qbit_qset_same, !qset_qset_same.
  destruct (qbit n q i); cbn [ment mmul m00 m01 m10 m11]; ring.
Qed.

Lemma k_apply1_id (q : nat) (f : N -> C) (i : N) :
  k_apply1 mid n q f i = f i.
Proof.
  unfold k_apply1. destruct (qbit n q i) eqn:E;
    cbn [ment mid m00 m01 m10 m11].
  - rewrite (@qset_id' n q _ i E). ring.
  - rewrite (@qset_id' n q _ i E). ring.
Qed.

Lemma k_apply1_ext (g : Mat2) (q : nat) (f f' : N -> C) :
  (forall i, f i = f' i) -> forall i, k_apply1 g n q f i = k_apply1 g n q f' i.
Proof. intros E i. unfold k_apply1. now rewrite !E. Qed.

Lemma k_applyc_ext (g : Mat2) (c t : nat) (f f' : N -> C) :
  (forall i, f i = f' i) ->
  forall i, k_applyc g n c t f i = k_applyc g n c t f' i.
Proof.
  intros E i. unfold k_applyc. destruct (qbit n c i); [|apply E].
  now apply k_apply1_ext.
Qed.

End Kernel.

(* ------------------------------------------------------------------ *)
(** ** What a gate sequence does to the state and to the IR *)

(** The action of one IR node on the amplitudes of an [n]-qubit state. *)
Definition node_sem (n : nat) (g : Node) (f : N -> C) : N -> C :=
  match g with
  | Single _ i o _ => k_apply1 (mat o) n i f
  | Controlled _ c t o _ => k_applyc (mat o) n c t f
  end.

(** The action of a gate sequence, first node first. *)
Definition replay (n : nat) (l : list Node) (f : N -> C) : N -> C :=
  fold_left (fun f g => node_sem n g f) l f.

(** All indices of the node are below the qubit count. *)
Definition node_ok (n : nat) (g : Node) : bool :=
  match g with
  | Single _ i _ _ => i <? n
  | Controlled _ c t _ _ => (c <? n) && (t <? n)
  end.

(** The instance after a method emitted the gates [l] and the section
    markers [mk]: the gates are appended to the log when recording, and
    applied to the state when eager. *)
Definition after (l : list Node) (mk : list Mark) (s : qc) : qc :=
  mkQc (name s)
    (if eager s
     then mkState (nbits (psi s)) (replay (nbits (psi s)) l (amp (psi s)))
     else psi s)
    (mkIr (gates (ir s) ++ (if build_ir s then l else []))
          (marks (ir s) ++ mk))
    (eager s) (build_ir s) (global_reg s) (sub_circuits s).

(** [m] returns [a] after emitting exactly the gates [l], whenever an eager
    run finds every index in range; with [plain] set, it opens no
    section. *)
Definition emitsp {A : Type} (plain : bool) (m : M A) (a : A)
  (l : list Node) : Prop :=
  forall s,
    (eager s = true -> forallb (node_ok (nbits (psi s))) l = true) ->
    exists mk, (plain = true -> mk = []) /\ m s = Ok a (after l mk s).

Abbreviation emits := (emitsp false).

Lemma replay_app (n : nat) (l1 l2 : list Node) (f : N -> C) :
  replay n (l1 ++ l2) f = replay n l2 (replay n l1 f).
Proof. unfold replay. apply fold_left_app. Qed.

Lemma replay_ext (n : nat) (l : list Node) (f f' : N -> C) :
  (forall i, f i = f' i) -> forall i, replay n l f i = replay n l f' i.
Proof.
  revert f f'. induction l as [|g l IH]; intros f f' E; [exact E|].
  cbn. apply IH. destruct g; cbn.
  - now apply k_apply1_ext.
  - now apply k_applyc_ext.
Qed.

Lemma after_nil (s : qc) : after [] [] s = s.
Proof.
  destruct s as [nm [nb am] [gs ms] e b g c]. unfold after; cbn.
  destruct e, b; rewrite !app_nil_r; reflexivity.
Qed.

Lemma after_after (l1 l2 : list Node) (mk1 mk2 : list Mark) (s : qc) :
  after l2 mk2 (after l1 mk1 s) = after (l1 ++ l2) (mk1 ++ mk2) s.
Proof.
  unfold after; cbn. rewrite <- !app_assoc.
  destruct (eager s), (build_ir s); cbn; rewrite ?replay_app, ?app_nil_r;
    reflexivity.
Qed.

Lemma nbits_after (l : list Node) (mk : list Mark) (s : qc) :
  nbits (psi (after l mk s)) = nbits (psi s).
Proof. unfold after; cbn. destruct (eager s); reflexivity. Qed.

Lemma emits_ret {A : Type} (p : bool) (a : A) : emitsp p (ret a) a [].
Proof.
  intros s _. exists []. split; [reflexivity|].
  unfold ret. now rewrite after_nil.
Qed.

Lemma emits_bind {A B : Type} (p : bool) (m : M A) (k : A -> M B) (a : A)
  (b : B) (l1 l2 : list Node) :
  emitsp p m a l1 -> emitsp p (k a) b l2 -> emitsp p (bind m k) b (l1 ++ l2).
Proof.
  intros H1 H2 s Hok.
  destruct (H1 s) as [mk1 [P1 E1]].
  { intro He. specialize (Hok He). rewrite forallb_app in Hok.
    now apply andb_prop in Hok. }
  destruct (H2 (after l1 mk1 s)) as [mk2 [P2 E2]].
  { intro He. specialize (Hok He). rewrite forallb_app in Hok.
    apply andb_prop in Hok. rewrite nbits_after. tauto. }
  exists (mk1 ++ mk2). split.
  - intro Hp. now rewrite (P1 Hp), (P2 Hp).
  - unfold bind. rewrite E1, E2. now rewrite after_after.
Qed.

Lemma emits_eq {A : Type} (p : bool) (m : M A) (a : A) (l l' : list Node) :
  emitsp p m a l -> l = l' -> emitsp p m a l'.
Proof. now intros H <-. Qed.

Lemma emits_weaken {A : Type} (p : bool) (m : M A) (a : A) (l : list Node) :
  emitsp p m a l -> emits m a l.
Proof.
  intros H s Hok. destruct (H s Hok) as [mk [_ E]]. exists mk.
  split; [discriminate|exact E].
Qed.

(** A method that opens no section leaves the section markers alone. *)
Lemma emits_plain_run {A : Type} (m : M A) (a : A) (l : list Node) :
  emitsp true m a l ->
  forall s, (eager s = true -> forallb (node_ok (nbits (psi s))) l = true) ->
    m s = Ok a (after l [] s).
Proof.
  intros H s Hok. destruct (H s Hok) as [mk [P E]].
  now rewrite <- (P eq_refl).
Qed.

Lemma emits_scope {A : Type} (desc : string) (m : M A) (a : A)
  (l : list Node) :
  emits m a l -> emits (scope desc m) a l.
Proof.
  intros H s Hok.
  destruct (H (set_ir (section desc (ir s)) s)) as [mk [_ E]]; [exact Hok|].
  eexists. split; [discriminate|]. unfold scope. rewrite E. f_equal.
  unfold after, set_ir, end_section, section; cbn.
  rewrite <- !app_assoc. reflexivity.
Qed.

Ltac run_m :=
  cbv -[Nat.ltb Nat.leb k_apply1 k_applyc app replay mat Req_dec_T Ropp].

Lemma emits_apply1 (p : bool) (gate : Operator) (i : nat)
  (nm : option string) (val : option R) :
  emitsp p (apply1 gate (IInt i) nm val) tt [Single nm i gate val].
Proof.
  intros s Hok. exists []. split; [reflexivity|].
  destruct s as [sn [nb am] [gs ms] e b g c]; cbn in Hok.
  destruct b, e; run_m; rewrite ?app_nil_r; try reflexivity;
    specialize (Hok eq_refl); rewrite andb_true_r in Hok;
    repeat (rewrite Hok; run_m); rewrite ?app_nil_r; reflexivity.
Qed.

(** The [x] gates that bracket a control given as a one-element list. *)
Definition xs (c : nat) (by_0 : bool) : list Node :=
  if by_0 then [Single (Some "x"%string) c PauliX None] else [].

Lemma emits_x (p : bool) (c : nat) (by_0 : bool) :
  emitsp p (x (IInt c) by_0) tt (xs c by_0).
Proof.
  unfold x, add_single, xs. destruct by_0.
  - apply emits_apply1.
  - apply emits_ret.
Qed.

(** The gates of one [applyc] call. *)
Definition applyc_nodes (gate : Operator) (ctl : Ctl) (t : nat)
  (nm : option string) (val : option R) : list Node :=
  xs (fst (_ctl_by_0 ctl)) (snd (_ctl_by_0 ctl))
  ++ [Controlled nm (fst (_ctl_by_0 ctl)) t gate val]
  ++ xs (fst (_ctl_by_0 ctl)) (snd (_ctl_by_0 ctl)).

Lemma emits_ext {A : Type} (p : bool) (m m' : M A) (a : A)
  (l : list Node) :
  (forall s, m s = m' s) -> emitsp p m a l -> emitsp p m' a l.
Proof.
  intros E H s Hok. destruct (H s Hok) as [mk [P Hm]]. exists mk.
  split; [exact P|now rewrite <- E].
Qed.

Lemma bind_assoc {A B D : Type} (m : M A) (k1 : A -> M B) (k2 : B -> M D)
  (s : qc) :
  bind (bind m k1) k2 s = bind m (fun a => bind (k1 a) k2) s.
Proof. unfold bind. destruct (m s); reflexivity. Qed.

Lemma emits_record_apply_c (p : bool) (gate : Operator) (c t : nat)
  (nm : option string) (val : option R) :
  emitsp p
    (when_ build_ir
       (modify (fun s => set_ir (controlled nm c t gate val (ir s)) s)) ;;
     when_ eager (
       n <- get (fun s => nbits (psi s)) ;;
       py_assert (t <? n) "Invalid qubit index" ;;
       call_kernel (fun p => xgates_applyc p (mat gate) c t)))
    tt [Controlled nm c t gate val].
Proof.
  intros s Hok. exists []. split; [reflexivity|].
  destruct s as [sn [nb am] [gs ms] e b g c0]; cbn in Hok.
  destruct b, e; run_m; rewrite ?app_nil_r; try reflexivity;
    specialize (Hok eq_refl); rewrite andb_true_r in Hok;
    apply andb_prop in Hok as [Hc Ht];
    rewrite Ht; run_m; rewrite Hc, Ht; run_m; rewrite ?app_nil_r;
    reflexivity.
Qed.

Lemma emits_applyc (p : bool) (gate : Operator) (ctl : Ctl) (t : nat)
  (nm : option string) (val : option R) :
  emitsp p (applyc gate ctl (IInt t) nm val) tt
    (applyc_nodes gate ctl t nm val).
Proof.
  unfold applyc, applyc_nodes.
  destruct (_ctl_by_0 ctl) as [c by_0]; cbn [fst snd].
  eapply emits_eq.
  - eapply emits_bind; [apply emits_ret|].
    eapply emits_bind; [apply emits_x|].
    eapply emits_ext; [intro s; apply bind_assoc|].
    eapply emits_bind; [apply emits_record_apply_c|apply emits_x].
  - reflexivity.
Qed.

Ltac emits_step :=
  first [ apply emits_scope
        | apply emits_x
        | apply emits_applyc
        | apply emits_apply1
        | apply emits_ret
        | eapply emits_bind ].

Ltac emits_auto := eapply emits_eq; [repeat emits_step | try reflexivity].

(* ------------------------------------------------------------------ *)
(** ** Doubly-controlled gates: the gates of [ccu] *)

(** The five-gate core of the construction for controls [i0], [i1], target
    [t] and root [v] of the operator named [opname]. *)
Definition sw_nodes (i0 i1 t : nat) (opname : string) (v : Operator)
  : list Node :=
  [ Controlled (Some (opname ++ "^{1/2}")%string) i0 t v None;
    Controlled (Some "cx"%string) i0 i1 PauliX None;
    Controlled (Some (opname ++ "^t")%string) i1 t (adjoint v) None;
    Controlled (Some "cx"%string) i0 i1 PauliX None;
    Controlled (Some (opname ++ "^{1/2}")%string) i1 t v None ].

Definition ccu_nodes (sqrtm : Mat2 -> Mat2) (idx0 idx1 : Ctl) (t : nat)
  (op : Operator) : list Node :=
  let (i0, c0_by_0) := _ctl_by_0 idx0 in
  let (i1, c1_by_0) := _ctl_by_0 idx1 in
  xs i0 c0_by_0 ++ xs i1 c1_by_0
  ++ sw_nodes i0 i1 t (Ops.name op) (Operator_of (sqrtm (mat op)))
  ++ xs i1 c1_by_0 ++ xs i0 c0_by_0.

Lemma emits_ccu (sqrtm : Mat2 -> Mat2) (idx0 idx1 : Ctl) (t : nat)
  (op : Operator) (desc : option string) :
  emits (ccu sqrtm idx0 idx1 t op desc) tt (ccu_nodes sqrtm idx0 idx1 t op).
Proof.
  unfold ccu, ccu_nodes, cu, cx, add_ctl.
  destruct idx0 as [i0|i0], idx1 as [i1|i1]; cbn [_ctl_by_0]; emits_auto.
Qed.

(* ------------------------------------------------------------------ *)
(** ** Gates as maps on amplitudes *)

Section Sem.

Local Open Scope C_scope.

Variable n : nat.

(** Basis index with qubit [q] flipped. *)
Definition flipq (q : nat) (i : N) : N := qset n q (negb (qbit n q i)) i.

(** Basis index after CNOT with control [c], target [t]. *)
Definition cnot (c t : nat) (i : N) : N :=
  if qbit n c i then flipq t i else i.

(** Whether a control fires on basis index [i]: on 1, or on 0 for a
    control given as a one-element list. *)
Definition fires (c : Ctl) (i : N) : bool :=
  match c with
  | CInt q => qbit n q i
  | CList q => negb (qbit n q i)
  end.

(** A relabelling of the basis states. *)
Definition perm_gate (p : N -> N) (f : N -> C) : N -> C := fun i => f (p i).

(** A gate on target [t] whose matrix depends on the other bits of the
    basis index. *)
Definition dep1 (m : N -> Mat2) (t : nat) (f : N -> C) : N -> C :=
  fun i => k_apply1 (m i) n t f i.

(** [F] does not read bit [t]. *)
Definition tinv {A : Type} (t : nat) (F : N -> A) : Prop :=
  forall v i, F (qset n t v i) = F i.

Lemma mmul_id_l (a : Mat2) : mmul mid a = a.
Proof. destruct a; unfold mmul, mid; cbn; f_equal; ring. Qed.

Lemma mmul_id_r (a : Mat2) : mmul a mid = a.
Proof. destruct a; unfold mmul, mid; cbn; f_equal; ring. Qed.

Lemma X_perm (q : nat) (f : N -> C) :
  k_apply1 (mat PauliX) n q f = perm_gate (flipq q) f.
Proof.
  apply functional_extensionality; intro i.
  unfold k_apply1, perm_gate, flipq.
  destruct (qbit n q i); cbn [mat PauliX ment m00 m01 m10 m11 negb]; ring.
Qed.

Lemma kc_dep1 (g : Mat2) (c t : nat) (f : N -> C) :
  k_applyc g n c t f = dep1 (fun i => if qbit n c i then g else mid) t f.
Proof.
  apply functional_extensionality; intro i. unfold k_applyc, dep1.
  destruct (qbit n c i); [reflexivity|]. now rewrite k_apply1_id.
Qed.

Lemma k1_dep1 (g : Mat2) (t : nat) (f : N -> C) :
  k_apply1 g n t f = dep1 (fun _ => g) t f.
Proof. reflexivity. Qed.

Lemma CX_perm (c t : nat) (f : N -> C) :
  k_applyc (mat PauliX) n c t f = perm_gate (cnot c t) f.
Proof.
  apply functional_extensionality; intro i.
  unfold k_applyc, cnot, perm_gate.
  destruct (qbit n c i); [|reflexivity]. now rewrite X_perm.
Qed.

Lemma dep1_ext (m m' : N -> Mat2) (t : nat) (f : N -> C) :
  (forall i, m i = m' i) -> dep1 m t f = dep1 m' t f.
Proof.
  intro E. apply functional_extensionality; intro i. unfold dep1.
  now rewrite E.
Qed.

Lemma dep1_compose (a b : N -> Mat2) (t : nat) (f : N -> C) :
  tinv t b ->
  dep1 a t (dep1 b t f) = dep1 (fun i => mmul (a i) (b i)) t f.
Proof.
  intro Hb. apply functional_extensionality; intro i. unfold dep1.
  rewrite <- k_apply1_compose. unfold k_apply1 at 1 3.
  now rewrite !Hb.
Qed.

(** Conjugating a [t]-local gate by a relabelling that leaves bit [t]
    alone relabels the dependence of its matrix. *)
Lemma dep1_conj (p p' : N -> N) (m : N -> Mat2) (t : nat) (f : N -> C) :
  (forall v i, p (qset n t v (p' i)) = qset n t v i) ->
  (forall i, qbit n t (p' i) = qbit n t i) ->
  perm_gate p' (dep1 m t (perm_gate p f)) = dep1 (fun i => m (p' i)) t f.
Proof.
  intros H1 H2. apply functional_extensionality; intro i.
  unfold perm_gate, dep1, k_apply1. now rewrite H2, !H1.
Qed.

(** *** Facts on [flipq] and [cnot] *)

Section Distinct.

Variables c t : nat.
Hypothesis Hc : c < n.
Hypothesis Ht : t < n.
Hypothesis Hct : c <> t.

Lemma qbit_flipq_other (i : N) : qbit n t (flipq c i) = qbit n t i.
Proof. unfold flipq. now apply qbit_qset_other. Qed.

Lemma qbit_flipq_same (i : N) : qbit n c (flipq c i) = negb (qbit n c i).
Proof. unfold flipq. apply qbit_qset_same. Qed.

Lemma flipq_qset_other (v : bool) (i : N) :
  flipq c (qset n t v i) = qset n t v (flipq c i).
Proof.
  unfold flipq. rewrite qbit_qset_other by auto. now apply qset_comm.
Qed.

Lemma flipq_invol (i : N) : flipq c (flipq c i) = i.
Proof.
  unfold flipq at 1. rewrite qbit_flipq_same, negb_involutive.
  unfold flipq. rewrite qset_qset_same. apply qset_id.
Qed.

Lemma flipq_conj (v : bool) (i : N) :
  flipq c (qset n t v (flipq c i)) = qset n t v i.
Proof. now rewrite flipq_qset_other, flipq_invol. Qed.

End Distinct.

End Sem.

Section Toffoli.

Local Open Scope C_scope.

Variable n : nat.
Variables c0 c1 t : nat.
Hypothesis Hc0 : c0 < n.
Hypothesis Hc1 : c1 < n.
Hypothesis Ht : t < n.
Hypothesis H01 : c0 <> c1.
Hypothesis H0t : c0 <> t.
Hypothesis H1t : c1 <> t.

Lemma qbit_cnot_other (i : N) : qbit n t (cnot n c0 c1 i) = qbit n t i.
Proof.
  unfold cnot. destruct (qbit n c0 i); [|reflexivity].
  now apply qbit_flipq_other.
Qed.

Lemma qbit_cnot_ctl (i : N) : qbit n c0 (cnot n c0 c1 i) = qbit n c0 i.
Proof.
  unfold cnot. destruct (qbit n c0 i) eqn:E; [|exact E].
  rewrite qbit_flipq_other; auto.
Qed.

Lemma qbit_cnot_tgt (i : N) :
  qbit n c1 (cnot n c0 c1 i) = xorb (qbit n c0 i) (qbit n c1 i).
Proof.
  unfold cnot. destruct (qbit n c0 i); cbn [xorb].
  - apply qbit_flipq_same.
  - reflexivity.
Qed.

Lemma cnot_conj (v : bool) (i : N) :
  cnot n c0 c1 (qset n t v (cnot n c0 c1 i)) = qset n t v i.
Proof.
  unfold cnot at 1. rewrite qbit_qset_other by auto. rewrite qbit_cnot_ctl.
  unfold cnot. destruct (qbit n c0 i); [|reflexivity].
  now apply flipq_conj.
Qed.

Variable V : Mat2.
Hypothesis HV : unitary V.

(** The five-gate core acts as [V * V] on the target exactly where both
    control bits are 1, and as the identity elsewhere. *)
Lemma sw_nodes_sem (nm : string) (f : N -> C) :
  replay n (sw_nodes c0 c1 t nm (Operator_of V)) f
  = dep1 n (fun i => if qbit n c0 i && qbit n c1 i then mmul V V else mid) t f.
Proof.
  destruct HV as [HV1 HV2].
  unfold sw_nodes, replay; cbn [fold_left node_sem mat Operator_of adjoint].
  rewrite !CX_perm, !kc_dep1.
  rewrite dep1_conj
    by (intros; first [apply cnot_conj | apply qbit_cnot_other]).
  rewrite !dep1_compose
    by (intros v i; cbv beta;
        rewrite ?qbit_cnot_tgt, ?qbit_qset_other by auto; reflexivity).
  apply dep1_ext; intro i. rewrite qbit_cnot_tgt.
  destruct (qbit n c0 i), (qbit n c1 i); cbn [xorb andb];
    rewrite ?mmul_id_l, ?mmul_id_r; auto.
Qed.

End Toffoli.

Section Ccu.

Local Open Scope C_scope.

Variable n : nat.

Lemma replay_xs (c : nat) (by_0 : bool) (f : N -> C) :
  replay n (xs c by_0) f = if by_0 then perm_gate (flipq n c) f else f.
Proof. destruct by_0; [|reflexivity]. cbn. apply X_perm. Qed.

(** The qubit a control argument names. *)
Definition ctl_qubit (c : Ctl) : nat := fst (_ctl_by_0 c).

Lemma fires_tinv (c : Ctl) (t : nat) :
  ctl_qubit c < n -> t < n -> ctl_qubit c <> t -> tinv n t (fires n c).
Proof.
  intros Hc Ht Hne v i. destruct c as [q|q]; cbn in *;
    now rewrite qbit_qset_other by auto.
Qed.

Variable sqrtm : Mat2 -> Mat2.
Variables idx0 idx1 : Ctl.
Variable t : nat.
Variable op : Operator.
Hypothesis Hc0 : ctl_qubit idx0 < n.
Hypothesis Hc1 : ctl_qubit idx1 < n.
Hypothesis Ht : t < n.
Hypothesis H01 : ctl_qubit idx0 <> ctl_qubit idx1.
Hypothesis H0t : ctl_qubit idx0 <> t.
Hypothesis H1t : ctl_qubit idx1 <> t.
Hypothesis Hroot : mmul (sqrtm (mat op)) (sqrtm (mat op)) = mat op.
Hypothesis Hunit : unitary (sqrtm (mat op)).

(** The gates of [ccu] apply the operator to the target exactly on the
    basis states where both controls fire. *)
Lemma ccu_nodes_sem (f : N -> C) :
  replay n (ccu_nodes sqrtm idx0 idx1 t op) f
  = dep1 n (fun i => if fires n idx0 i && fires n idx1 i
                     then mat op else mid) t f.
Proof.
  unfold ccu_nodes.
  destruct idx0 as [q0|q0], idx1 as [q1|q1]; cbn [_ctl_by_0 fires];
    cbn [ctl_qubit _ctl_by_0 fst] in *;
    rewrite !replay_app, !replay_xs, sw_nodes_sem by auto;
    rewrite Hroot.
  - reflexivity.
  - rewrite dep1_conj
      by (intros; first [now apply flipq_conj | now apply qbit_flipq_other]).
    apply dep1_ext; intro i.
    repeat (rewrite qbit_flipq_same || rewrite qbit_flipq_other by auto).
    reflexivity.
  - rewrite dep1_conj
      by (intros; first [now apply flipq_conj | now apply qbit_flipq_other]).
    apply dep1_ext; intro i.
    repeat (rewrite qbit_flipq_same || rewrite qbit_flipq_other by auto).
    reflexivity.
  - rewrite dep1_conj
      by (intros; first [now apply flipq_conj | now apply qbit_flipq_other]).
    rewrite dep1_conj
      by (intros; first [now apply flipq_conj | now apply qbit_flipq_other]).
    apply dep1_ext; intro i.
    repeat (rewrite qbit_flipq_same || rewrite qbit_flipq_other by auto).
    reflexivity.
Qed.

End Ccu.

(* ------------------------------------------------------------------ *)
(** ** Reading an emission in the two modes *)

Lemma emits_record {A : Type} (m : M A) (a : A) (l : list Node) :
  emits m a l ->
  forall s, eager s = false -> build_ir s = true ->
    exists mk,
      m s = Ok a (set_ir (mkIr (gates (ir s) ++ l) (marks (ir s) ++ mk)) s).
Proof.
  intros H s He Hb. destruct (H s) as [mk [_ E]].
  { rewrite He. discriminate. }
  exists mk. rewrite E. f_equal.
  destruct s as [sn p r e b g c]; cbn in *; subst. reflexivity.
Qed.

Lemma emits_eager {A : Type} (m : M A) (a : A) (l : list Node) :
  emits m a l ->
  forall s, eager s = true ->
    forallb (node_ok (nbits (psi s))) l = true ->
    exists s',
      m s = Ok a s'
      /\ nbits (psi s') = nbits (psi s)
      /\ amp (psi s') = replay (nbits (psi s)) l (amp (psi s))
      /\ gates (ir s') = gates (ir s) ++ (if build_ir s then l else [])
      /\ eager s' = eager s /\ build_ir s' = build_ir s.
Proof.
  intros H s He Hok. destruct (H s (fun _ => Hok)) as [mk [_ E]].
  exists (after l mk s). split; [exact E|].
  unfold after; cbn. rewrite He. cbn. repeat split; reflexivity.
Qed.

(** Basis index after a Toffoli with controls [idx0], [idx1] and target
    [t]: the target bit is flipped where both controls fire. *)
Definition toffoli_idx (n : nat) (idx0 idx1 : Ctl) (t : nat) (i : N) : N :=
  if fires n idx0 i && fires n idx1 i then flipq n t i else i.

Lemma dep1_X_toffoli (n : nat) (idx0 idx1 : Ctl) (t : nat) (f : N -> C)
  (i : N) :
  dep1 n (fun i => if fires n idx0 i && fires n idx1 i
                   then mat PauliX else mid) t f i
  = f (toffoli_idx n idx0 idx1 t i).
Proof.
  unfold dep1, toffoli_idx. destruct (fires n idx0 i && fires n idx1 i).
  - now rewrite X_perm.
  - apply k_apply1_id.
Qed.

Lemma node_ok_ccu (sqrtm : Mat2 -> Mat2) (idx0 idx1 : Ctl) (t : nat)
  (op : Operator) (n : nat) :
  ctl_qubit idx0 < n -> ctl_qubit idx1 < n -> t < n ->
  forallb (node_ok n) (ccu_nodes sqrtm idx0 idx1 t op) = true.
Proof.
  intros H0 H1 Ht. apply Nat.ltb_lt in H0, H1, Ht.
  unfold ccu_nodes. destruct idx0, idx1; cbn in *;
    now rewrite ?H0, ?H1, ?Ht.
Qed.

(* ------------------------------------------------------------------ *)
(** ** Multi-controlled gates: the gates of [multi_control] *)

Section MultiNodes.

Variable sqrtm : Mat2 -> Mat2.

(** The Toffoli of the ladder at control index [i] (from 2 on): control
    [ctl[i]] and ancilla [aux[i-2]] onto ancilla [aux[i-1]]. *)
Definition rung (ctl : list Ctl) (al : list nat) (i : nat) : list Node :=
  ccu_nodes sqrtm (ctl_at ctl i) (CInt (nth (i - 2) al 0)) (nth (i - 1) al 0)
    PauliX.

(** The gates of [multi_control] for three or more controls. *)
Definition ladder_nodes (ctl : list Ctl) (t : nat) (al : list nat)
  (gate : Operator) (desc : option string) : list Node :=
  let k := List.length ctl in
  let first := ccu_nodes sqrtm (ctl_at ctl 0) (ctl_at ctl 1) (nth 0 al 0)
                 PauliX in
  first
  ++ flat_map (rung ctl al) (seq 2 (k - 2))
  ++ applyc_nodes gate (CInt (nth (k - 2) al 0)) t desc None
  ++ flat_map (rung ctl al) (rev (seq 2 (k - 2)))
  ++ first.

(** The gates of [multi_control] by number of controls. *)
Definition multi_control_nodes (ctl : list Ctl) (t : nat) (al : list nat)
  (gate : Operator) (desc : option string) : list Node :=
  match ctl with
  | [] => [Single desc t gate None]
  | [c0] => applyc_nodes gate c0 t desc None
  | [c0; c1] => ccu_nodes sqrtm c0 c1 t gate
  | _ => ladder_nodes ctl t al gate desc
  end.

Lemma aux_get_some (al : list nat) (j : nat) :
  j < List.length al -> aux_get (Some al) j = ret (nth j al 0).
Proof.
  intro H. unfold aux_get.
  destruct (nth_error al j) eqn:E.
  - now rewrite (nth_error_nth _ _ 0 E).
  - apply nth_error_None in E. lia.
Qed.

Lemma emits_ret_bind {A B : Type} (p : bool) (a : A) (k : A -> M B) (b : B)
  (l : list Node) :
  emitsp p (k a) b l -> emitsp p (bind (ret a) k) b l.
Proof.
  intro H. change l with ([] ++ l).
  eapply emits_bind; [apply emits_ret|exact H].
Qed.

Lemma emits_compute_loop (ctl : list Ctl) (al : list nat) (m s : nat) :
  2 <= s -> s + m - 1 <= List.length al ->
  emits (compute_loop sqrtm ctl (Some al) (seq s m) (s - 2))
        (s + m - 2) (flat_map (rung ctl al) (seq s m)).
Proof.
  revert s. induction m as [|m IH]; intros s Hs Hl; cbn [seq compute_loop flat_map].
  - replace (s + 0 - 2) with (s - 2) by lia. apply emits_ret.
  - rewrite !aux_get_some by lia.
    do 2 apply emits_ret_bind.
    eapply emits_bind.
    + replace (s - 2 + 1) with (s - 1) by lia. apply emits_ccu.
    + replace (s - 2 + 1) with (S s - 2) by lia.
      replace (s + S m - 2) with (S s + m - 2) by lia.
      apply IH; lia.
Qed.

Lemma emits_uncompute_loop (ctl : list Ctl) (al : list nat) (m s : nat) :
  2 <= s -> s + m - 1 <= List.length al ->
  emits (uncompute_loop sqrtm ctl (Some al) (rev (seq s m)) (s + m - 3))
        tt (flat_map (rung ctl al) (rev (seq s m))).
Proof.
  intros Hs. induction m as [|m IH]; intro Hl.
  - cbn. apply emits_ret.
  - rewrite seq_S, rev_app_distr. cbn [rev app uncompute_loop flat_map].
    rewrite !aux_get_some by lia.
    do 2 apply emits_ret_bind.
    eapply emits_bind.
    + unfold rung.
      replace (s + m - 2) with (s + S m - 3) by lia.
      replace (s + m - 1) with (s + S m - 3 + 1) by lia.
      unfold ccx. apply emits_ccu.
    + replace (s + S m - 3 - 1) with (s + m - 3) by lia. apply IH. lia.
Qed.

End MultiNodes.

Definition aux_list (aux : option (list nat)) : list nat :=
  match aux with Some l => l | None => [] end.

Lemma emits_multi_control (sqrtm : Mat2 -> Mat2) (ctl : list Ctl) (t : nat)
  (aux : option (list nat)) (gate : Operator) (desc : option string) :
  List.length ctl <= 2 \/ List.length ctl - 1 <= aux_len aux ->
  emits (multi_control sqrtm ctl t aux gate desc) tt
        (multi_control_nodes sqrtm ctl t (aux_list aux) gate desc).
Proof.
  intro H. unfold multi_control.
  assert (Hassert :
    when (aux_truthy aux)
      (py_assert (List.length ctl - 1 <=? aux_len aux)
         "Incorrect number of ancilla qubits.") = ret tt).
  { destruct aux as [[|a al]|]; cbn [aux_truthy when]; try reflexivity.
    unfold py_assert.
    replace (List.length ctl - 1 <=? aux_len (Some (a :: al))) with true;
      [reflexivity|].
    symmetry. apply Nat.leb_le. cbn [aux_len List.length] in *. lia. }
  rewrite Hassert. apply emits_ret_bind. apply emits_scope.
  destruct ctl as [|c0 [|c1 [|c2 ctl]]]; cbn [multi_control_nodes].
  - apply emits_apply1.
  - apply emits_applyc.
  - apply emits_ccu.
  - destruct H as [H|H]; [cbn in H; lia|].
    destruct aux as [al|]; [|cbn in H; lia]. cbn [aux_len aux_list] in *.
    set (ctl' := c0 :: c1 :: c2 :: ctl) in *.
    assert (Hk : 3 <= List.length ctl') by (cbn; lia).
    unfold ladder_nodes.
    rewrite (@aux_get_some al 0) by lia. apply emits_ret_bind.
    eapply emits_bind; [apply emits_ccu|].
    eapply emits_bind.
    { apply (@emits_compute_loop sqrtm ctl' al (List.length ctl' - 2) 2);
        lia. }
    replace (2 + (List.length ctl' - 2) - 2) with (List.length ctl' - 2)
      by lia.
    rewrite (@aux_get_some al (List.length ctl' - 2)) by lia.
    apply emits_ret_bind.
    eapply emits_bind; [apply emits_applyc|].
    eapply emits_bind.
    { replace (List.length ctl' - 2 - 1)
        with (2 + (List.length ctl' - 2) - 3) by lia.
      apply emits_uncompute_loop; lia. }
    apply emits_ret_bind.
    apply emits_ccu.
Qed.

(* ------------------------------------------------------------------ *)
(** ** Toffoli ladders as maps on amplitudes *)

Section Ladder.

Local Open Scope C_scope.

Variable n : nat.
Variable sqrtm : Mat2 -> Mat2.
Hypothesis HrootX :
  mmul (sqrtm (mat PauliX)) (sqrtm (mat PauliX)) = mat PauliX.
Hypothesis HunitX : unitary (sqrtm (mat PauliX)).

(** A Toffoli: two controls and the target. *)
Definition Tof : Type := (Ctl * Ctl * nat)%type.

Definition tof_nodes (tr : Tof) : list Node :=
  let '(a, b, c) := tr in ccu_nodes sqrtm a b c PauliX.

Definition tof_perm (tr : Tof) (i : N) : N :=
  let '(a, b, c) := tr in toffoli_idx n a b c i.

(** The three qubits of the Toffoli are distinct and in range. *)
Definition tof_wf (tr : Tof) : Prop :=
  let '(a, b, c) := tr in
  ctl_qubit a < n /\ ctl_qubit b < n /\ c < n
  /\ ctl_qubit a <> ctl_qubit b /\ ctl_qubit a <> c /\ ctl_qubit b <> c.

(** Qubit [t] is none of the qubits of the Toffoli. *)
Definition tof_avoids (t : nat) (tr : Tof) : Prop :=
  let '(a, b, c) := tr in
  ctl_qubit a <> t /\ ctl_qubit b <> t /\ c <> t.

(** Basis index after the Toffolis of [L], first one first. *)
Definition fwd (L : list Tof) (i : N) : N :=
  fold_left (fun x tr => tof_perm tr x) L i.

Lemma tof_nodes_sem (tr : Tof) (f : N -> C) :
  tof_wf tr -> replay n (tof_nodes tr) f = perm_gate (tof_perm tr) f.
Proof.
  destruct tr as [[a b] c]. intros (Ha & Hb & Hc & Hab & Hac & Hbc).
  cbn [tof_nodes tof_perm]. rewrite ccu_nodes_sem by auto.
  apply functional_extensionality; intro i. apply dep1_X_toffoli.
Qed.

Lemma fires_qset_other (a : Ctl) (t : nat) (v : bool) (i : N) :
  ctl_qubit a < n -> t < n -> ctl_qubit a <> t ->
  fires n a (qset n t v i) = fires n a i.
Proof. intros. now apply fires_tinv. Qed.

Lemma fires_flipq_other (a : Ctl) (c : nat) (i : N) :
  ctl_qubit a < n -> c < n -> ctl_qubit a <> c ->
  fires n a (flipq n c i) = fires n a i.
Proof. intros. unfold flipq. now apply fires_qset_other. Qed.

Lemma qbit_tof_other (tr : Tof) (t : nat) (i : N) :
  tof_wf tr -> t < n -> snd tr <> t ->
  qbit n t (tof_perm tr i) = qbit n t i.
Proof.
  destruct tr as [[a b] c]. intros (Ha & Hb & Hc & Hab & Hac & Hbc) Ht Hct.
  cbn in Hct. cbn [tof_perm]. unfold toffoli_idx.
  destruct (fires n a i && fires n b i); [|reflexivity].
  now apply qbit_flipq_other.
Qed.

Lemma fires_tof_other (tr : Tof) (d : Ctl) (i : N) :
  tof_wf tr -> ctl_qubit d < n -> snd tr <> ctl_qubit d ->
  fires n d (tof_perm tr i) = fires n d i.
Proof.
  intros Hwf Hd Hne. destruct d as [q|q]; cbn [fires ctl_qubit _ctl_by_0 fst] in *;
    now rewrite qbit_tof_other.
Qed.

Lemma qbit_tof_target (a b : Ctl) (c : nat) (i : N) :
  qbit n c (tof_perm (a, b, c) i)
  = xorb (qbit n c i) (fires n a i && fires n b i).
Proof.
  cbn [tof_perm]. unfold toffoli_idx.
  destruct (fires n a i && fires n b i).
  - rewrite qbit_flipq_same. now destruct (qbit n c i).
  - now rewrite xorb_false_r.
Qed.

Lemma tof_perm_conj (tr : Tof) (t : nat) (v : bool) (i : N) :
  tof_wf tr -> tof_avoids t tr -> t < n ->
  tof_perm tr (qset n t v (tof_perm tr i)) = qset n t v i.
Proof.
  destruct tr as [[a b] c].
  intros (Ha & Hb & Hc & Hab & Hac & Hbc) (Hat & Hbt & Hct) Ht.
  cbn [tof_perm]. unfold toffoli_idx at 1.
  rewrite !fires_qset_other by auto. unfold toffoli_idx.
  destruct (fires n a i && fires n b i) eqn:E.
  - rewrite !fires_flipq_other by auto. rewrite E. now apply flipq_conj.
  - now rewrite E.
Qed.

(** A gate controlled on [last], between a ladder and its reverse, acts
    on the target exactly where the ladder would set [last]. *)
Lemma ladder_sem (L : list Tof) (gate : Operator) (last t : nat)
  (desc : option string) (f : N -> C) :
  Forall tof_wf L -> Forall (tof_avoids t) L -> t < n ->
  replay n (flat_map tof_nodes L
            ++ applyc_nodes gate (CInt last) t desc None
            ++ flat_map tof_nodes (rev L)) f
  = dep1 n (fun i => if qbit n last (fwd L i) then mat gate else mid) t f.
Proof.
  intros Hwf Hav Ht. revert f.
  induction L as [|tr L IH]; intro f.
  - cbn. apply kc_dep1.
  - inversion Hwf as [|? ? Hwf1 Hwf2]; inversion Hav as [|? ? Hav1 Hav2];
      subst.
    cbn [flat_map rev]. rewrite flat_map_app. cbn [flat_map].
    rewrite app_nil_r, <- !app_assoc, replay_app.
    rewrite (app_assoc (flat_map tof_nodes L)), (app_assoc _ _ (tof_nodes tr)).
    rewrite replay_app, <- app_assoc, IH by assumption.
    rewrite !tof_nodes_sem by assumption.
    rewrite dep1_conj.
    + reflexivity.
    + intros. now apply tof_perm_conj.
    + intros. apply qbit_tof_other; auto.
      destruct tr as [[a b] c]. apply Hav1.
Qed.

End Ladder.

(* ------------------------------------------------------------------ *)
(** ** The ancilla ladder of [multi_control] *)

(** The Toffoli of the ladder at control index [i >= 2]. *)
Definition rung_tof (ctl : list Ctl) (al : list nat) (i : nat) : Tof :=
  (ctl_at ctl i, CInt (nth (i - 2) al 0), nth (i - 1) al 0).

(** The ladder of [multi_control]: controls 0 and 1 onto ancilla 0, then
    control [i] and ancilla [i-2] onto ancilla [i-1]. *)
Definition ladder (ctl : list Ctl) (al : list nat) : list Tof :=
  (ctl_at ctl 0, ctl_at ctl 1, nth 0 al 0)
  :: map (rung_tof ctl al) (seq 2 (List.length ctl - 2)).

Lemma forallb_ext_on {A : Type} (P Q : A -> bool) (l : list A) :
  (forall a, In a l -> P a = Q a) -> forallb P l = forallb Q l.
Proof.
  induction l as [|a l IH]; intro H; [reflexivity|]. cbn.
  rewrite H by (left; reflexivity). f_equal. apply IH.
  intros b Hb. apply H. now right.
Qed.

Lemma forallb_map_comp {A B : Type} (P : B -> bool) (h : A -> B)
  (l : list A) :
  forallb P (map h l) = forallb (fun a => P (h a)) l.
Proof. induction l as [|a l IH]; cbn; [reflexivity|now rewrite IH]. Qed.

Lemma seq_0_SS (k : nat) : 2 <= k -> seq 0 k = 0 :: 1 :: seq 2 (k - 2).
Proof.
  destruct k as [|[|k]]; try lia. intros _. cbn [seq Nat.sub].
  now rewrite Nat.sub_0_r.
Qed.

Lemma flat_map_map_comp {A B D : Type} (g : B -> list D) (h : A -> B)
  (l : list A) :
  flat_map g (map h l) = flat_map (fun a => g (h a)) l.
Proof. induction l as [|a l IH]; cbn; [reflexivity|now rewrite IH]. Qed.

Lemma ladder_nodes_eq (sqrtm : Mat2 -> Mat2) (ctl : list Ctl) (t : nat)
  (al : list nat) (gate : Operator) (desc : option string) :
  ladder_nodes sqrtm ctl t al gate desc
  = flat_map (tof_nodes sqrtm) (ladder ctl al)
    ++ applyc_nodes gate (CInt (nth (List.length ctl - 2) al 0)) t desc None
    ++ flat_map (tof_nodes sqrtm) (rev (ladder ctl al)).
Proof.
  unfold ladder_nodes, ladder. cbn [flat_map rev tof_nodes].
  rewrite flat_map_app, <- map_rev, !flat_map_map_comp.
  cbn [flat_map tof_nodes]. rewrite app_nil_r, <- !app_assoc.
  reflexivity.
Qed.

Section Ancilla.

Variable n : nat.
Variable ctl : list Ctl.
Variable al : list nat.
Variable t : nat.

Let k : nat := List.length ctl.
Let cq (i : nat) : nat := ctl_qubit (ctl_at ctl i).
Let a (j : nat) : nat := nth j al 0.

Hypothesis Hk : 3 <= k.
Hypothesis Hc : forall i, i < k -> cq i < n.
Hypothesis Ha : forall j, j < k - 1 -> a j < n.
Hypothesis Ht : t < n.
Hypothesis Hcc : forall i i', i < k -> i' < k -> i <> i' -> cq i <> cq i'.
Hypothesis Haa : forall j j', j < k - 1 -> j' < k - 1 -> j <> j' -> a j <> a j'.
Hypothesis Hca : forall i j, i < k -> j < k - 1 -> cq i <> a j.
Hypothesis Hct : forall i, i < k -> cq i <> t.
Hypothesis Hat : forall j, j < k - 1 -> a j <> t.

Lemma rung_wf (i : nat) : 2 <= i -> i < k -> tof_wf n (rung_tof ctl al i).
Proof.
  intros H2 Hi. unfold rung_tof, tof_wf. cbn [ctl_qubit _ctl_by_0 fst].
  fold (cq i) (a (i - 2)) (a (i - 1)).
  repeat split; try (apply Hc; lia); try (apply Ha; lia).
  - apply Hca; lia.
  - apply Hca; lia.
  - apply Haa; lia.
Qed.

Lemma rung_avoids (i : nat) :
  2 <= i -> i < k -> tof_avoids t (rung_tof ctl al i).
Proof.
  intros H2 Hi. unfold rung_tof, tof_avoids. cbn [ctl_qubit _ctl_by_0 fst].
  fold (cq i) (a (i - 2)) (a (i - 1)).
  repeat split; [apply Hct|apply Hat|apply Hat]; lia.
Qed.

Lemma first_wf : tof_wf n (ctl_at ctl 0, ctl_at ctl 1, nth 0 al 0).
Proof.
  unfold tof_wf. fold (cq 0) (cq 1) (a 0).
  repeat split; try (apply Hc; lia); try (apply Ha; lia).
  - apply Hcc; lia.
  - apply Hca; lia.
  - apply Hca; lia.
Qed.

Lemma first_avoids : tof_avoids t (ctl_at ctl 0, ctl_at ctl 1, nth 0 al 0).
Proof.
  unfold tof_avoids. fold (cq 0) (cq 1) (a 0).
  repeat split; [apply Hct|apply Hct|apply Hat]; lia.
Qed.

Lemma ladder_wf : Forall (tof_wf n) (ladder ctl al).
Proof.
  unfold ladder. constructor; [apply first_wf|].
  apply Forall_map, Forall_forall. intros i Hi. apply in_seq in Hi.
  apply rung_wf; fold k in Hi; lia.
Qed.

Lemma ladder_avoids : Forall (tof_avoids t) (ladder ctl al).
Proof.
  unfold ladder. constructor; [apply first_avoids|].
  apply Forall_map, Forall_forall. intros i Hi. apply in_seq in Hi.
  apply rung_avoids; fold k in Hi; lia.
Qed.

(** Along the rungs [s .. s+m-1], the newest ancilla holds the previous
    ancilla AND the controls met so far, as long as the ancillas ahead
    are still 0. *)
Lemma fwd_rungs (m s : nat) (x : N) :
  2 <= s -> s + m <= k ->
  (forall j, s - 1 <= j -> j < k - 1 -> qbit n (a j) x = false) ->
  qbit n (a (s + m - 2)) (fwd n (map (rung_tof ctl al) (seq s m)) x)
  = qbit n (a (s - 2)) x
    && forallb (fun i => fires n (ctl_at ctl i) x) (seq s m).
Proof.
  revert s x. induction m as [|m IH]; intros s x Hs Hsm Hz.
  - cbn. replace (s + 0 - 2) with (s - 2) by lia. now rewrite andb_true_r.
  - cbn [seq map fwd fold_left forallb].
    change (fold_left (fun x tr => tof_perm n tr x) ?L ?y) with (fwd n L y).
    replace (s + S m - 2) with (S s + m - 2) by lia.
    assert (Hwf := @rung_wf s ltac:(lia) ltac:(lia)).
    rewrite IH; try lia.
    + replace (S s - 2) with (s - 1) by lia.
      unfold rung_tof at 1. rewrite qbit_tof_target.
      fold (a (s - 1)) (a (s - 2)). rewrite (Hz (s - 1)) by lia.
      cbn [fires xorb]. rewrite andb_assoc.
      rewrite (andb_comm (fires n (ctl_at ctl s) x)).
      f_equal. apply forallb_ext_on. intros i Hi. apply in_seq in Hi.
      apply fires_tof_other; [exact Hwf | apply Hc; lia |].
      cbn [snd rung_tof]. fold (a (s - 1)) (cq i).
      intro E. symmetry in E. revert E. apply Hca; lia.
    + intros j Hj1 Hj2.
      rewrite qbit_tof_other;
        [apply Hz; lia | exact Hwf | apply Ha; lia
        | cbn [snd rung_tof]; apply Haa; lia].
Qed.

Lemma forallb_seq_nth (P : Ctl -> bool) (l : list Ctl) :
  forallb P l = forallb (fun i => P (ctl_at l i)) (seq 0 (List.length l)).
Proof.
  induction l as [|c l IH]; [reflexivity|].
  cbn [List.length seq forallb]. f_equal. rewrite IH, <- seq_shift.
  rewrite forallb_map_comp. reflexivity.
Qed.

(** With all ancillas at 0, the ladder leaves the AND of all controls in
    the last ancilla. *)
Lemma fwd_ladder_last (x : N) :
  (forall j, j < k - 1 -> qbit n (a j) x = false) ->
  qbit n (a (k - 2)) (fwd n (ladder ctl al) x)
  = forallb (fun c => fires n c x) ctl.
Proof.
  intro Hz. unfold ladder. cbn [fwd fold_left].
  change (fold_left (fun x tr => tof_perm n tr x) ?L ?y) with (fwd n L y).
  fold k. replace (k - 2) with (2 + (k - 2) - 2) at 1 by lia.
  pose proof first_wf as Hwf.
  rewrite fwd_rungs; try lia.
  - cbn [Nat.sub]. rewrite qbit_tof_target. fold (a 0).
    rewrite (Hz 0) by lia. cbn [xorb].
    rewrite forallb_seq_nth. fold k.
    rewrite seq_0_SS by lia.
    cbn [forallb]. rewrite andb_assoc. f_equal.
    apply forallb_ext_on. intros i Hi. apply in_seq in Hi.
    apply fires_tof_other; [exact Hwf | apply Hc; lia |].
    cbn [snd]. fold (a 0) (cq i). intro E. symmetry in E. revert E.
    apply Hca; lia.
  - intros j Hj1 Hj2.
    rewrite qbit_tof_other;
      [apply Hz; lia | exact Hwf | apply Ha; lia
      | cbn [snd]; apply Haa; lia].
Qed.

End Ancilla.

(* ------------------------------------------------------------------ *)
(** ** QFT and inverse QFT: the gates *)

Lemma emits_for_each {A : Type} (p : bool) (body : A -> M unit)
  (g : A -> list Node) (l : list A) :
  (forall a, In a l -> emitsp p (body a) tt (g a)) ->
  emitsp p (for_each l body) tt (flat_map g l).
Proof.
  induction l as [|a l IH]; intro H; cbn [for_each flat_map].
  - apply emits_ret.
  - eapply emits_bind.
    + apply H. now left.
    + apply IH. intros b Hb. apply H. now right.
Qed.

Definition h_node (q : nat) : Node := Single (Some "h"%string) q Hadamard None.

Definition cu1_node (c t : nat) (theta : R) : Node :=
  Controlled (Some "cu1"%string) c t (U1 theta) (Some theta).

(** The controlled phases that follow the Hadamard on [reg[i]] in [qft]. *)
Definition qft_block (reg : list nat) (i : nat) : list Node :=
  map (fun j => cu1_node (reg_at reg i) (reg_at reg j) (PI / 2 ^ (i - j))%R)
      (rev (seq 0 i)).

(** The controlled phases on [reg[i]] in [inverse_qft]. *)
Definition iqft_block (reg : list nat) (i : nat) : list Node :=
  map (fun y => cu1_node (reg_at reg i) (reg_at reg y) (- PI / 2 ^ (i - y))%R)
      (rev (seq 0 i)).

Definition qft_nodes (reg : list nat) : list Node :=
  flat_map (fun i => h_node (reg_at reg i) :: qft_block reg i)
           (rev (seq 0 (List.length reg))).

Definition inverse_qft_nodes (reg : list nat) : list Node :=
  flat_map (fun '(idx, r) =>
              h_node r :: (if negb (idx =? List.length reg - 1)
                           then iqft_block reg (idx + 1) else []))
           (combine (seq 0 (List.length reg)) reg).

Lemma emits_h (q : nat) : emits (h (IInt q) true) tt [h_node q].
Proof. unfold h, add_single. apply emits_apply1. Qed.

Lemma emits_cu1 (c t : nat) (theta : R) :
  emits (cu1 (CInt c) (IInt t) theta) tt [cu1_node c t theta].
Proof. unfold cu1. apply (emits_applyc _ (U1 theta) (CInt c) t). Qed.

Lemma flat_map_single {A B : Type} (g : A -> B) (l : list A) :
  flat_map (fun a => [g a]) l = map g l.
Proof. induction l as [|a l IH]; cbn; [reflexivity|now rewrite IH]. Qed.

Lemma emits_qft (reg : list nat) :
  emits (qft reg false) tt (qft_nodes reg).
Proof.
  unfold qft, qft_nodes. cbn [when].
  eapply emits_eq.
  - eapply emits_bind; [|apply emits_ret].
    apply emits_for_each. intros i _.
    eapply emits_bind; [apply emits_h|].
    apply emits_for_each. intros j _. apply emits_cu1.
  - rewrite app_nil_r. apply flat_map_ext. intro i. cbn [app].
    f_equal; try apply flat_map_single.
Qed.

Lemma emits_inverse_qft (reg : list nat) :
  emits (inverse_qft reg false) tt (inverse_qft_nodes reg).
Proof.
  unfold inverse_qft, inverse_qft_nodes. cbn [when].
  apply emits_ret_bind.
  apply emits_for_each. intros [idx r] _.
  change (h_node r :: ?l) with ([h_node r] ++ l).
  eapply emits_bind; [apply emits_h|].
  destruct (negb (idx =? List.length reg - 1)); cbn [when].
  - unfold iqft_block. rewrite <- flat_map_single.
    apply emits_for_each. intros y _. apply emits_cu1.
  - apply emits_ret.
Qed.

(* ------------------------------------------------------------------ *)
(** ** QFT followed by inverse QFT *)

Section QftSem.

Local Open Scope C_scope.

Variable n : nat.

Lemma hadamard_square : mmul (mat Hadamard) (mat Hadamard) = mid.
Proof.
  assert (H2 : (/ sqrt 2 * / sqrt 2 = / 2)%R).
  { rewrite <- Rinv_mult. now rewrite sqrt_sqrt by lra. }
  unfold mmul, mid, Hadamard, rsqrt2, of_R, cmul, cadd, copp, cone, czero,
    re, im; cbn.
  f_equal; apply c_eq; cbn; try ring; lra.
Qed.

Lemma hh_id (q : nat) (f : N -> C) :
  k_apply1 (mat Hadamard) n q (k_apply1 (mat Hadamard) n q f) = f.
Proof.
  apply functional_extensionality; intro i.
  now rewrite k_apply1_compose, hadamard_square, k_apply1_id.
Qed.

(** The phase a controlled [U1(theta)] puts on basis state [i]. *)
Definition phase (theta : R) (c t : nat) (i : N) : C :=
  if qbit n c i && qbit n t i then cis theta else cone.

Lemma cu1_diag (theta : R) (c t : nat) (f : N -> C) :
  k_applyc (mat (U1 theta)) n c t f = fun i => phase theta c t i * f i.
Proof.
  apply functional_extensionality; intro i. unfold k_applyc, phase.
  destruct (qbit n c i); cbn [andb]; [|ring].
  unfold k_apply1. destruct (qbit n t i) eqn:E;
    cbn [U1 mat ment m00 m01 m10 m11];
    rewrite (@qset_id' n t _ i E); ring.
Qed.

Lemma phase_cancel (theta : R) (c t : nat) (i : N) :
  phase theta c t i * phase (- theta) c t i = cone.
Proof.
  unfold phase. destruct (qbit n c i && qbit n t i).
  - apply cis_neg_r.
  - ring.
Qed.

(** Product of the phases of a run of controlled [U1] gates from
    control [c]. *)
Definition pprod (c : nat) (tq : nat -> nat) (th : nat -> R) (js : list nat)
  (i : N) : C :=
  fold_right (fun j acc => phase (th j) c (tq j) i * acc) cone js.

Lemma cu1_block_diag (c : nat) (tq : nat -> nat) (th : nat -> R)
  (js : list nat) (f : N -> C) :
  replay n (map (fun j => cu1_node c (tq j) (th j)) js) f
  = fun i => pprod c tq th js i * f i.
Proof.
  revert f. induction js as [|j js IH]; intro f.
  - apply functional_extensionality; intro i. cbn. ring.
  - cbn [map replay fold_left node_sem cu1_node mat].
    change (fold_left (fun f g => node_sem n g f) ?l ?f0) with (replay n l f0).
    rewrite IH, cu1_diag.
    apply functional_extensionality; intro i.
    unfold pprod; cbn [fold_right]. ring.
Qed.

Lemma pprod_cancel (c : nat) (tq : nat -> nat) (th : nat -> R)
  (js : list nat) (i : N) :
  pprod c tq (fun j => (- th j)%R) js i * pprod c tq th js i = cone.
Proof.
  induction js as [|j js IH]; unfold pprod; cbn [fold_right]; [ring|].
  fold (pprod c tq (fun j => (- th j)%R) js i) (pprod c tq th js i).
  transitivity
    ((phase (th j) c (tq j) i * phase (- th j) c (tq j) i)
     * (pprod c tq (fun j => (- th j)%R) js i * pprod c tq th js i));
    [ring|].
  rewrite IH, phase_cancel. ring.
Qed.

(** A run of controlled phases followed by the same run with the angles
    negated is the identity. *)
Lemma cu1_blocks_cancel (c : nat) (tq : nat -> nat) (th : nat -> R)
  (js : list nat) (f : N -> C) :
  replay n (map (fun j => cu1_node c (tq j) (- th j)%R) js)
    (replay n (map (fun j => cu1_node c (tq j) (th j)) js) f) = f.
Proof.
  rewrite (cu1_block_diag c tq th), (cu1_block_diag c tq (fun j => (- th j)%R)).
  apply functional_extensionality; intro i.
  transitivity
    ((pprod c tq (fun j => (- th j)%R) js i * pprod c tq th js i) * f i);
    [ring|].
  rewrite pprod_cancel. ring.
Qed.

End QftSem.

Section QftTelescope.

Variable n : nat.
Variable reg : list nat.

(** The gates of [qft] for register positions below [m]. *)
Definition qft_upto (m : nat) : list Node :=
  flat_map (fun i => h_node (reg_at reg i) :: qft_block reg i)
           (rev (seq 0 m)).

(** The gates of [inverse_qft] regrouped: the phases on position [i], then
    its Hadamard. *)
Definition iqft_upto (m : nat) : list Node :=
  flat_map (fun i => iqft_block reg i ++ [h_node (reg_at reg i)]) (seq 0 m).

(** The gates of [inverse_qft] as its loop emits them, for positions below
    [m] that are not the last one. *)
Definition iqft_loop (m : nat) : list Node :=
  flat_map (fun i => h_node (reg_at reg i) :: iqft_block reg (i + 1))
           (seq 0 m).

Lemma iqft_upto_loop (m : nat) :
  iqft_upto m ++ iqft_block reg m = iqft_loop m.
Proof.
  unfold iqft_upto, iqft_loop. induction m as [|m IH]; [reflexivity|].
  rewrite !seq_S, !flat_map_app. cbn [flat_map Nat.add].
  rewrite <- IH, !app_nil_r, <- !app_assoc.
  replace (m + 1) with (S m) by lia. reflexivity.
Qed.

Lemma combine_seq (l : list nat) (s : nat) :
  combine (seq s (List.length l)) l
  = map (fun i => (i, nth (i - s) l 0)) (seq s (List.length l)).
Proof.
  revert s. induction l as [|a l IH]; intro s; [reflexivity|].
  cbn [List.length seq combine map]. rewrite Nat.sub_diag. f_equal.
  rewrite IH. apply map_ext_in. intros i Hi. apply in_seq in Hi.
  replace (i - s) with (S (i - S s)) by lia. reflexivity.
Qed.

Lemma flat_map_ext_on {A B : Type} (g g' : A -> list B) (l : list A) :
  (forall a, In a l -> g a = g' a) -> flat_map g l = flat_map g' l.
Proof.
  induction l as [|a l IH]; intro H; [reflexivity|]. cbn.
  rewrite H by (now left). f_equal. apply IH. intros b Hb. apply H. now right.
Qed.

Lemma inverse_qft_nodes_upto :
  inverse_qft_nodes reg = iqft_upto (List.length reg).
Proof.
  unfold inverse_qft_nodes. rewrite combine_seq, flat_map_map_comp.
  destruct (List.length reg) as [|m] eqn:E; [reflexivity|].
  unfold iqft_upto. rewrite !seq_S, !flat_map_app. cbn [flat_map Nat.add].
  fold (iqft_upto m). rewrite !app_nil_r.
  rewrite (app_assoc (iqft_upto m)), iqft_upto_loop.
  f_equal.
  - unfold iqft_loop. apply flat_map_ext_on. intros i Hi.
    apply in_seq in Hi. unfold reg_at. rewrite Nat.sub_0_r.
    replace (i =? S m - 1) with false by (symmetry; apply Nat.eqb_neq; lia).
    reflexivity.
  - unfold reg_at. rewrite Nat.sub_0_r.
    replace (m =? S m - 1) with true by (symmetry; apply Nat.eqb_eq; lia).
    reflexivity.
Qed.

Lemma qft_iqft_block (m : nat) (f : N -> C) :
  replay n (iqft_block reg m) (replay n (qft_block reg m) f) = f.
Proof.
  unfold iqft_block, qft_block.
  rewrite (map_ext (fun y => cu1_node (reg_at reg m) (reg_at reg y)
                                (- PI / 2 ^ (m - y))%R)
                   (fun y => cu1_node (reg_at reg m) (reg_at reg y)
                                (- (PI / 2 ^ (m - y)))%R)).
  - apply (cu1_blocks_cancel n (reg_at reg m) (reg_at reg)
             (fun j => (PI / 2 ^ (m - j))%R)).
  - intro y. f_equal. unfold Rdiv. ring.
Qed.

(** The gates of [qft] followed by those of [inverse_qft] leave every
    amplitude vector as it was. *)
Lemma qft_iqft_upto (m : nat) (f : N -> C) :
  replay n (qft_upto m ++ iqft_upto m) f = f.
Proof.
  revert f. induction m as [|m IH]; intro f; [reflexivity|].
  unfold qft_upto, iqft_upto.
  rewrite !seq_S, rev_app_distr, !flat_map_app.
  cbn [rev app flat_map Nat.add].
  fold (qft_upto m) (iqft_upto m).
  rewrite !app_nil_r, <- !app_assoc.
  change (h_node (reg_at reg m) :: ?l) with ([h_node (reg_at reg m)] ++ l).
  rewrite !replay_app.
  rewrite <- (replay_app n (qft_upto m) (iqft_upto m)), IH, qft_iqft_block.
  cbn. apply hh_id.
Qed.

Lemma qft_iqft_nodes (f : N -> C) :
  replay n (qft_nodes reg ++ inverse_qft_nodes reg) f = f.
Proof. rewrite inverse_qft_nodes_upto. apply qft_iqft_upto. Qed.

End QftTelescope.

(* ------------------------------------------------------------------ *)
(** ** Single gate calls, by mode *)

(** The instance with one more recorded node, when recording. *)
Definition recorded (g : Node) (s : qc) : qc :=
  if build_ir s then set_ir (add_node g (ir s)) s else s.

Lemma apply1_idx_lazy (gate : Operator) (nm : option string)
  (val : option R) (idx : nat) (s : qc) :
  eager s = false ->
  apply1_idx gate nm val idx s = Ok tt (recorded (Single nm idx gate val) s).
Proof.
  intro He. destruct s as [sn p r e b g c]; cbn in He; subst.
  destruct b; reflexivity.
Qed.

Lemma apply1_idx_fail (gate : Operator) (nm : option string)
  (val : option R) (idx : nat) (s : qc) :
  eager s = true -> nbits (psi s) <= idx ->
  apply1_idx gate nm val idx s
  = Err (AssertionError "Invalid qubit index")
        (recorded (Single nm idx gate val) s).
Proof.
  intros He Hn. apply Nat.ltb_ge in Hn.
  destruct s as [sn [nb am] r e b g c]; cbn in He, Hn; subst.
  destruct b; run_m; rewrite Hn; reflexivity.
Qed.

Lemma apply1_idx_ok (gate : Operator) (nm : option string)
  (val : option R) (idx : nat) (s : qc) :
  eager s = true -> idx < nbits (psi s) ->
  apply1_idx gate nm val idx s
  = Ok tt (set_psi (mkState (nbits (psi s))
                      (k_apply1 (mat gate) (nbits (psi s)) idx (amp (psi s))))
             (recorded (Single nm idx gate val) s)).
Proof.
  intros He Hn. apply Nat.ltb_lt in Hn.
  destruct s as [sn [nb am] r e b g c]; cbn in He, Hn; subst.
  destruct b; run_m; rewrite Hn; run_m; rewrite Hn; reflexivity.
Qed.

(** In eager mode [apply1] fails on the first index that is out of
    range. *)
Lemma apply1_fail (gate : Operator) (idx_set : Idx) (nm : option string)
  (val : option R) (s : qc) :
  eager s = true ->
  (exists idx, In idx (indices_of idx_set) /\ nbits (psi s) <= idx) ->
  exists s1,
    apply1 gate idx_set nm val s
    = Err (AssertionError "Invalid qubit index") s1.
Proof.
  unfold apply1. generalize (indices_of idx_set) as l.
  intros l He (idx & Hin & Hn). revert s He Hn.
  induction l as [|a l IH]; intros s He Hn; [destruct Hin|].
  cbn [for_each]. unfold bind.
  destruct (Nat.lt_ge_cases a (nbits (psi s))) as [Hlt|Hge].
  - rewrite apply1_idx_ok by assumption.
    destruct Hin as [->|Hin]; [lia|].
    apply IH; try assumption;
      unfold recorded; destruct (build_ir s); assumption.
  - rewrite apply1_idx_fail by assumption. eexists; reflexivity.
Qed.

(** The failure raised for a qubit index that is not below the qubit
    count: the builder's assertion, or the kernel's own check. *)
Definition index_out_of_range (e : Exc) : Prop :=
  e = AssertionError "Invalid qubit index" \/ e = KernelIndexError.

(** In eager mode [applyc] fails when the target or the control is out of
    range. *)
Lemma applyc_fail (gate : Operator) (ctl : Ctl) (t : nat)
  (nm : option string) (val : option R) (s : qc) :
  eager s = true ->
  nbits (psi s) <= t \/ nbits (psi s) <= ctl_qubit ctl ->
  exists e s1,
    applyc gate ctl (IInt t) nm val s = Err e s1 /\ index_out_of_range e.
Proof.
  intros He H.
  assert (Hb : (t <? nbits (psi s)) && (ctl_qubit ctl <? nbits (psi s))
               = false).
  { apply andb_false_iff. destruct H as [H|H]; [left|right];
      now apply Nat.ltb_ge. }
  clear H. unfold index_out_of_range.
  destruct s as [sn [nb am] r e b g c0]; cbn in He, Hb; subst.
  destruct ctl as [c|c]; cbn [ctl_qubit _ctl_by_0 fst] in Hb;
    destruct (t <? nb) eqn:Et; destruct (c <? nb) eqn:Ec;
    try discriminate Hb; destruct b;
    do 6 (run_m; rewrite ?Et, ?Ec);
    do 2 eexists; (split; [reflexivity|]); auto.
Qed.

(* ------------------------------------------------------------------ *)
(** ** Replaying a gate log: [qc.qc] and [qc.run] *)

(** A node with its indices moved by [off]. *)
Definition shift (off : nat) (g : Node) : Node :=
  match g with
  | Single nm i o v => Single nm (i + off) o v
  | Controlled nm c t o v => Controlled nm (c + off) (t + off) o v
  end.

Lemma shift_0 (g : Node) : shift 0 g = g.
Proof. destruct g; cbn; now rewrite ?Nat.add_0_r. Qed.

Lemma map_shift_0 (gs : list Node) : map (shift 0) gs = gs.
Proof.
  induction gs as [|g gs IH]; cbn; [reflexivity|].
  now rewrite shift_0, IH.
Qed.

(** What [qc.qc] does with one node of the other circuit. *)
Definition qc_step (offset : nat) (gate : Node) : M unit :=
  match gate with
  | Single name idx0 g val => apply1 g (IInt (idx0 + offset)) name val
  | Controlled name ctl idx1 g val =>
      applyc g (CInt (ctl + offset)) (IInt (idx1 + offset)) name val
  end.

Lemma emits_qc_step (p : bool) (off : nat) (g : Node) :
  emitsp p (qc_step off g) tt [shift off g].
Proof.
  destruct g as [nm i o v|nm c t o v]; cbn [qc_step shift].
  - apply emits_apply1.
  - apply (emits_applyc p o (CInt (c + off)) (t + off) nm v).
Qed.

Lemma emits_qc_qc (p : bool) (gs : list Node) (off : nat) :
  emitsp p (qc_qc gs off) tt (map (shift off) gs).
Proof.
  rewrite <- flat_map_single. unfold qc_qc.
  apply (@emits_for_each Node p (qc_step off) (fun g => [shift off g])).
  intros g _. apply emits_qc_step.
Qed.

Lemma qc_step_fail (off : nat) (g : Node) (s : qc) :
  eager s = true -> node_ok (nbits (psi s)) (shift off g) = false ->
  exists e s1, qc_step off g s = Err e s1 /\ index_out_of_range e.
Proof.
  intros He Hbad. destruct g as [nm i o v|nm c t o v];
    cbn [qc_step shift node_ok] in *.
  - apply Nat.ltb_ge in Hbad.
    destruct (@apply1_fail o (IInt (i + off)) nm v s He) as [s1 E].
    { exists (i + off). split; [now left|exact Hbad]. }
    exists (AssertionError "Invalid qubit index"), s1.
    split; [exact E|now left].
  - apply applyc_fail; [exact He|].
    apply andb_false_iff in Hbad. cbn [ctl_qubit _ctl_by_0 fst].
    destruct Hbad as [H|H]; apply Nat.ltb_ge in H; auto.
Qed.

(** In eager mode [qc.qc] fails as soon as a node is out of range. *)
Lemma qc_qc_fail (gs : list Node) (off : nat) (s : qc) :
  eager s = true ->
  forallb (node_ok (nbits (psi s))) (map (shift off) gs) = false ->
  exists e s1, qc_qc gs off s = Err e s1 /\ index_out_of_range e.
Proof.
  revert s. induction gs as [|g gs IH]; intros s He Hbad; [discriminate|].
  cbn [map forallb] in Hbad. unfold qc_qc. cbn [for_each].
  change (for_each gs _) with (qc_qc gs off). fold (qc_step off g).
  unfold bind.
  destruct (node_ok (nbits (psi s)) (shift off g)) eqn:Hg.
  - destruct (@emits_qc_step false off g s) as [mk [_ E]].
    { intros _. cbn. now rewrite Hg. }
    rewrite E. apply IH.
    + exact He.
    + rewrite nbits_after. exact Hbad.
  - destruct (@qc_step_fail off g s He Hg) as (e & s1 & E & Hi).
    exists e, s1. now rewrite E.
Qed.

Lemma run_unfold (s : qc) :
  run s
  = match qc_qc (gates (ir s)) 0 (set_eager true (set_build_ir false s)) with
    | Ok _ s' => Ok tt (set_eager (eager s) (set_build_ir (build_ir s) s'))
    | Err e s' => Err e s'
    end.
Proof.
  unfold run, bind, get, modify.
  change (gates (ir (set_eager true (set_build_ir false s))))
    with (gates (ir s)).
  destruct (qc_qc (gates (ir s)) 0 _); reflexivity.
Qed.

(** [run] with every recorded index in range: the state is replaced by
    the replay of the gate log and nothing else changes. *)
Lemma run_ok (s : qc) :
  forallb (node_ok (nbits (psi s))) (gates (ir s)) = true ->
  run s
  = Ok tt (set_psi (mkState (nbits (psi s))
                      (replay (nbits (psi s)) (gates (ir s)) (amp (psi s))))
             s).
Proof.
  intro Hok. rewrite run_unfold.
  rewrite (emits_plain_run (emits_qc_qc true (gates (ir s)) 0)).
  - rewrite map_shift_0. destruct s as [sn [nb am] [gs ms] e b g c].
    unfold after, set_psi, set_eager, set_build_ir; cbn.
    now rewrite !app_nil_r.
  - intros _. now rewrite map_shift_0.
Qed.

Lemma run_err (s : qc) :
  forallb (node_ok (nbits (psi s))) (gates (ir s)) = false ->
  exists e s1, run s = Err e s1 /\ index_out_of_range e.
Proof.
  intro Hbad. rewrite run_unfold.
  destruct (@qc_qc_fail (gates (ir s)) 0
              (set_eager true (set_build_ir false s)) eq_refl)
    as (e & s1 & E & Hi).
  { now rewrite map_shift_0. }
  exists e, s1. now rewrite E.
Qed.

(* ------------------------------------------------------------------ *)
(** ** Whole-circuit control: [qc.control_by] *)

Section ControlBy.

Variable sqrtm : Mat2 -> Mat2.
Variable FLAGS : option string.

(** What [control_by] puts into the new IR for one node of the old one. *)
Definition promote (ctl : nat) (g : Node) : list Node :=
  match g with
  | Single nm i o v => [Controlled nm ctl i o v]
  | Controlled nm c i o _ => ccu_nodes sqrtm (CInt ctl) (CInt c) i o
  end.

Lemma init_lazy (nm : option string) :
  eager (init FLAGS nm false) = false
  /\ build_ir (init FLAGS nm false) = true
  /\ ir (init FLAGS nm false) = Ir.empty
  /\ psi (init FLAGS nm false) = unit_state.
Proof. unfold init. destruct FLAGS as [[|a t]|]; cbn; auto. Qed.

Lemma sub_multi_control (ctl c i : nat) (o : Operator)
  (nm : option string) :
  exists sub,
    multi_control sqrtm [CInt ctl; CInt c] i None o nm
      (init FLAGS (Some "multi"%string) false) = Ok tt sub
    /\ gates (ir sub) = ccu_nodes sqrtm (CInt ctl) (CInt c) i o.
Proof.
  destruct (init_lazy (Some "multi"%string)) as (He & Hb & Hi & _).
  destruct (emits_record
              (@emits_multi_control sqrtm [CInt ctl; CInt c] i None o nm
                 (or_introl (le_n 2))) _ He Hb) as [mk E].
  eexists. split; [exact E|]. cbn [ir set_ir gates]. now rewrite Hi.
Qed.

Lemma fold_add_nodes (l : list Node) (r : Ir) :
  fold_left (fun r n => add_node n r) l r = mkIr (gates r ++ l) (marks r).
Proof.
  revert r. induction l as [|g l IH]; intro r; cbn [fold_left].
  - destruct r. cbn. now rewrite app_nil_r.
  - rewrite IH. unfold add_node; cbn. now rewrite <- app_assoc.
Qed.

Lemma control_by_loop_spec (ctl : nat) (todo done : list Node) (res : Ir)
  (s : qc) :
  exists r,
    control_by_loop sqrtm FLAGS ctl done todo res s
    = Ok (mkIr (gates res ++ flat_map (promote ctl) todo) (marks res))
         (set_ir r s).
Proof.
  revert done res s. induction todo as [|g todo IH]; intros done res s.
  - exists (ir s). cbn. unfold ret. destruct res, s; cbn.
    now rewrite app_nil_r.
  - destruct g as [nm i o v|nm c i o v]; cbn [control_by_loop flat_map promote].
    + unfold bind, modify. cbn [to_ctl].
      destruct (IH (done ++ [Controlled nm ctl i o v])
                  (add_node (Controlled nm ctl i o v) res)
                  (set_ir (mkIr (done ++ Controlled nm ctl i o v :: todo)
                             (marks (ir s))) s)) as [r E].
      exists r. rewrite E. unfold add_node; cbn.
      now rewrite <- app_assoc.
    + destruct (sub_multi_control ctl c i o nm) as (sub & E & Hg).
      rewrite E, fold_add_nodes, Hg.
      destruct (IH (done ++ [Controlled nm c i o v])
                  (mkIr (gates res ++ ccu_nodes sqrtm (CInt ctl) (CInt c) i o)
                        (marks res)) s) as [r E'].
      exists r. rewrite E'. cbn. now rewrite <- app_assoc.
Qed.

End ControlBy.

(* ------------------------------------------------------------------ *)
(** ** Square roots of X *)

Section SqrtX.

Local Open Scope R_scope.

Lemma sqrt_x_real_core (x y u w : R) :
  2 * (x * u - y * w) = 1 -> x * w + y * u = 0 ->
  x * x - y * y + u * u - w * w = 0 -> x * y + u * w = 0 ->
  x * x + y * y + u * u + w * w = 1 /\ x * u + y * w = 0.
Proof.
  intros H1 H2 H3 H4.
  assert (Hn : x * x + y * y = u * u + w * w).
  { assert (E : (x * x + y * y) * (x * x + y * y)
                = (u * u + w * w) * (u * u + w * w)).
    { replace ((x * x + y * y) * (x * x + y * y))
        with ((x * x - y * y) * (x * x - y * y) + 4 * (x * y) * (x * y))
        by ring.
      replace ((u * u + w * w) * (u * u + w * w))
        with ((u * u - w * w) * (u * u - w * w) + 4 * (u * w) * (u * w))
        by ring.
      replace (x * x - y * y) with (- (u * u - w * w)) by lra.
      replace (x * y) with (- (u * w)) by lra. ring. }
    nra. }
  assert (Hp : (x * x + y * y) * (u * u + w * w) = / 4).
  { replace ((x * x + y * y) * (u * u + w * w))
      with ((x * u - y * w) * (x * u - y * w)
            + (x * w + y * u) * (x * w + y * u)) by ring.
    rewrite H2. replace (x * u - y * w) with (/ 2) by lra. lra. }
  assert (Hh : x * x + y * y = / 2) by nra.
  split; [lra|].
  set (r := x * u + y * w). set (q := x * w - y * u).
  assert (Hz1 : r * r - q * q = - / 4).
  { unfold r, q.
    replace ((x * u + y * w) * (x * u + y * w)
             - (x * w - y * u) * (x * w - y * u))
      with ((x * x - y * y) * (u * u - w * w) + 4 * (x * y) * (u * w))
      by ring.
    replace (x * x - y * y) with (- (u * u - w * w)) by lra.
    replace (x * y) with (- (u * w)) by lra.
    replace (- (u * u - w * w) * (u * u - w * w) + 4 * - (u * w) * (u * w))
      with (- ((u * u + w * w) * (u * u + w * w))) by ring.
    nra. }
  assert (Hz2 : r * q = 0).
  { unfold r, q.
    replace ((x * u + y * w) * (x * w - y * u))
      with ((x * x - y * y) * (u * w) - (x * y) * (u * u - w * w)) by ring.
    replace (x * x - y * y) with (- (u * u - w * w)) by lra.
    replace (x * y) with (- (u * w)) by lra. ring. }
  destruct (Rmult_integral _ _ Hz2) as [E|E]; [exact E|].
  rewrite E in Hz1. nra.
Qed.

(** Every square root of X is unitary. *)
Lemma sqrt_x_unitary (V : Mat2) : mmul V V = mat PauliX -> unitary V.
Proof.
  destruct V as [a b c d]. unfold mmul; cbn [m00 m01 m10 m11 mat PauliX].
  intro H.
  pose proof (f_equal m00 H) as H00. pose proof (f_equal m01 H) as H01.
  pose proof (f_equal m10 H) as H10. pose proof (f_equal m11 H) as H11.
  cbn [m00 m01 m10 m11] in H00, H01, H10, H11. clear H.
  assert (Had : a = d).
  { assert (E : csub a d = czero).
    { transitivity (cmul (csub a d) (cadd (cmul a b) (cmul b d))).
      - rewrite H01. ring.
      - transitivity (cmul b (csub (cadd (cmul a a) (cmul b c))
                                   (cadd (cmul c b) (cmul d d)))).
        + ring.
        + rewrite H00, H11. ring. }
    transitivity (cadd (csub a d) d); [ring|]. rewrite E. ring. }
  assert (Hbc : b = c).
  { transitivity (cmul b (cadd (cmul c a) (cmul d c))).
    - rewrite H10. ring.
    - transitivity (cmul c (cadd (cmul a b) (cmul b d))); [ring|].
      rewrite H01. ring. }
  subst d c. clear H10 H11.
  destruct a as [x y], b as [u w].
  unfold cadd, cmul, cone, czero, re, im in H00, H01; cbn in H00, H01.
  injection H00 as R1 R2. injection H01 as R3 R4.
  destruct (@sqrt_x_real_core x y u w) as [S1 S2]; try nra.
  unfold unitary, mmul, madj, mid, conj, cadd, cmul, cone, czero, re, im;
    cbn.
  split; f_equal; apply c_eq; cbn; nra.
Qed.

End SqrtX.

(* ------------------------------------------------------------------ *)
(** ** Concrete instances *)

(** A square root of X: [1/2 * [[1+i, 1-i], [1-i, 1+i]]]. *)
Definition sqrt_X : Mat2 :=
  mkMat2 (/ 2, / 2)%R (/ 2, - / 2)%R (/ 2, - / 2)%R (/ 2, / 2)%R.

Lemma sqrt_X_square : mmul sqrt_X sqrt_X = mat PauliX.
Proof.
  unfold mmul, sqrt_X, PauliX, cadd, cmul, cone, czero, re, im; cbn.
  f_equal; apply c_eq; cbn; lra.
Qed.

Lemma PauliX_unitary : unitary (mat PauliX).
Proof.
  unfold unitary, mmul, madj, mid, PauliX, conj, cadd, cmul, cone, czero,
    re, im; cbn.
  split; f_equal; apply c_eq; cbn; lra.
Qed.

(** A fresh circuit with [n] qubits in state 0: [qc(eager=...)] followed by
    [zeros(n)], with no export flag set. *)
Definition fresh (eager : bool) (n : nat) : qc :=
  match zeros n (init None None eager) with
  | Ok _ s => s
  | Err _ s => s
  end.

Lemma toffoli_idx_bits (n : nat) (idx0 idx1 : Ctl) (t : nat) (i : N) :
  ctl_qubit idx0 < n -> ctl_qubit idx1 < n -> t < n ->
  ctl_qubit idx0 <> t -> ctl_qubit idx1 <> t ->
  fires n idx0 (toffoli_idx n idx0 idx1 t i) = fires n idx0 i
  /\ fires n idx1 (toffoli_idx n idx0 idx1 t i) = fires n idx1 i
  /\ qbit n t (toffoli_idx n idx0 idx1 t i)
     = xorb (qbit n t i) (fires n idx0 i && fires n idx1 i)
  /\ toffoli_idx n idx0 idx1 t (toffoli_idx n idx0 idx1 t i) = i.
Proof.
  intros H0 H1 Ht H0t H1t. unfold toffoli_idx at 1 2 3.
  destruct (fires n idx0 i && fires n idx1 i) eqn:E.
  - assert (F0 := @fires_flipq_other n idx0 t i H0 Ht H0t).
    assert (F1 := @fires_flipq_other n idx1 t i H1 Ht H1t).
    repeat split; auto.
    + rewrite qbit_flipq_same. now destruct (qbit n t i).
    + unfold toffoli_idx. rewrite E, F0, F1, E. apply flipq_invol.
  - repeat split; auto.
    + now rewrite xorb_false_r.
    + unfold toffoli_idx. now rewrite !E.
Qed.

(* ------------------------------------------------------------------ *)
(** ** The qubits of a multi-controlled gate *)

(** The control qubits, the ancillas the ladder uses and the target. *)
Definition mc_qubits (ctl : list Ctl) (al : list nat) (t : nat) : list nat :=
  map ctl_qubit ctl ++ firstn (List.length ctl - 1) al ++ [t].

Section McQubits.

Variable n : nat.
Variable ctl : list Ctl.
Variable al : list nat.
Variable t : nat.

Hypothesis Hlen : List.length ctl - 1 <= List.length al.
Hypothesis Hnd : NoDup (mc_qubits ctl al t).
Hypothesis Hrange : Forall (fun q => q < n) (mc_qubits ctl al t).

Let k : nat := List.length ctl.

Lemma mc_length : List.length (mc_qubits ctl al t) = k + (k - 1) + 1.
Proof.
  unfold mc_qubits. rewrite !length_app, length_map, firstn_length_le by exact Hlen.
  cbn. fold k. lia.
Qed.

Lemma mc_nth_ctl (i : nat) :
  i < k -> nth i (mc_qubits ctl al t) 0 = ctl_qubit (ctl_at ctl i).
Proof.
  intro Hi. unfold mc_qubits. rewrite app_nth1 by (rewrite length_map; exact Hi).
  unfold ctl_at. change 0 with (ctl_qubit (CInt 0)) at 1. apply map_nth.
Qed.

Lemma mc_nth_aux (j : nat) :
  j < k - 1 -> nth (k + j) (mc_qubits ctl al t) 0 = nth j al 0.
Proof.
  intro Hj. unfold mc_qubits.
  rewrite app_nth2 by (rewrite length_map; fold k; lia).
  rewrite length_map. fold k. replace (k + j - k) with j by lia.
  rewrite app_nth1 by (rewrite firstn_length_le by exact Hlen; exact Hj).
  rewrite nth_firstn. fold k.
  now replace (j <? k - 1) with true by (symmetry; apply Nat.ltb_lt; exact Hj).
Qed.

Lemma mc_nth_tgt : nth (k + (k - 1)) (mc_qubits ctl al t) 0 = t.
Proof.
  unfold mc_qubits.
  rewrite app_nth2 by (rewrite length_map; fold k; lia).
  rewrite length_map. fold k. replace (k + (k - 1) - k) with (k - 1) by lia.
  rewrite app_nth2 by (rewrite firstn_length_le by exact Hlen; fold k; lia).
  rewrite firstn_length_le by exact Hlen. now rewrite Nat.sub_diag.
Qed.

Lemma mc_distinct (i j : nat) :
  i < k + (k - 1) + 1 -> j < k + (k - 1) + 1 -> i <> j ->
  nth i (mc_qubits ctl al t) 0 <> nth j (mc_qubits ctl al t) 0.
Proof.
  intros Hi Hj Hne E. apply Hne.
  apply (proj1 (NoDup_nth (mc_qubits ctl al t) 0) Hnd);
    rewrite ?mc_length; assumption.
Qed.

Lemma mc_in_range (i : nat) :
  i < k + (k - 1) + 1 -> nth i (mc_qubits ctl al t) 0 < n.
Proof.
  intro Hi. apply (proj1 (Forall_nth (fun q => q < n) _) Hrange).
  now rewrite mc_length.
Qed.

Lemma mc_facts :
  (forall i, i < k -> ctl_qubit (ctl_at ctl i) < n)
  /\ (forall j, j < k - 1 -> nth j al 0 < n)
  /\ t < n
  /\ (forall i i', i < k -> i' < k -> i <> i' ->
        ctl_qubit (ctl_at ctl i) <> ctl_qubit (ctl_at ctl i'))
  /\ (forall j j', j < k - 1 -> j' < k - 1 -> j <> j' ->
        nth j al 0 <> nth j' al 0)
  /\ (forall i j, i < k -> j < k - 1 ->
        ctl_qubit (ctl_at ctl i) <> nth j al 0)
  /\ (forall i, i < k -> ctl_qubit (ctl_at ctl i) <> t)
  /\ (forall j, j < k - 1 -> nth j al 0 <> t).
Proof.
  repeat split.
  - intros i Hi. rewrite <- mc_nth_ctl by exact Hi. apply mc_in_range. lia.
  - intros j Hj. rewrite <- mc_nth_aux by exact Hj. apply mc_in_range. lia.
  - rewrite <- mc_nth_tgt. apply mc_in_range. lia.
  - intros i i' Hi Hi' Hne.
    rewrite <- !mc_nth_ctl by assumption. apply mc_distinct; lia.
  - intros j j' Hj Hj' Hne.
    rewrite <- !mc_nth_aux by assumption. apply mc_distinct; lia.
  - intros i j Hi Hj.
    rewrite <- mc_nth_ctl, <- mc_nth_aux by assumption.
    apply mc_distinct; lia.
  - intros i Hi. rewrite <- mc_nth_ctl by exact Hi.
    rewrite <- mc_nth_tgt at 2. apply mc_distinct; lia.
  - intros j Hj. rewrite <- mc_nth_aux by exact Hj.
    rewrite <- mc_nth_tgt at 2. apply mc_distinct; lia.
Qed.

End McQubits.

Lemma node_ok_flat_map {A : Type} (n : nat) (g : A -> list Node)
  (l : list A) :
  (forall a, In a l -> forallb (node_ok n) (g a) = true) ->
  forallb (node_ok n) (flat_map g l) = true.
Proof.
  induction l as [|a l IH]; intro H; [reflexivity|]. cbn.
  rewrite forallb_app, H by (now left). cbn. apply IH.
  intros b Hb. apply H. now right.
Qed.

Lemma node_ok_tofs (sqrtm : Mat2 -> Mat2) (n : nat) (L : list Tof) :
  Forall (tof_wf n) L ->
  forallb (node_ok n) (flat_map (tof_nodes sqrtm) L) = true.
Proof.
  intro H. apply node_ok_flat_map. intros [[a b] c] Hin.
  rewrite Forall_forall in H. destruct (H _ Hin) as (Ha & Hb & Hc & _).
  cbn [tof_nodes]. now apply node_ok_ccu.
Qed.

(* ------------------------------------------------------------------ *)
(** ** [multi_control] on a state with clean ancillas *)

(** All ancillas the ladder uses for [k] controls are 0 in basis state
    [x]. *)
Definition anc_zero (n : nat) (al : list nat) (k : nat) (x : N) : bool :=
  forallb (fun j => negb (qbit n (nth j al 0) x)) (seq 0 (k - 1)).

Section MultiControlSem.

Local Open Scope C_scope.

Variable sqrtm : Mat2 -> Mat2.
Hypothesis HrootX :
  mmul (sqrtm (mat PauliX)) (sqrtm (mat PauliX)) = mat PauliX.

Variable n : nat.
Variable ctl : list Ctl.
Variable al : list nat.
Variable t : nat.
Variable gate : Operator.
Variable desc : option string.

Hypothesis Hk : 3 <= List.length ctl.
Hypothesis Hlen : List.length ctl - 1 <= List.length al.
Hypothesis Hnd : NoDup (mc_qubits ctl al t).
Hypothesis Hrange : Forall (fun q => q < n) (mc_qubits ctl al t).

Lemma mc_ladder_wf : Forall (tof_wf n) (ladder ctl al).
Proof.
  destruct (@mc_facts n ctl al t Hlen Hnd Hrange) as (F1 & F2 & F3 & F4 & F5 & F6 & F7 & F8).
  now apply (@ladder_wf n ctl al t).
Qed.

Lemma mc_ladder_avoids : Forall (tof_avoids t) (ladder ctl al).
Proof.
  destruct (@mc_facts n ctl al t Hlen Hnd Hrange) as (F1 & F2 & F3 & F4 & F5 & F6 & F7 & F8).
  now apply (@ladder_avoids n ctl al t).
Qed.

Lemma ladder_nodes_ok :
  forallb (node_ok n) (ladder_nodes sqrtm ctl t al gate desc) = true.
Proof.
  destruct (@mc_facts n ctl al t Hlen Hnd Hrange) as (F1 & F2 & F3 & _).
  rewrite ladder_nodes_eq, !forallb_app.
  rewrite !node_ok_tofs.
  - cbn. assert (H1 : nth (List.length ctl - 2) al 0 < n) by (apply F2; lia).
    apply Nat.ltb_lt in H1, F3. now rewrite H1, F3.
  - apply Forall_rev, mc_ladder_wf.
  - apply mc_ladder_wf.
Qed.

Lemma ladder_nodes_sem (f : N -> C) :
  replay n (ladder_nodes sqrtm ctl t al gate desc) f
  = dep1 n (fun i => if qbit n (nth (List.length ctl - 2) al 0)
                          (fwd n (ladder ctl al) i)
                     then mat gate else mid) t f.
Proof.
  destruct (@mc_facts n ctl al t Hlen Hnd Hrange) as (F1 & F2 & F3 & _).
  rewrite ladder_nodes_eq.
  apply ladder_sem; auto using mc_ladder_wf, mc_ladder_avoids.
  now apply sqrt_x_unitary.
Qed.

Lemma anc_zero_spec (x : N) :
  anc_zero n al (List.length ctl) x = true ->
  forall j, j < List.length ctl - 1 -> qbit n (nth j al 0) x = false.
Proof.
  unfold anc_zero. intros H j Hj. rewrite forallb_forall in H.
  specialize (H j). rewrite in_seq in H.
  apply negb_true_iff. apply H. lia.
Qed.

Lemma anc_zero_qset (v : bool) (x : N) :
  anc_zero n al (List.length ctl) (qset n t v x)
  = anc_zero n al (List.length ctl) x.
Proof.
  destruct (@mc_facts n ctl al t Hlen Hnd Hrange) as (F1 & F2 & F3 & F4 & F5 & F6 & F7 & F8).
  unfold anc_zero. apply forallb_ext_on. intros j Hj. apply in_seq in Hj.
  f_equal. apply qbit_qset_other; auto.
  - apply F2; lia.
  - apply F8; lia.
Qed.

(** On a state whose ancillas are all 0, the gates of [multi_control] apply
    the gate to the target exactly where every control fires, and leave
    no amplitude on a basis state with an ancilla at 1. *)
Lemma ladder_nodes_clean (f : N -> C) :
  (forall x, anc_zero n al (List.length ctl) x = false -> f x = czero) ->
  forall x,
    replay n (ladder_nodes sqrtm ctl t al gate desc) f x
    = if anc_zero n al (List.length ctl) x
      then (if forallb (fun c => fires n c x) ctl
            then k_apply1 (mat gate) n t f x else f x)
      else czero.
Proof.
  intros Hclean x.
  destruct (@mc_facts n ctl al t Hlen Hnd Hrange) as (F1 & F2 & F3 & F4 & F5 & F6 & F7 & F8).
  rewrite ladder_nodes_sem. unfold dep1.
  destruct (anc_zero n al (List.length ctl) x) eqn:Ez.
  - rewrite (@fwd_ladder_last n ctl al t); auto using anc_zero_spec.
    destruct (forallb (fun c => fires n c x) ctl); [reflexivity|].
    apply k_apply1_id.
  - unfold k_apply1.
    rewrite !Hclean by (now rewrite anc_zero_qset). ring.
Qed.

End MultiControlSem.

(* ------------------------------------------------------------------ *)
(** ** Fresh circuits *)

Lemma fresh_nbits (e : bool) (n : nat) : nbits (psi (fresh e n)) = n.
Proof. reflexivity. Qed.

Lemma fresh_flags (e : bool) (n : nat) :
  eager (fresh e n) = e /\ build_ir (fresh e n) = negb e
  /\ ir (fresh e n) = Ir.empty.
Proof. repeat split. Qed.

(** The state of a fresh circuit is the basis state 0. *)
Lemma fresh_amp (e : bool) (n : nat) (x : N) :
  amp (psi (fresh e n)) x = if N.eqb x 0 then cone else czero.
Proof.
  change (amp (psi (fresh e n)) x)
    with (cmul (amp unit_state (N.shiftr x (N.of_nat n)))
               (amp (state_zeros n) (N.land x (N.ones (N.of_nat n))))).
  unfold unit_state, state_zeros; cbn [amp].
  rewrite N.shiftr_div_pow2, N.land_ones.
  destruct (N.eqb_spec x 0) as [->|Hx].
  - rewrite N.Div0.div_0_l, N.Div0.mod_0_l.
    cbn. unfold cmul, cone, re, im; cbn. f_equal; ring.
  - assert (Hpow : (2 ^ N.of_nat n <> 0)%N) by (apply N.pow_nonzero; discriminate).
    pose proof (N.div_mod x (2 ^ N.of_nat n) Hpow) as Hdm.
    destruct (N.eqb_spec (x / 2 ^ N.of_nat n) 0) as [E1|E1];
      destruct (N.eqb_spec (x mod 2 ^ N.of_nat n) 0) as [E2|E2];
      unfold cmul, cone, czero, re, im; cbn; try (f_equal; ring).
    exfalso. apply Hx. rewrite Hdm, E1, E2. now rewrite N.mul_0_r.
Qed.

(* ------------------------------------------------------------------ *)
(** ** QFT gates stay inside the register *)

Section QftRange.

Variable n : nat.
Variable reg : list nat.
Hypothesis Hreg : Forall (fun q => q < n) reg.

Lemma reg_at_range (i : nat) :
  i < List.length reg -> (reg_at reg i <? n) = true.
Proof.
  intro Hi. apply Nat.ltb_lt. unfold reg_at.
  now apply (proj1 (Forall_nth (fun q => q < n) reg) Hreg).
Qed.

Lemma node_ok_map {A : Type} (g : A -> Node) (l : list A) :
  (forall a, In a l -> node_ok n (g a) = true) ->
  forallb (node_ok n) (map g l) = true.
Proof.
  intro H. apply forallb_forall. intros nd Hin.
  apply in_map_iff in Hin as (a & <- & Ha). now apply H.
Qed.

Lemma qft_block_ok (i : nat) :
  i < List.length reg -> forallb (node_ok n) (qft_block reg i) = true.
Proof.
  intro Hi. apply node_ok_map. intros j Hj.
  apply in_rev, in_seq in Hj. cbn.
  rewrite !reg_at_range by lia. reflexivity.
Qed.

Lemma iqft_block_ok (i : nat) :
  i < List.length reg -> forallb (node_ok n) (iqft_block reg i) = true.
Proof.
  intro Hi. apply node_ok_map. intros j Hj.
  apply in_rev, in_seq in Hj. cbn.
  rewrite !reg_at_range by lia. reflexivity.
Qed.

Lemma qft_nodes_ok : forallb (node_ok n) (qft_nodes reg) = true.
Proof.
  apply node_ok_flat_map. intros i Hi. apply in_rev, in_seq in Hi.
  cbn [forallb node_ok h_node]. rewrite reg_at_range by lia.
  apply qft_block_ok. lia.
Qed.

Lemma inverse_qft_nodes_ok :
  forallb (node_ok n) (inverse_qft_nodes reg) = true.
Proof.
  unfold inverse_qft_nodes. rewrite combine_seq, flat_map_map_comp.
  apply node_ok_flat_map. intros i Hi. apply in_seq in Hi.
  cbn [forallb node_ok h_node]. rewrite Nat.sub_0_r.
  fold (reg_at reg i). rewrite reg_at_range by lia. cbn [andb].
  destruct (Nat.eqb_spec i (List.length reg - 1)) as [E|E]; cbn [negb];
    [reflexivity|].
  apply iqft_block_ok. lia.
Qed.

End QftRange.

(** Two amplitudes agree within the tolerance [tol]. *)
Definition within (tol : R) (a b : C) : Prop :=
  (norm2 (csub a b) <= tol * tol)%R.

Lemma within_refl (tol : R) (a : C) : within tol a a.
Proof.
  unfold within. replace (csub a a) with czero by ring.
  rewrite norm2_zero. nra.
Qed.

(* ------------------------------------------------------------------ *)
(** ** Demonstration circuits *)

(** A circuit that records: one qubit, not eager, after [h(0)]. *)
Definition demo_recorded : qc :=
  match h (IInt 0) true (fresh false 1) with
  | Ok _ s => s
  | Err _ s => s
  end.

Lemma demo_recorded_gates : gates (ir demo_recorded) = [h_node 0].
Proof. reflexivity. Qed.

(** [multi_control] with a non-empty ancilla list that is too short fails
    on its first assertion. *)
Lemma multi_control_short_aux (sqrtm : Mat2 -> Mat2) (ctl : list Ctl)
  (t : nat) (al : list nat) (gate : Operator) (desc : option string)
  (s : qc) :
  al <> [] -> List.length al < List.length ctl - 1 ->
  multi_control sqrtm ctl t (Some al) gate desc s
  = Err (AssertionError "Incorrect number of ancilla qubits.") s.
Proof.
  intros Hne Hlt. unfold multi_control.
  destruct al as [|a al]; [contradiction|].
  cbn [aux_truthy when aux_len]. unfold bind, py_assert.
  replace (List.length ctl - 1 <=? List.length (a :: al)) with false
    by (symmetry; apply Nat.leb_gt; exact Hlt).
  reflexivity.
Qed.

(* ------------------------------------------------------------------ *)
(** ** Circuit inversion: [qc.inverse] *)

(** The node [inverse] records for one node of the circuit: the adjoint
    operator, the label with a star, the parameter as [inverse_val]
    leaves it. *)
Definition inv_node (g : Node) : Node :=
  match g with
  | Single nm i o v =>
      Single (option_map (fun t => (t ++ "*")%string) nm) i (adjoint o)
        (inverse_val v)
  | Controlled nm c t o v =>
      Controlled (option_map (fun t => (t ++ "*")%string) nm) c t (adjoint o)
        (inverse_val v)
  end.

Definition is_named (g : Node) : bool :=
  match node_name g with Some _ => true | None => false end.

(** The body of the loop of [inverse]. *)
Definition inverse_step (gate : Node) : M unit :=
  let val := inverse_val (node_val gate) in
  match gate with
  | Single nm idx0 g _ =>
      nm' <- name_star nm ;;
      apply1 (adjoint g) (IInt idx0) nm' val
  | Controlled nm ctl idx1 g _ =>
      nm' <- name_star nm ;;
      applyc (adjoint g) (CInt ctl) (IInt idx1) nm' val
  end.

Lemma emits_inverse_step (p : bool) (g : Node) :
  is_named g = true -> emitsp p (inverse_step g) tt [inv_node g].
Proof.
  destruct g as [[nm|] i o v|[nm|] c t o v]; cbn; try discriminate; intros _.
  - apply emits_ret_bind. apply emits_apply1.
  - apply emits_ret_bind.
    apply (emits_applyc p (adjoint o) (CInt c) t (Some (nm ++ "*")%string)
             (inverse_val v)).
Qed.

Lemma inverse_val_nonzero (v : R) :
  v <> 0%R -> inverse_val (Some v) = Some (- v)%R.
Proof.
  intro H. unfold inverse_val. destruct (Req_dec_T v 0); [contradiction|].
  reflexivity.
Qed.

(** [inverse] on a circuit whose nodes all carry a label. *)
Lemma inverse_named (FLAGS : option string) (s : qc) :
  forallb is_named (gates (ir s)) = true ->
  exists s2,
    inverse FLAGS s = inl s2
    /\ eager s2 = false /\ build_ir s2 = true
    /\ psi s2 = unit_state
    /\ gates (ir s2) = map inv_node (rev (gates (ir s))).
Proof.
  intro Hn. unfold inverse.
  change (for_each (rev (gates (ir s))) _)
    with (for_each (rev (gates (ir s))) inverse_step).
  destruct (init_lazy FLAGS (name s)) as (He & Hb & Hi & Hp).
  assert (Hem : emits (for_each (rev (gates (ir s))) inverse_step) tt
                  (map inv_node (rev (gates (ir s))))).
  { rewrite <- flat_map_single.
    apply (@emits_for_each Node false inverse_step (fun g => [inv_node g])).
    intros g Hg. apply emits_inverse_step.
    rewrite forallb_forall in Hn. apply Hn. now apply in_rev. }
  destruct (emits_record Hem _ He Hb) as [mk E].
  rewrite E. eexists. split; [reflexivity|].
  cbn [eager build_ir psi ir set_ir gates]. rewrite Hi.
  repeat split; assumption.
Qed.

(** A controlled node is well formed on [n] qubits when control and
    target are two different qubits of the state. *)
Definition node_wf (n : nat) (g : Node) : Prop :=
  match g with
  | Single _ i _ _ => i < n
  | Controlled _ c t _ _ => c < n /\ t < n /\ c <> t
  end.

Lemma node_wf_ok (n : nat) (g : Node) : node_wf n g -> node_ok n g = true.
Proof.
  destruct g; cbn.
  - apply Nat.ltb_lt.
  - intros (Hc & Ht & _). apply Nat.ltb_lt in Hc, Ht. now rewrite Hc, Ht.
Qed.

Lemma node_ok_inv (n : nat) (g : Node) : node_ok n (inv_node g) = node_ok n g.
Proof. destruct g; reflexivity. Qed.

(** A unitary node followed by its inverse node is the identity. *)
Lemma node_inv_cancel (n : nat) (g : Node) (f : N -> C) :
  node_wf n g -> unitary (mat (node_gate g)) ->
  node_sem n (inv_node g) (node_sem n g f) = f.
Proof.
  intros Hwf [HU _]. destruct g as [nm i o v|nm c t o v];
    cbn [node_sem inv_node adjoint mat node_gate] in *.
  - apply functional_extensionality; intro x.
    now rewrite k_apply1_compose, HU, k_apply1_id.
  - destruct Hwf as (Hc & Ht & Hct).
    rewrite !kc_dep1, dep1_compose.
    + apply functional_extensionality; intro x. unfold dep1.
      destruct (qbit n c x); rewrite ?HU, ?mmul_id_l; apply k_apply1_id.
    + intros b x. now rewrite qbit_qset_other.
Qed.

(** The gates of a circuit followed by the gates of its inverse leave
    every amplitude vector as it was. *)
Lemma replay_inverse (n : nat) (gs : list Node) (f : N -> C) :
  Forall (node_wf n) gs ->
  Forall (fun g => unitary (mat (node_gate g))) gs ->
  replay n (gs ++ map inv_node (rev gs)) f = f.
Proof.
  intros Hwf HU. revert f.
  induction gs as [|g gs IH]; intro f; [reflexivity|].
  inversion Hwf as [|? ? Hwf1 Hwf2]; inversion HU as [|? ? HU1 HU2]; subst.
  cbn [rev app]. rewrite map_app. cbn [map].
  change (g :: ?l) with ([g] ++ l).
  rewrite app_assoc, !replay_app, <- (replay_app n gs), IH by assumption.
  cbn. now apply node_inv_cancel.
Qed.

Lemma Hadamard_unitary : unitary (mat Hadamard).
Proof.
  assert (H2 : (/ sqrt 2 * / sqrt 2 = / 2)%R).
  { rewrite <- Rinv_mult. now rewrite sqrt_sqrt by lra. }
  unfold unitary, mmul, madj, mid, Hadamard, rsqrt2, of_R, conj, cmul, cadd,
    copp, cone, czero, re, im; cbn.
  split; f_equal; apply c_eq; cbn; try ring; lra.
Qed.
(* ================================================================== *)
(** * Properties of the circuit builder *)

(** C1. For a unitary operator [U] whose square root [V = sqrtm U]
    satisfies [V * V = U], [ccu(c0, c1, t, U)] records exactly the
    Sleator-Weinfurter sequence: [V] controlled by [c0] on [t], CNOT
    [c0 -> c1], the adjoint of [V] controlled by [c1] on [t], CNOT
    [c0 -> c1], [V] controlled by [c1] on [t], the whole bracketed by [x]
    on every control given as a one-element list. For [U = X], applied to a
    state, it is the Toffoli gate: the target bit is flipped exactly on the
    basis states where both controls fire, and the control bits are left
    as they were. *)
Theorem ccu_sleator_weinfurter (sqrtm : Mat2 -> Mat2) (U : Operator)
  (idx0 idx1 : Ctl) (t : nat) (desc : option string) :
  let V := Operator_of (sqrtm (mat U)) in
  let c0 := fst (_ctl_by_0 idx0) in
  let c1 := fst (_ctl_by_0 idx1) in
  let c0_by_0 := snd (_ctl_by_0 idx0) in
  let c1_by_0 := snd (_ctl_by_0 idx1) in
  unitary (mat U) ->
  mmul (sqrtm (mat U)) (sqrtm (mat U)) = mat U ->
  (forall s, eager s = false -> build_ir s = true ->
     exists mk,
       ccu sqrtm idx0 idx1 t U desc s
       = Ok tt
           (set_ir
              (mkIr
                 (gates (ir s)
                  ++ xs c0 c0_by_0 ++ xs c1 c1_by_0
                  ++ [ Controlled (Some (Ops.name U ++ "^{1/2}")%string)
                         c0 t V None;
                       Controlled (Some "cx"%string) c0 c1 PauliX None;
                       Controlled (Some (Ops.name U ++ "^t")%string)
                         c1 t (adjoint V) None;
                       Controlled (Some "cx"%string) c0 c1 PauliX None;
                       Controlled (Some (Ops.name U ++ "^{1/2}")%string)
                         c1 t V None ]
                  ++ xs c1 c1_by_0 ++ xs c0 c0_by_0)
                 (marks (ir s) ++ mk))
              s))
  /\ (mat U = mat PauliX ->
      forall s, eager s = true ->
        c0 < nbits (psi s) -> c1 < nbits (psi s) -> t < nbits (psi s) ->
        c0 <> c1 -> c0 <> t -> c1 <> t ->
        exists s',
          ccu sqrtm idx0 idx1 t U desc s = Ok tt s'
          /\ nbits (psi s') = nbits (psi s)
          /\ forall i,
               amp (psi s') i
               = amp (psi s) (toffoli_idx (nbits (psi s)) idx0 idx1 t i)
               /\ fires (nbits (psi s)) idx0
                    (toffoli_idx (nbits (psi s)) idx0 idx1 t i)
                  = fires (nbits (psi s)) idx0 i
               /\ fires (nbits (psi s)) idx1
                    (toffoli_idx (nbits (psi s)) idx0 idx1 t i)
                  = fires (nbits (psi s)) idx1 i
               /\ qbit (nbits (psi s)) t
                    (toffoli_idx (nbits (psi s)) idx0 idx1 t i)
                  = xorb (qbit (nbits (psi s)) t i)
                      (fires (nbits (psi s)) idx0 i
                       && fires (nbits (psi s)) idx1 i)).
Proof.
  intros V c0 c1 c0_by_0 c1_by_0 HU Hroot. split.
  - intros s He Hb.
    destruct (emits_record (emits_ccu sqrtm idx0 idx1 t U desc) s He Hb)
      as [mk E].
    exists mk. rewrite E. unfold ccu_nodes, sw_nodes.
    subst V c0 c1 c0_by_0 c1_by_0.
    destruct (_ctl_by_0 idx0), (_ctl_by_0 idx1). reflexivity.
  - intros HX s He H0 H1 Ht H01 H0t H1t.
    assert (Hunit : unitary (sqrtm (mat U))).
    { apply sqrt_x_unitary. now rewrite Hroot. }
    destruct (emits_eager (emits_ccu sqrtm idx0 idx1 t U desc) s He)
      as (s' & E & Hn & Ha & _).
    { now apply node_ok_ccu. }
    exists s'. split; [exact E|]. split; [exact Hn|].
    intro i. split.
    + rewrite Ha. rewrite ccu_nodes_sem by assumption.
      rewrite HX. apply dep1_X_toffoli.
    + destruct (@toffoli_idx_bits (nbits (psi s)) idx0 idx1 t i)
        as (B0 & B1 & B2 & _); auto.
Qed.

(** The hypotheses of C1 hold for [U = X] with the root [sqrt_X], on a
    three-qubit circuit. *)
Lemma ccu_sleator_weinfurter_witness :
  unitary (mat PauliX)
  /\ mmul sqrt_X sqrt_X = mat PauliX
  /\ exists s',
       ccu (fun _ => sqrt_X) (CInt 0) (CInt 1) 2 PauliX (Some "ccx"%string)
         (fresh true 3) = Ok tt s'
       /\ nbits (psi s') = 3.
Proof.
  split; [exact PauliX_unitary|]. split; [exact sqrt_X_square|].
  destruct (@ccu_sleator_weinfurter (fun _ => sqrt_X) PauliX (CInt 0)
              (CInt 1) 2 (Some "ccx"%string) PauliX_unitary sqrt_X_square)
    as [_ H].
  destruct (H eq_refl (fresh true 3) eq_refl) as (s' & E & Hn & _);
    cbn; try lia.
  exists s'. split; [exact E|exact Hn].
Defined.


(** C3. With no control [multi_control] is an unconditional [apply1], with
    one control a single [applyc], with two the [ccu] construction. With
    [k >= 3] controls and at least [k - 1] ancillas it records the Toffoli
    ladder (controls 0 and 1 onto ancilla 0, then control [i] and ancilla
    [i - 2] onto ancilla [i - 1] for [i = 2 .. k - 1]), the gate controlled
    by the last ancilla, and the ladder in reverse. Applied to a state whose
    ancillas are all 0, with controls, ancillas and target distinct and in
    range, it applies the gate to the target exactly on the basis states
    where every control fires, and it leaves no amplitude on any basis
    state with an ancilla at 1, whatever the control bits. *)
Theorem multi_control_ladder (sqrtm : Mat2 -> Mat2) (t : nat)
  (gate : Operator) (desc : option string) :
  (forall aux s, exists d,
     multi_control sqrtm [] t aux gate desc s
     = scope d (apply1 gate (IInt t) desc None) s)
  /\ (forall c0 aux s, exists d,
        multi_control sqrtm [c0] t aux gate desc s
        = scope d (applyc gate c0 (IInt t) desc None) s)
  /\ (forall c0 c1 aux s, exists d,
        multi_control sqrtm [c0; c1] t aux gate desc s
        = scope d (ccu sqrtm c0 c1 t gate desc) s)
  /\ (forall ctl al s,
        let k := List.length ctl in
        let rung i :=
          ccu_nodes sqrtm (ctl_at ctl i) (CInt (nth (i - 2) al 0))
            (nth (i - 1) al 0) PauliX in
        3 <= k -> k - 1 <= List.length al ->
        eager s = false -> build_ir s = true ->
        exists mk,
          multi_control sqrtm ctl t (Some al) gate desc s
          = Ok tt
              (set_ir
                 (mkIr
                    (gates (ir s)
                     ++ ccu_nodes sqrtm (ctl_at ctl 0) (ctl_at ctl 1)
                          (nth 0 al 0) PauliX
                     ++ flat_map rung (seq 2 (k - 2))
                     ++ applyc_nodes gate (CInt (nth (k - 2) al 0)) t desc None
                     ++ flat_map rung (rev (seq 2 (k - 2)))
                     ++ ccu_nodes sqrtm (ctl_at ctl 0) (ctl_at ctl 1)
                          (nth 0 al 0) PauliX)
                    (marks (ir s) ++ mk))
                 s))
  /\ (forall ctl al s,
        let k := List.length ctl in
        let n := nbits (psi s) in
        mmul (sqrtm (mat PauliX)) (sqrtm (mat PauliX)) = mat PauliX ->
        3 <= k -> k - 1 <= List.length al ->
        NoDup (mc_qubits ctl al t) ->
        Forall (fun q => q < n) (mc_qubits ctl al t) ->
        eager s = true ->
        (forall x, anc_zero n al k x = false -> amp (psi s) x = czero) ->
        exists s',
          multi_control sqrtm ctl t (Some al) gate desc s = Ok tt s'
          /\ nbits (psi s') = n
          /\ forall x,
               amp (psi s') x
               = if anc_zero n al k x
                 then (if forallb (fun c => fires n c x) ctl
                       then k_apply1 (mat gate) n t (amp (psi s)) x
                       else amp (psi s) x)
                 else czero).
Proof.
  repeat split.
  - intros aux s. destruct aux as [[|a al]|]; eexists; reflexivity.
  - intros c0 aux s. destruct aux as [[|a al]|]; eexists; reflexivity.
  - intros c0 c1 aux s. destruct aux as [[|a al]|]; eexists; reflexivity.
  - intros ctl al s k rung Hk Hlen He Hb.
    destruct (emits_record
                (@emits_multi_control sqrtm ctl t (Some al) gate desc
                   (or_intror Hlen)) s He Hb) as [mk E].
    exists mk. rewrite E.
    destruct ctl as [|c0 [|c1 [|c2 ctl]]]; cbn in Hk; try lia.
    reflexivity.
  - intros ctl al s k n HX Hk Hlen Hnd Hrange He Hclean.
    assert (Hnodes : multi_control_nodes sqrtm ctl t al gate desc
                     = ladder_nodes sqrtm ctl t al gate desc).
    { destruct ctl as [|c0 [|c1 [|c2 ctl]]]; cbn in Hk; try lia.
      reflexivity. }
    destruct (emits_eager
                (@emits_multi_control sqrtm ctl t (Some al) gate desc
                   (or_intror Hlen)) s He) as (s' & E & Hn & Ha & _).
    { cbn [aux_list]. rewrite Hnodes. now apply ladder_nodes_ok. }
    exists s'. split; [exact E|]. split; [exact Hn|].
    intro x. rewrite Ha. cbn [aux_list]. rewrite Hnodes.
    now apply ladder_nodes_clean.
Qed.

(** The hypotheses of C3 hold for three controls 0, 1, 2, ancillas 3, 4
    and target 5 on a fresh six-qubit circuit, with the root [sqrt_X]. *)
Lemma multi_control_ladder_witness :
  mmul sqrt_X sqrt_X = mat PauliX
  /\ NoDup (mc_qubits [CInt 0; CInt 1; CInt 2] [3; 4] 5)
  /\ Forall (fun q => q < 6) (mc_qubits [CInt 0; CInt 1; CInt 2] [3; 4] 5)
  /\ (forall x, anc_zero 6 [3; 4] 3 x = false ->
        amp (psi (fresh true 6)) x = czero)
  /\ exists s',
       multi_control (fun _ => sqrt_X) [CInt 0; CInt 1; CInt 2] 5
         (Some [3; 4]) PauliX None (fresh true 6) = Ok tt s'
       /\ nbits (psi s') = 6.
Proof.
  assert (Hnd : NoDup (mc_qubits [CInt 0; CInt 1; CInt 2] [3; 4] 5)).
  { cbn. repeat constructor; cbn; intuition lia. }
  assert (Hr : Forall (fun q => q < 6)
                 (mc_qubits [CInt 0; CInt 1; CInt 2] [3; 4] 5)).
  { cbn. repeat constructor; lia. }
  assert (Hc : forall x, anc_zero 6 [3; 4] 3 x = false ->
                 amp (psi (fresh true 6)) x = czero).
  { intros x Hz. rewrite fresh_amp.
    destruct (N.eqb_spec x 0) as [->|Hx]; [discriminate Hz|reflexivity]. }
  split; [exact sqrt_X_square|]. split; [exact Hnd|]. split; [exact Hr|].
  split; [exact Hc|].
  destruct (@multi_control_ladder (fun _ => sqrt_X) 5 PauliX None)
    as (_ & _ & _ & _ & H).
  destruct (H [CInt 0; CInt 1; CInt 2] [3; 4] (fresh true 6) sqrt_X_square)
    as (s' & E & Hn & _); auto.
  exists s'. split; [exact E|exact Hn].
Defined.

(** C6. On an eager circuit, for a register of 1 to 6 qubits of the
    circuit and any state, [qft(reg)] followed by [inverse_qft(reg)], both
    without swaps, succeed and return every amplitude to its starting
    value (so within 1e-6 of it). *)
Theorem qft_then_inverse_qft (reg : list nat) (s : qc) :
  1 <= List.length reg <= 6 ->
  Forall (fun q => q < nbits (psi s)) reg ->
  eager s = true ->
  exists s1 s2,
    qft reg false s = Ok tt s1
    /\ inverse_qft reg false s1 = Ok tt s2
    /\ nbits (psi s2) = nbits (psi s)
    /\ forall i,
         amp (psi s2) i = amp (psi s) i
         /\ within (1 / 1000000) (amp (psi s2) i) (amp (psi s) i).
Proof.
  intros _ Hreg He.
  destruct (emits_eager (emits_qft reg) s He)
    as (s1 & E1 & Hn1 & Ha1 & _ & He1 & _).
  { now apply qft_nodes_ok. }
  rewrite <- He1 in He.
  destruct (emits_eager (emits_inverse_qft reg) s1 He)
    as (s2 & E2 & Hn2 & Ha2 & _).
  { rewrite Hn1. now apply inverse_qft_nodes_ok. }
  exists s1, s2. split; [exact E1|]. split; [exact E2|].
  split; [congruence|].
  assert (Hamp : amp (psi s2) = amp (psi s)).
  { rewrite Ha2, Ha1, Hn1, <- replay_app. apply qft_iqft_nodes. }
  intro i. rewrite Hamp. split; [reflexivity|apply within_refl].
Qed.

(** The hypotheses of C6 hold for the register of all three qubits of a
    fresh eager circuit. *)
Lemma qft_then_inverse_qft_witness :
  1 <= List.length [0; 1; 2] <= 6
  /\ Forall (fun q => q < nbits (psi (fresh true 3))) [0; 1; 2]
  /\ exists s1 s2,
       qft [0; 1; 2] false (fresh true 3) = Ok tt s1
       /\ inverse_qft [0; 1; 2] false s1 = Ok tt s2
       /\ nbits (psi s2) = 3.
Proof.
  assert (Hl : 1 <= List.length [0; 1; 2] <= 6) by (cbn; lia).
  assert (Hr : Forall (fun q => q < nbits (psi (fresh true 3))) [0; 1; 2]).
  { repeat constructor; cbn; lia. }
  split; [exact Hl|]. split; [exact Hr|].
  destruct (@qft_then_inverse_qft [0; 1; 2] (fresh true 3) Hl Hr eq_refl)
    as (s1 & s2 & E1 & E2 & Hn & _).
  exists s1, s2. repeat split; assumption.
Defined.

(** C10. Whenever [run()] returns, the state is the replay, in order, of
    every gate recorded in the IR, the IR is what it was, and the [eager]
    and [build_ir] flags have their values from before the call; and
    [run()] does return when every recorded index is below the qubit
    count. *)
Theorem run_replays_ir (s : qc) :
  (forall s', run s = Ok tt s' ->
     psi s' = mkState (nbits (psi s))
                (replay (nbits (psi s)) (gates (ir s)) (amp (psi s)))
     /\ ir s' = ir s
     /\ eager s' = eager s
     /\ build_ir s' = build_ir s)
  /\ (forallb (node_ok (nbits (psi s))) (gates (ir s)) = true ->
      exists s', run s = Ok tt s').
Proof.
  split.
  - intros s' Hrun.
    destruct (forallb (node_ok (nbits (psi s))) (gates (ir s))) eqn:Hok.
    + rewrite (run_ok s Hok) in Hrun. injection Hrun as <-.
      repeat split.
    + destruct (run_err s Hok) as (e & s1 & E & _). congruence.
  - intro Hok. eexists. apply (run_ok s Hok).
Qed.

(** C5. On a circuit that is not eager, [control_by(ctl)] replaces the IR
    by a new one in which every single-target node has become a node
    controlled on [ctl], and every controlled node has been replaced by the
    gates that a transient circuit records for [multi_control] with controls
    [[ctl; original control]], that is, by the five gates of the
    doubly-controlled construction. On an eager circuit it fails on its
    first assertion and changes nothing. *)
Theorem control_by_promotes (sqrtm : Mat2 -> Mat2) (FLAGS : option string)
  (ctl : nat) (s : qc) :
  (eager s = false ->
   control_by sqrtm FLAGS ctl s
   = Ok tt (set_ir (mkIr (flat_map (promote sqrtm ctl) (gates (ir s))) []) s))
  /\ (forall nm i o v,
        promote sqrtm ctl (Single nm i o v) = [Controlled nm ctl i o v])
  /\ (forall nm c i o v,
        exists sub,
          multi_control sqrtm [CInt ctl; CInt c] i None o nm
            (init FLAGS (Some "multi"%string) false) = Ok tt sub
          /\ promote sqrtm ctl (Controlled nm c i o v) = gates (ir sub)
          /\ gates (ir sub)
             = [ Controlled (Some (Ops.name o ++ "^{1/2}")%string) ctl i
                   (Operator_of (sqrtm (mat o))) None;
                 Controlled (Some "cx"%string) ctl c PauliX None;
                 Controlled (Some (Ops.name o ++ "^t")%string) c i
                   (adjoint (Operator_of (sqrtm (mat o)))) None;
                 Controlled (Some "cx"%string) ctl c PauliX None;
                 Controlled (Some (Ops.name o ++ "^{1/2}")%string) c i
                   (Operator_of (sqrtm (mat o))) None ])
  /\ (eager s = true ->
      control_by sqrtm FLAGS ctl s
      = Err (AssertionError "control_by() used in non-eager circuit.") s).
Proof.
  repeat split.
  - intro He. unfold control_by, bind, get. rewrite He. cbn [negb py_assert ret].
    destruct (control_by_loop_spec sqrtm FLAGS ctl (gates (ir s)) [] Ir.empty s)
      as [r E].
    rewrite E. unfold modify. reflexivity.
  - intros nm c i o v.
    destruct (sub_multi_control sqrtm FLAGS ctl c i o nm) as (sub & E & Hg).
    exists sub. split; [exact E|]. split; [symmetry; exact Hg|].
    rewrite Hg. reflexivity.
  - intro He. unfold control_by, bind, get. rewrite He. reflexivity.
Qed.

(** The hypothesis of the second part of C10 holds for a recorded
    one-gate circuit. *)
Lemma run_replays_ir_witness :
  forallb (node_ok (nbits (psi demo_recorded))) (gates (ir demo_recorded))
  = true
  /\ exists s', run demo_recorded = Ok tt s'.
Proof.
  split; [reflexivity|].
  apply (proj2 (run_replays_ir demo_recorded)). reflexivity.
Defined.

(** The hypothesis of the first part of C5 holds for a recorded one-gate
    circuit. *)
Lemma control_by_promotes_witness :
  eager demo_recorded = false
  /\ control_by (fun _ => sqrt_X) None 1 demo_recorded
     = Ok tt (set_ir (mkIr [Controlled (Some "h"%string) 1 0 Hadamard None] [])
                demo_recorded).
Proof.
  split; [reflexivity|].
  exact (proj1 (control_by_promotes (fun _ => sqrt_X) None 1 demo_recorded)
           eq_refl).
Defined.

(** C7, as amended. On a circuit whose eager flag is set, [apply1] fails
    with the assertion on the qubit index when some index of its argument
    is not below the qubit count, and [applyc] fails with an
    index-out-of-range condition when its target or its control is not
    below the qubit count. *)
Theorem eager_index_check (s : qc) :
  eager s = true ->
  (forall gate idx_set nm val,
     (exists idx, In idx (indices_of idx_set) /\ nbits (psi s) <= idx) ->
     exists s1,
       apply1 gate idx_set nm val s
       = Err (AssertionError "Invalid qubit index") s1)
  /\ (forall gate ctl t nm val,
        nbits (psi s) <= t \/ nbits (psi s) <= fst (_ctl_by_0 ctl) ->
        exists e s1,
          applyc gate ctl (IInt t) nm val s = Err e s1
          /\ (e = AssertionError "Invalid qubit index"
              \/ e = KernelIndexError)).
Proof.
  intro He. split.
  - intros gate idx_set nm val H. now apply apply1_fail.
  - intros gate ctl t nm val H. now apply applyc_fail.
Qed.

(** The hypothesis of C7 holds on a fresh eager circuit of two qubits,
    where [x(2)] fails. *)
Lemma eager_index_check_witness :
  eager (fresh true 2) = true
  /\ exists s1,
       apply1 PauliX (IInt 2) (Some "x"%string) None (fresh true 2)
       = Err (AssertionError "Invalid qubit index") s1.
Proof.
  split; [reflexivity|].
  apply (proj1 (eager_index_check (fresh true 2) eq_refl)).
  exists 2. split; [now left|]. cbn. lia.
Defined.

(** C7 as stated fails: on a circuit that is not eager, a gate call on a
    qubit index that is not below the qubit count (here 0 qubits, index 0)
    succeeds and records the node. *)
Lemma lazy_gate_call_unchecked :
  nbits (psi (init None None false)) <= 0
  /\ apply1 PauliX (IInt 0) (Some "x"%string) None (init None None false)
     = Ok tt (set_ir (mkIr [Single (Some "x"%string) 0 PauliX None] [])
                (init None None false)).
Proof. split; [cbn; lia|reflexivity]. Qed.

(** C8, as amended. [multi_control] called with a non-empty list of fewer
    than [k - 1] ancillas, for its [k >= 3] controls, fails with the
    assertion on the number of ancillas, and leaves the state and the IR as
    they were. *)
Theorem multi_control_too_few_ancillas (sqrtm : Mat2 -> Mat2)
  (ctl : list Ctl) (t : nat) (al : list nat) (gate : Operator)
  (desc : option string) (s : qc) :
  3 <= List.length ctl ->
  al <> [] ->
  List.length al < List.length ctl - 1 ->
  multi_control sqrtm ctl t (Some al) gate desc s
  = Err (AssertionError "Incorrect number of ancilla qubits.") s.
Proof. intros _. apply multi_control_short_aux. Qed.

(** The hypotheses of C8 hold for four controls and one ancilla. *)
Lemma multi_control_too_few_ancillas_witness :
  3 <= List.length [CInt 0; CInt 1; CInt 2; CInt 3]
  /\ [4] <> []
  /\ List.length [4] < List.length [CInt 0; CInt 1; CInt 2; CInt 3] - 1
  /\ multi_control (fun _ => sqrt_X) [CInt 0; CInt 1; CInt 2; CInt 3] 5
       (Some [4]) PauliX None (fresh true 6)
     = Err (AssertionError "Incorrect number of ancilla qubits.")
           (fresh true 6).
Proof.
  assert (H1 : 3 <= List.length [CInt 0; CInt 1; CInt 2; CInt 3])
    by (cbn; lia).
  assert (H2 : [4] <> []) by discriminate.
  assert (H3 : List.length [4]
               < List.length [CInt 0; CInt 1; CInt 2; CInt 3] - 1)
    by (cbn; lia).
  split; [exact H1|]. split; [exact H2|]. split; [exact H3|].
  exact (@multi_control_too_few_ancillas (fun _ => sqrt_X)
           [CInt 0; CInt 1; CInt 2; CInt 3] 5 [4] PauliX None (fresh true 6)
           H1 H2 H3).
Defined.

(** C8 as stated fails: with three controls and no ancilla at all, the
    check on the number of ancillas is skipped; the call opens its section
    and then fails on [aux[0]], with [IndexError] for an empty list and with
    [TypeError] for [None]. *)
Lemma multi_control_no_ancilla :
  (exists d,
     multi_control (fun _ => sqrt_X) [CInt 0; CInt 1; CInt 2] 3 (Some [])
       PauliX None (fresh false 4)
     = Err IndexError
         (set_ir (mkIr [] [SectionOpen d 0; SectionClose 0]) (fresh false 4)))
  /\ (exists d,
        multi_control (fun _ => sqrt_X) [CInt 0; CInt 1; CInt 2] 3 None
          PauliX None (fresh false 4)
        = Err TypeError
            (set_ir (mkIr [] [SectionOpen d 0; SectionClose 0])
               (fresh false 4))).
Proof. split; eexists; reflexivity. Qed.

(** C2, at a zero parameter. A circuit records [u1(0, 0.0)]; the node it
    stores carries the parameter 0. [inverse()] returns a circuit that is
    not eager and holds the adjoint gate, but with no parameter at all in
    place of the negated one: [-gate.val if gate.val else None] takes the
    stored 0 for an absent parameter. *)
Theorem inverse_drops_zero_parameter :
  exists s1 s2,
    u1 (IInt 0) 0%R (init None None false) = Ok tt s1
    /\ gates (ir s1) = [Single (Some "u1"%string) 0 (U1 0) (Some 0%R)]
    /\ inverse None s1 = inl s2
    /\ eager s2 = false
    /\ gates (ir s2)
       = [Single (Some "u1*"%string) 0 (adjoint (U1 0)) None].
Proof.
  eexists. eexists. split; [reflexivity|]. split; [reflexivity|].
  unfold inverse. cbn [gates ir set_ir single add_node app rev for_each
                       node_val init Ir.empty].
  unfold inverse_val. destruct (Req_dec_T 0 0) as [_|F];
    [|exfalso; apply F; reflexivity].
  split; [reflexivity|]. split; reflexivity.
Qed.

(** C4. On a circuit with at least one recorded gate, [invert(reg)] raises
    [TypeError] at its first call of [swap_bits] (two parameters, three
    arguments): no index of any IR node is remapped, and the circuit is left
    as it was. *)
Theorem invert_raises (reg : list nat) (s : qc) (g : Node) (gs : list Node) :
  gates (ir s) = g :: gs ->
  invert reg s = Err TypeError s.
Proof.
  intro H. unfold invert, bind, get. rewrite H. reflexivity.
Qed.

(** The hypothesis of C4 holds for a recorded one-gate circuit. *)
Lemma invert_raises_witness :
  gates (ir demo_recorded) = [h_node 0]
  /\ invert [0] demo_recorded = Err TypeError demo_recorded.
Proof.
  split; [reflexivity|].
  exact (@invert_raises [0] demo_recorded (h_node 0) [] eq_refl).
Defined.

(** C9, the constructor. Whatever the arguments and the export flags, the
    constructor never leaves both mode flags set: [build_ir] is [not eager].
    On the default, eager, circuit a gate call therefore reaches the kernel
    and records nothing. *)
Theorem constructor_never_sets_both_flags :
  (forall FLAGS name e,
     build_ir (init FLAGS name e) = negb e
     /\ eager (init FLAGS name e) && build_ir (init FLAGS name e) = false)
  /\ exists s',
       h (IInt 0) true (fresh true 1) = Ok tt s'
       /\ gates (ir s') = []
       /\ amp (psi s')
          = k_apply1 (mat Hadamard) 1 0 (amp (psi (fresh true 1))).
Proof.
  split.
  - intros FLAGS name e. unfold init.
    destruct FLAGS as [[|a t]|], e; split; reflexivity.
  - eexists. split; [reflexivity|]. split; reflexivity.
Qed.

(** X1. [inverse()] on a circuit whose recorded nodes all carry a label
    returns a new circuit that is not eager and whose IR is the original IR
    reversed, each node with the adjoint operator, the label with a star
    and the parameter negated when it is present and not 0. *)
Theorem inverse_reverses_ir (FLAGS : option string) (s : qc) :
  forallb is_named (gates (ir s)) = true ->
  (exists s2,
     inverse FLAGS s = inl s2
     /\ eager s2 = false
     /\ gates (ir s2) = map inv_node (rev (gates (ir s))))
  /\ (forall g, node_gate (inv_node g) = adjoint (node_gate g))
  /\ (forall g v, node_val g = Some v -> v <> 0%R ->
        node_val (inv_node g) = Some (- v)%R)
  /\ (forall g, node_val g = None -> node_val (inv_node g) = None).
Proof.
  intro Hn. split; [|split; [|split]].
  - destruct (inverse_named FLAGS s Hn) as (s2 & E & He & _ & _ & Hg).
    exists s2. repeat split; assumption.
  - intros [nm i o v|nm c t o v]; reflexivity.
  - intros [nm i o w|nm c t o w] v Hv Hne; cbn in Hv; subst w; cbn;
      now apply inverse_val_nonzero.
  - intros [nm i o w|nm c t o w] Hv; cbn in Hv; subst w; reflexivity.
Qed.

(** The hypothesis of X1 holds for a recorded one-gate circuit. *)
Lemma inverse_reverses_ir_witness :
  forallb is_named (gates (ir demo_recorded)) = true
  /\ exists s2,
       inverse None demo_recorded = inl s2
       /\ eager s2 = false
       /\ gates (ir s2) = map inv_node (rev (gates (ir demo_recorded))).
Proof.
  split; [reflexivity|].
  exact (proj1 (@inverse_reverses_ir None demo_recorded eq_refl)).
Defined.

(** X2. Inversion law. Let [c] be a recorded circuit whose nodes carry
    labels and unitary operators, on distinct qubits of an eager circuit
    [s]. Adding [c] to [s] and then adding [c.inverse()] returns every
    amplitude of [s] to its starting value (so within 1e-6 of it). *)
Theorem inversion_law (FLAGS : option string) (c s : qc) :
  forallb is_named (gates (ir c)) = true ->
  Forall (node_wf (nbits (psi s))) (gates (ir c)) ->
  Forall (fun g => unitary (mat (node_gate g))) (gates (ir c)) ->
  eager s = true ->
  exists cinv s1 s2,
    inverse FLAGS c = inl cinv
    /\ qc_qc (gates (ir c)) 0 s = Ok tt s1
    /\ qc_qc (gates (ir cinv)) 0 s1 = Ok tt s2
    /\ nbits (psi s2) = nbits (psi s)
    /\ forall i,
         amp (psi s2) i = amp (psi s) i
         /\ within (1 / 1000000) (amp (psi s2) i) (amp (psi s) i).
Proof.
  intros Hn Hwf HU He.
  destruct (inverse_named FLAGS c Hn) as (cinv & E & _ & _ & _ & Hg).
  assert (Hok : forallb (node_ok (nbits (psi s))) (gates (ir c)) = true).
  { apply forallb_forall. intros g Hin. apply node_wf_ok.
    rewrite Forall_forall in Hwf. now apply Hwf. }
  destruct (emits_eager (emits_qc_qc false (gates (ir c)) 0) s He)
    as (s1 & E1 & Hn1 & Ha1 & _ & He1 & _).
  { now rewrite map_shift_0. }
  rewrite <- He1 in He.
  destruct (emits_eager (emits_qc_qc false (gates (ir cinv)) 0) s1 He)
    as (s2 & E2 & Hn2 & Ha2 & _).
  { rewrite map_shift_0, Hg, Hn1. apply forallb_forall. intros g Hin.
    apply in_map_iff in Hin as (g0 & <- & Hin0). rewrite node_ok_inv.
    rewrite forallb_forall in Hok. apply Hok. now apply in_rev. }
  exists cinv, s1, s2. repeat (split; [assumption|]).
  split; [congruence|].
  assert (Hamp : amp (psi s2) = amp (psi s)).
  { rewrite Ha2, Ha1, !map_shift_0, Hg, Hn1, <- replay_app.
    now apply replay_inverse. }
  intro i. rewrite Hamp. split; [reflexivity|apply within_refl].
Qed.

(** The hypotheses of X2 hold for the recorded Hadamard and a fresh eager
    one-qubit circuit. *)
Lemma inversion_law_witness :
  forallb is_named (gates (ir demo_recorded)) = true
  /\ Forall (node_wf (nbits (psi (fresh true 1)))) (gates (ir demo_recorded))
  /\ Forall (fun g => unitary (mat (node_gate g))) (gates (ir demo_recorded))
  /\ exists cinv s1 s2,
       inverse None demo_recorded = inl cinv
       /\ qc_qc (gates (ir demo_recorded)) 0 (fresh true 1) = Ok tt s1
       /\ qc_qc (gates (ir cinv)) 0 s1 = Ok tt s2
       /\ nbits (psi s2) = 1.
Proof.
  assert (H1 : Forall (node_wf (nbits (psi (fresh true 1))))
                 (gates (ir demo_recorded))).
  { repeat constructor. }
  assert (H2 : Forall (fun g => unitary (mat (node_gate g)))
                 (gates (ir demo_recorded))).
  { constructor; [exact Hadamard_unitary|constructor]. }
  split; [reflexivity|]. split; [exact H1|]. split; [exact H2|].
  destruct (@inversion_law None demo_recorded (fresh true 1) eq_refl H1 H2
              eq_refl) as (cinv & s1 & s2 & E & E1 & E2 & Hn & _).
  exists cinv, s1, s2. repeat (split; [assumption|]). exact Hn.
Defined.

(** X3. A gate call [apply1] on a qubit of the circuit appends its node to
    the IR exactly when [build_ir] is set, and applies the kernel to the
    state exactly when [eager] is set. *)
Theorem gate_call_follows_flags (gate : Operator) (idx : nat)
  (nm : option string) (val : option R) (s : qc) :
  idx < nbits (psi s) ->
  exists s',
    apply1 gate (IInt idx) nm val s = Ok tt s'
    /\ gates (ir s')
       = gates (ir s) ++ (if build_ir s then [Single nm idx gate val] else [])
    /\ psi s'
       = (if eager s
          then mkState (nbits (psi s))
                 (k_apply1 (mat gate) (nbits (psi s)) idx (amp (psi s)))
          else psi s)
    /\ eager s' = eager s /\ build_ir s' = build_ir s.
Proof.
  intro Hi. eexists. split.
  - apply (emits_plain_run (emits_apply1 true gate idx nm val)).
    intros _. cbn. apply Nat.ltb_lt in Hi. now rewrite Hi.
  - repeat split.
Qed.

(** The hypothesis of X3 holds for qubit 0 of a fresh one-qubit
    circuit. *)
Lemma gate_call_follows_flags_witness :
  0 < nbits (psi (fresh true 1))
  /\ exists s',
       apply1 Hadamard (IInt 0) (Some "h"%string) None (fresh true 1)
       = Ok tt s'
       /\ gates (ir s') = [].
Proof.
  assert (H : 0 < nbits (psi (fresh true 1))) by (cbn; lia).
  split; [exact H|].
  destruct (@gate_call_follows_flags Hadamard 0 (Some "h"%string) None
              (fresh true 1) H) as (s' & E & Hg & _).
  exists s'. split; [exact E|exact Hg].
Defined.

From Stdlib Require Import BinInt DecimalNat.

(* ------------------------------------------------------------------ *)
(** * Further gates of the builder *)

(** ** Relabellings of the basis states, bit by bit *)

Section Relabel.

Variable n : nat.

Lemma testbit_flipq (q : nat) (i p : N) :
  N.testbit (flipq n q i) p
  = if N.eqb (pos n q) p then negb (N.testbit i (pos n q))
    else N.testbit i p.
Proof. unfold flipq. rewrite testbit_qset. reflexivity. Qed.

Lemma testbit_cnot (c t : nat) (i p : N) :
  N.testbit (cnot n c t i) p
  = if N.eqb (pos n t) p
    then xorb (N.testbit i (pos n c)) (N.testbit i (pos n t))
    else N.testbit i p.
Proof.
  unfold cnot, qbit. destruct (N.testbit i (pos n c)) eqn:E.
  - rewrite testbit_flipq. destruct (N.eqb (pos n t) p); reflexivity.
  - destruct (N.eqb_spec (pos n t) p) as [<-|]; [|reflexivity].
    now rewrite xorb_false_l.
Qed.

(** Basis index with the values of qubits [a] and [b] exchanged. *)
Definition swapq (a b : nat) (i : N) : N :=
  qset n a (qbit n b i) (qset n b (qbit n a i) i).

Lemma testbit_swapq (a b : nat) (i p : N) :
  N.testbit (swapq a b i) p
  = if N.eqb (pos n a) p then N.testbit i (pos n b)
    else if N.eqb (pos n b) p then N.testbit i (pos n a)
    else N.testbit i p.
Proof. unfold swapq. rewrite !testbit_qset. reflexivity. Qed.

Lemma flipq_comm (c t : nat) (i : N) :
  flipq n c (flipq n t i) = flipq n t (flipq n c i).
Proof.
  apply N.bits_inj; intro p. rewrite !testbit_flipq.
  destruct (N.eqb_spec (pos n c) p) as [Ec|Ec];
    destruct (N.eqb_spec (pos n t) p) as [Et|Et];
    rewrite ?testbit_flipq; subst;
    repeat match goal with
           | |- context [N.eqb ?a ?a] => rewrite (N.eqb_refl a)
           | H : ?a <> ?b |- context [N.eqb ?a ?b] =>
               rewrite (proj2 (N.eqb_neq a b) H)
           | H : ?b <> ?a |- context [N.eqb ?a ?b] =>
               rewrite (proj2 (N.eqb_neq a b) (not_eq_sym H))
           end; try reflexivity.
  rewrite Et. now rewrite N.eqb_refl.
Qed.

Section Two.

Variables a b : nat.
Hypothesis Ha : a < n.
Hypothesis Hb : b < n.
Hypothesis Hab : a <> b.

Lemma cnot_invol (i : N) : cnot n a b (cnot n a b i) = i.
Proof.
  unfold cnot at 1. rewrite qbit_cnot_ctl by assumption.
  unfold cnot. destruct (qbit n a i); [|reflexivity].
  apply flipq_invol.
Qed.

(** The three CNOTs of [swap] exchange the two qubits. *)
Lemma cnot3_swapq (i : N) :
  cnot n b a (cnot n a b (cnot n b a i)) = swapq a b i.
Proof.
  pose proof (pos_inj Ha Hb Hab) as Hp.
  apply N.bits_inj; intro p.
  rewrite testbit_swapq, !testbit_cnot.
  destruct (N.eqb_spec (pos n a) p) as [Ea|Ea];
    destruct (N.eqb_spec (pos n b) p) as [Eb|Eb]; try congruence;
    rewrite ?testbit_cnot;
    repeat match goal with
           | |- context [N.eqb ?x ?x] => rewrite (N.eqb_refl x)
           | H : ?x <> ?y |- context [N.eqb ?x ?y] =>
               rewrite (proj2 (N.eqb_neq x y) H)
           | H : ?y <> ?x |- context [N.eqb ?x ?y] =>
               rewrite (proj2 (N.eqb_neq x y) (not_eq_sym H))
           end;
    try reflexivity.
  - destruct (N.testbit i (pos n a)), (N.testbit i (pos n b)); reflexivity.
  - destruct (N.testbit i (pos n a)), (N.testbit i (pos n b)); reflexivity.
Qed.

Lemma qbit_swapq_l (i : N) : qbit n a (swapq a b i) = qbit n b i.
Proof. unfold swapq. apply qbit_qset_same. Qed.

Lemma qbit_swapq_r (i : N) : qbit n b (swapq a b i) = qbit n a i.
Proof.
  unfold swapq. rewrite qbit_qset_other by auto. apply qbit_qset_same.
Qed.

Lemma qbit_swapq_other (q : nat) (i : N) :
  q < n -> q <> a -> q <> b -> qbit n q (swapq a b i) = qbit n q i.
Proof.
  intros Hq Hqa Hqb. unfold swapq. now rewrite !qbit_qset_other by auto.
Qed.

Lemma swapq_invol (i : N) : swapq a b (swapq a b i) = i.
Proof.
  pose proof (pos_inj Ha Hb Hab) as Hp.
  apply N.bits_inj; intro p. rewrite !testbit_swapq.
  destruct (N.eqb_spec (pos n a) p) as [Ea|Ea];
    destruct (N.eqb_spec (pos n b) p) as [Eb|Eb]; try congruence;
    repeat match goal with
           | |- context [N.eqb ?x ?x] => rewrite (N.eqb_refl x)
           | H : ?x <> ?y |- context [N.eqb ?x ?y] =>
               rewrite (proj2 (N.eqb_neq x y) H)
           | H : ?y <> ?x |- context [N.eqb ?x ?y] =>
               rewrite (proj2 (N.eqb_neq x y) (not_eq_sym H))
           end; congruence.
Qed.

End Two.

End Relabel.

(* ------------------------------------------------------------------ *)
(** ** The remaining gate methods of [qc] *)

(** [qc.cx0]: a NOT on [idx1] bracketed by X gates on the control
    [idx0]. *)
Definition cx0 (idx0 : nat) (idx1 : Idx) : M unit :=
  let xgate := PauliX in
  apply1 xgate (IInt idx0) (Some "x"%string) None ;;
  applyc PauliX (CInt idx0) idx1 (Some "cx"%string) None ;;
  apply1 xgate (IInt idx0) (Some "x"%string) None.

Definition set_sub_circuits (k : nat) (s : qc) : qc :=
  mkQc (name s) (psi s) (ir s) (eager s) (build_ir s) (global_reg s) k.

Section MoreBuilder.

Variable sqrtm : Mat2 -> Mat2.
Variable FLAGS : option string.

(** [qc.ccu1]: [ccu] of the phase gate, with the default description
    (the empty string). *)
Definition ccu1 (idx0 idx1 : Ctl) (tgt : nat) (value : R) : M unit :=
  ccu sqrtm idx0 idx1 tgt (U1 value) (Some EmptyString).

(** [qc.cswap]. *)
Definition cswap (ctl : Ctl) (idx0 idx1 : nat) : M unit :=
  scope ("cswap(" ++ str_ctl ctl ++ ", " ++ str_nat idx0 ++ ", "
         ++ str_nat idx1 ++ ")")%string
    (cx (CInt idx1) (IInt idx0) ;;
     ccx sqrtm ctl (CInt idx0) idx1 ;;
     cx (CInt idx1) (IInt idx0)).

(** [qc.sub]: a new circuit that is not eager, named after the running
    count of sub-circuits; the count is then increased. *)
Definition sub (nm : string) : M qc :=
  k <- get sub_circuits ;;
  let sub := init FLAGS (Some ("inner_" ++ str_nat k ++ nm)%string) false in
  modify (set_sub_circuits (k + 1)) ;;
  ret sub.

End MoreBuilder.

(** *** What the methods emit *)

Definition cx_node (c t : nat) : Node :=
  Controlled (Some "cx"%string) c t PauliX None.

Definition x_node (q : nat) : Node := Single (Some "x"%string) q PauliX None.

Definition swap_nodes (a b : nat) : list Node :=
  [cx_node b a; cx_node a b; cx_node b a].

Lemma emits_cx (c t : nat) : emits (cx (CInt c) (IInt t)) tt [cx_node c t].
Proof. unfold cx, add_ctl. apply (emits_applyc _ PauliX (CInt c) t). Qed.

Lemma emits_swap (a b : nat) : emits (swap a b) tt (swap_nodes a b).
Proof.
  unfold swap, swap_nodes. apply emits_scope.
  eapply emits_eq.
  - eapply emits_bind; [apply emits_cx|].
    eapply emits_bind; [apply emits_cx|apply emits_cx].
  - reflexivity.
Qed.

Lemma emits_cx0 (p : bool) (c t : nat) :
  emitsp p (cx0 c (IInt t)) tt [x_node c; cx_node c t; x_node c].
Proof.
  unfold cx0. eapply emits_eq.
  - eapply emits_bind; [apply emits_apply1|].
    eapply emits_bind; [apply (emits_applyc p PauliX (CInt c) t)|].
    apply emits_apply1.
  - reflexivity.
Qed.

Lemma emits_cswap (sqrtm : Mat2 -> Mat2) (ctl : Ctl) (a b : nat) :
  emits (cswap sqrtm ctl a b) tt
    ([cx_node b a] ++ ccu_nodes sqrtm ctl (CInt a) b PauliX ++ [cx_node b a]).
Proof.
  unfold cswap. apply emits_scope.
  eapply emits_bind; [apply emits_cx|].
  eapply emits_bind; [apply emits_ccu|apply emits_cx].
Qed.

(** *** What the emitted gates do *)

Section MoreSem.

Local Open Scope C_scope.

Variable n : nat.

Lemma replay_cx (c t : nat) (f : N -> C) :
  replay n [cx_node c t] f = perm_gate (cnot n c t) f.
Proof. cbn. apply CX_perm. Qed.

Lemma replay_x (q : nat) (f : N -> C) :
  replay n [x_node q] f = perm_gate (flipq n q) f.
Proof. cbn. apply X_perm. Qed.

Lemma swap_nodes_sem (a b : nat) (f : N -> C) :
  a < n -> b < n -> a <> b ->
  replay n (swap_nodes a b) f = perm_gate (swapq n a b) f.
Proof.
  intros Ha Hb Hab. unfold swap_nodes, replay.
  cbn [fold_left node_sem cx_node mat]. rewrite !CX_perm.
  apply functional_extensionality; intro i. unfold perm_gate.
  now rewrite cnot3_swapq.
Qed.

(** Basis index after a NOT on [t] controlled on [c] being 0. *)
Definition cnot0 (c t : nat) (i : N) : N :=
  if qbit n c i then i else flipq n t i.

Lemma cx0_nodes_sem (c t : nat) (f : N -> C) :
  c < n -> t < n -> c <> t ->
  replay n [x_node c; cx_node c t; x_node c] f = perm_gate (cnot0 c t) f.
Proof.
  intros Hc Ht Hct. unfold replay.
  cbn [fold_left node_sem cx_node x_node mat]. rewrite !X_perm, CX_perm.
  apply functional_extensionality; intro i. unfold perm_gate. f_equal.
  unfold cnot0, cnot. rewrite qbit_flipq_same.
  destruct (qbit n c i); cbn [negb].
  - now apply flipq_invol.
  - rewrite flipq_comm. now rewrite flipq_invol.
Qed.

End MoreSem.

(* ------------------------------------------------------------------ *)
(** ** Reversing a register: the gates of [flip] *)

(** The pairs of qubits that [flip] exchanges, in the order of its
    loop. *)
Definition flip_pairs (reg : list nat) : list (nat * nat) :=
  map (fun i => (reg_at reg i, reg_at reg (List.length reg - 1 - i)))
      (seq 0 (List.length reg / 2)).

Definition flip_nodes (reg : list nat) : list Node :=
  flat_map (fun p => swap_nodes (fst p) (snd p)) (flip_pairs reg).

Lemma emits_flip (reg : list nat) : emits (flip reg) tt (flip_nodes reg).
Proof.
  unfold flip, flip_nodes, flip_pairs. rewrite flat_map_map_comp.
  apply emits_for_each. intros i _. apply emits_swap.
Qed.

Lemma emits_qft_swaps (reg : list nat) :
  emits (qft reg true) tt (qft_nodes reg ++ flip_nodes reg).
Proof.
  unfold qft, qft_nodes. cbn [when].
  eapply emits_bind; [|apply emits_flip].
  eapply emits_eq.
  - apply emits_for_each. intros i _.
    eapply emits_bind; [apply emits_h|].
    apply emits_for_each. intros j _. apply emits_cu1.
  - apply flat_map_ext. intro i. cbn [app].
    f_equal; try apply flat_map_single.
Qed.

Lemma emits_inverse_qft_swaps (reg : list nat) :
  emits (inverse_qft reg true) tt (flip_nodes reg ++ inverse_qft_nodes reg).
Proof.
  unfold inverse_qft. cbn [when].
  eapply emits_bind; [apply emits_flip|].
  unfold inverse_qft_nodes.
  apply emits_for_each. intros [idx r] _.
  change (h_node r :: ?l) with ([h_node r] ++ l).
  eapply emits_bind; [apply emits_h|].
  destruct (negb (idx =? List.length reg - 1)); cbn [when].
  - unfold iqft_block. rewrite <- flat_map_single.
    apply emits_for_each. intros y _. apply emits_cu1.
  - apply emits_ret.
Qed.

Section Flip.

Local Open Scope C_scope.

Variable n : nat.

(** Basis index after the exchanges of [ps], as a replay of the swaps
    reads it. *)
Definition swaps_idx (ps : list (nat * nat)) (i : N) : N :=
  fold_right (fun p x => swapq n (fst p) (snd p) x) i ps.

(** Basis index that [flip] reads for basis index [i]. *)
Definition flip_idx (reg : list nat) (i : N) : N :=
  swaps_idx (flip_pairs reg) i.

(** The two qubits of a pair are different qubits of the state. *)
Definition pair_wf (p : nat * nat) : Prop :=
  fst p < n /\ snd p < n /\ fst p <> snd p.

(** Two pairs share no qubit. *)
Definition pair_disj (p q : nat * nat) : Prop :=
  fst p <> fst q /\ fst p <> snd q /\ snd p <> fst q /\ snd p <> snd q.

Lemma swaps_nodes_sem (ps : list (nat * nat)) (f : N -> C) :
  Forall pair_wf ps ->
  replay n (flat_map (fun p => swap_nodes (fst p) (snd p)) ps) f
  = perm_gate (swaps_idx ps) f.
Proof.
  intro Hwf. revert f. induction ps as [|[a b] ps IH]; intro f.
  - reflexivity.
  - inversion Hwf as [|? ? (Ha & Hb & Hab) Hwf']; subst. cbn [fst snd] in *.
    cbn [flat_map fst snd]. rewrite replay_app, swap_nodes_sem by assumption.
    rewrite IH by assumption. reflexivity.
Qed.

Lemma swapq_comm (a b c d : nat) (i : N) :
  pair_wf (a, b) -> pair_wf (c, d) -> pair_disj (a, b) (c, d) ->
  swapq n a b (swapq n c d i) = swapq n c d (swapq n a b i).
Proof.
  intros (Ha & Hb & Hab) (Hc & Hd & Hcd) (Hac & Had & Hbc & Hbd).
  cbn [fst snd] in *.
  pose proof (pos_inj Ha Hb Hab). pose proof (pos_inj Hc Hd Hcd).
  pose proof (pos_inj Ha Hc Hac). pose proof (pos_inj Ha Hd Had).
  pose proof (pos_inj Hb Hc Hbc). pose proof (pos_inj Hb Hd Hbd).
  apply N.bits_inj; intro p. rewrite !testbit_swapq.
  destruct (N.eqb_spec (pos n a) p); destruct (N.eqb_spec (pos n b) p);
    destruct (N.eqb_spec (pos n c) p); destruct (N.eqb_spec (pos n d) p);
    try congruence;
    repeat match goal with
           | |- context [N.eqb ?x ?x] => rewrite (N.eqb_refl x)
           | H : ?x <> ?y |- context [N.eqb ?x ?y] =>
               rewrite (proj2 (N.eqb_neq x y) H)
           | H : ?y <> ?x |- context [N.eqb ?x ?y] =>
               rewrite (proj2 (N.eqb_neq x y) (not_eq_sym H))
           end; reflexivity.
Qed.

Lemma swaps_idx_comm (a b : nat) (ps : list (nat * nat)) (i : N) :
  pair_wf (a, b) -> Forall pair_wf ps -> Forall (pair_disj (a, b)) ps ->
  swapq n a b (swaps_idx ps i) = swaps_idx ps (swapq n a b i).
Proof.
  intros Hab Hwf Hd. induction ps as [|[c d] ps IH]; [reflexivity|].
  inversion Hwf; inversion Hd; subst. cbn [swaps_idx fold_right fst snd].
  fold (swaps_idx ps i). fold (swaps_idx ps (swapq n a b i)).
  rewrite swapq_comm by assumption. now rewrite IH.
Qed.

(** Exchanging along disjoint pairs twice gives back the basis index. *)
Lemma swaps_idx_invol (ps : list (nat * nat)) (i : N) :
  Forall pair_wf ps -> ForallOrdPairs pair_disj ps ->
  swaps_idx ps (swaps_idx ps i) = i.
Proof.
  intros Hwf Hd. revert i. induction ps as [|[a b] ps IH]; intro i.
  - reflexivity.
  - inversion Hwf as [|? ? Hab Hwf']; inversion Hd as [|? ? Hd1 Hd2]; subst.
    cbn [swaps_idx fold_right fst snd]. fold (swaps_idx ps i).
    fold (swaps_idx ps (swapq n a b (swaps_idx ps i))).
    rewrite <- swaps_idx_comm by assumption.
    destruct Hab as (Ha & Hb & Hne). cbn [fst snd] in *.
    rewrite swapq_invol by assumption. now apply IH.
Qed.

Lemma qbit_swaps_other (ps : list (nat * nat)) (q : nat) (i : N) :
  Forall pair_wf ps -> q < n ->
  Forall (fun p => q <> fst p /\ q <> snd p) ps ->
  qbit n q (swaps_idx ps i) = qbit n q i.
Proof.
  intros Hwf Hq Hne. induction ps as [|[a b] ps IH]; [reflexivity|].
  inversion Hwf as [|? ? (Ha & Hb & Hab) Hwf'];
    inversion Hne as [|? ? (H1 & H2) Hne']; subst. cbn [fst snd] in *.
  cbn [swaps_idx fold_right fst snd]. fold (swaps_idx ps i).
  rewrite qbit_swapq_other by assumption. now apply IH.
Qed.

Lemma qbit_swaps_pair (ps : list (nat * nat)) (a b : nat) (i : N) :
  Forall pair_wf ps -> ForallOrdPairs pair_disj ps -> In (a, b) ps ->
  qbit n a (swaps_idx ps i) = qbit n b i
  /\ qbit n b (swaps_idx ps i) = qbit n a i.
Proof.
  intros Hwf Hd Hin. induction ps as [|[c d] ps IH]; [destruct Hin|].
  inversion Hwf as [|? ? Hcd Hwf']; inversion Hd as [|? ? Hd1 Hd2]; subst.
  cbn [swaps_idx fold_right fst snd]. fold (swaps_idx ps i).
  destruct Hin as [E|Hin].
  - injection E as -> ->. destruct Hcd as (Ha & Hb & Hab). cbn [fst snd] in *.
    rewrite qbit_swapq_l, qbit_swapq_r by assumption.
    split; apply qbit_swaps_other; try assumption.
    + eapply Forall_impl; [|exact Hd1]. intros [x y] (H1 & H2 & H3 & H4).
      cbn [fst snd] in *. auto.
    + eapply Forall_impl; [|exact Hd1]. intros [x y] (H1 & H2 & H3 & H4).
      cbn [fst snd] in *. auto.
  - rewrite Forall_forall in Hd1. specialize (Hd1 _ Hin).
    destruct Hd1 as (H1 & H2 & H3 & H4). cbn [fst snd] in *.
    rewrite Forall_forall in Hwf'. destruct (Hwf' _ Hin) as (Ha & Hb & Hab).
    cbn [fst snd] in *. destruct Hcd as (Hc & Hd0 & Hcd). cbn [fst snd] in *.
    rewrite !qbit_swapq_other by auto.
    apply IH; try assumption. now apply Forall_forall.
Qed.

End Flip.

Lemma ForallOrdPairs_map {A B : Type} (R : B -> B -> Prop) (g : A -> B)
  (l : list A) :
  NoDup l -> (forall x y, In x l -> In y l -> x <> y -> R (g x) (g y)) ->
  ForallOrdPairs R (map g l).
Proof.
  induction l as [|a l IH]; intros Hnd H; cbn [map]; constructor.
  - inversion Hnd as [|? ? Hni Hnd']; subst. apply Forall_forall.
    intros y Hy. apply in_map_iff in Hy as (x & <- & Hx).
    apply H; [now left|now right|]. intros ->. contradiction.
  - inversion Hnd; subst. apply IH; [assumption|].
    intros x y Hx Hy. apply H; now right.
Qed.

Section FlipReg.

Variable n : nat.
Variable reg : list nat.
Hypothesis Hnd : NoDup reg.
Hypothesis Hreg : Forall (fun q => q < n) reg.

Lemma reg_at_lt (i : nat) : i < List.length reg -> reg_at reg i < n.
Proof.
  intro Hi. unfold reg_at.
  now apply (proj1 (Forall_nth (fun q => q < n) reg) Hreg).
Qed.

Lemma reg_at_inj (i j : nat) :
  i < List.length reg -> j < List.length reg ->
  reg_at reg i = reg_at reg j -> i = j.
Proof. intros Hi Hj E. exact (proj1 (NoDup_nth reg 0) Hnd i j Hi Hj E). Qed.

Lemma half_lt (i : nat) :
  i < List.length reg / 2 -> i < List.length reg - 1 - i.
Proof.
  intro Hi.
  pose proof (Nat.div_mod_eq (List.length reg) 2) as E.
  pose proof (Nat.mod_upper_bound (List.length reg) 2 ltac:(discriminate)).
  lia.
Qed.

Lemma flip_pairs_wf : Forall (pair_wf n) (flip_pairs reg).
Proof.
  unfold flip_pairs. apply Forall_forall. intros p Hp.
  apply in_map_iff in Hp as (i & <- & Hi). apply in_seq in Hi.
  assert (Hh := @half_lt i ltac:(lia)).
  unfold pair_wf; cbn [fst snd]. repeat split.
  - apply reg_at_lt. lia.
  - apply reg_at_lt. lia.
  - intro E. apply reg_at_inj in E; lia.
Qed.

Lemma flip_pairs_disj : ForallOrdPairs pair_disj (flip_pairs reg).
Proof.
  unfold flip_pairs. apply ForallOrdPairs_map; [apply seq_NoDup|].
  intros i j Hi Hj Hij. apply in_seq in Hi, Hj.
  assert (Hhi := @half_lt i ltac:(lia)). assert (Hhj := @half_lt j ltac:(lia)).
  unfold pair_disj; cbn [fst snd].
  repeat split; intro E; apply reg_at_inj in E; lia.
Qed.

Lemma flip_nodes_sem (f : N -> C) :
  replay n (flip_nodes reg) f = perm_gate (flip_idx n reg) f.
Proof. apply swaps_nodes_sem. apply flip_pairs_wf. Qed.

Lemma flip_idx_invol (i : N) : flip_idx n reg (flip_idx n reg i) = i.
Proof.
  apply swaps_idx_invol; [apply flip_pairs_wf|apply flip_pairs_disj].
Qed.

(** Two runs of the gates of [flip] leave every amplitude vector as it
    was. *)
Lemma flip_flip_nodes (f : N -> C) :
  replay n (flip_nodes reg ++ flip_nodes reg) f = f.
Proof.
  rewrite replay_app, !flip_nodes_sem.
  apply functional_extensionality; intro i. unfold perm_gate.
  now rewrite flip_idx_invol.
Qed.

(** The relabelling of [flip] reverses the register. *)
Lemma flip_idx_reverses (p : nat) (i : N) :
  p < List.length reg ->
  qbit n (reg_at reg p) (flip_idx n reg i)
  = qbit n (reg_at reg (List.length reg - 1 - p)) i.
Proof.
  intro Hp.
  pose proof (Nat.div_mod_eq (List.length reg) 2) as E.
  pose proof (Nat.mod_upper_bound (List.length reg) 2 ltac:(discriminate))
    as Hm.
  destruct (Nat.lt_ge_cases p (List.length reg / 2)) as [Hlo|Hhi].
  - (* the first qubit of its pair *)
    apply (@qbit_swaps_pair n (flip_pairs reg) (reg_at reg p)
             (reg_at reg (List.length reg - 1 - p)) i flip_pairs_wf
             flip_pairs_disj).
    unfold flip_pairs. apply in_map_iff. exists p. split; [reflexivity|].
    apply in_seq. lia.
  - destruct (Nat.lt_ge_cases (List.length reg - 1 - p)
                (List.length reg / 2)) as [Hlo'|Hhi'].
    + (* the second qubit of its pair *)
      apply (@qbit_swaps_pair n (flip_pairs reg)
               (reg_at reg (List.length reg - 1 - p)) (reg_at reg p) i
               flip_pairs_wf flip_pairs_disj).
      unfold flip_pairs. apply in_map_iff.
      exists (List.length reg - 1 - p). split.
      * f_equal. f_equal. lia.
      * apply in_seq. lia.
    + (* the middle qubit of a register of odd length *)
      replace (List.length reg - 1 - p) with p by lia.
      apply qbit_swaps_other; [apply flip_pairs_wf|now apply reg_at_lt|].
      unfold flip_pairs. apply Forall_forall. intros pr Hpr.
      apply in_map_iff in Hpr as (j & <- & Hj). apply in_seq in Hj.
      cbn [fst snd]. split; intro Eq; apply reg_at_inj in Eq; lia.
Qed.

(** Qubits outside the register are left alone. *)
Lemma flip_idx_outside (q : nat) (i : N) :
  q < n -> ~ In q reg -> qbit n q (flip_idx n reg i) = qbit n q i.
Proof.
  intros Hq Hni.
  pose proof (Nat.div_mod_eq (List.length reg) 2) as E.
  pose proof (Nat.mod_upper_bound (List.length reg) 2 ltac:(discriminate))
    as Hm.
  apply qbit_swaps_other; [apply flip_pairs_wf|assumption|].
  unfold flip_pairs. apply Forall_forall. intros pr Hpr.
  apply in_map_iff in Hpr as (j & <- & Hj). apply in_seq in Hj.
  cbn [fst snd]. unfold reg_at.
  split; intros ->; apply Hni; apply nth_In; lia.
Qed.

Lemma flip_nodes_ok : forallb (node_ok n) (flip_nodes reg) = true.
Proof.
  unfold flip_nodes. apply node_ok_flat_map. intros [a b] Hin.
  pose proof flip_pairs_wf as Hwf. rewrite Forall_forall in Hwf.
  destruct (Hwf _ Hin) as (Ha & Hb & _). cbn [fst snd] in *.
  apply Nat.ltb_lt in Ha, Hb. cbn. now rewrite Ha, Hb.
Qed.

End FlipReg.

(* ------------------------------------------------------------------ *)
(** ** Controlled swap and doubly-controlled phase *)

Section CtlSwap.

Local Open Scope C_scope.

Variable n : nat.

Lemma fires_cnot_other (d : Ctl) (c t : nat) (i : N) :
  ctl_qubit d < n -> t < n -> ctl_qubit d <> t ->
  fires n d (cnot n c t i) = fires n d i.
Proof.
  intros Hd Ht Hne. unfold cnot. destruct (qbit n c i); [|reflexivity].
  now apply fires_flipq_other.
Qed.

(** Basis index after a swap of [a] and [b] controlled by [ctl]. *)
Definition cswap_idx (ctl : Ctl) (a b : nat) (i : N) : N :=
  if fires n ctl i then swapq n a b i else i.

Variable sqrtm : Mat2 -> Mat2.
Hypothesis HrootX :
  mmul (sqrtm (mat PauliX)) (sqrtm (mat PauliX)) = mat PauliX.

Lemma cswap_nodes_sem (ctl : Ctl) (a b : nat) (f : N -> C) :
  ctl_qubit ctl < n -> a < n -> b < n ->
  ctl_qubit ctl <> a -> ctl_qubit ctl <> b -> a <> b ->
  replay n ([cx_node b a] ++ ccu_nodes sqrtm ctl (CInt a) b PauliX
            ++ [cx_node b a]) f
  = perm_gate (cswap_idx ctl a b) f.
Proof.
  intros Hc Ha Hb Hca Hcb Hab.
  rewrite !replay_app, !replay_cx.
  rewrite (@ccu_nodes_sem n sqrtm ctl (CInt a) b PauliX) by
    (cbn [ctl_qubit _ctl_by_0 fst]; auto using sqrt_x_unitary).
  apply functional_extensionality; intro i. unfold perm_gate at 1 2.
  rewrite dep1_X_toffoli. unfold perm_gate, cswap_idx. f_equal.
  unfold toffoli_idx. rewrite fires_cnot_other by auto.
  destruct (fires n ctl i); cbn [andb fires].
  - rewrite <- (@cnot3_swapq n a b Ha Hb Hab i).
    reflexivity.
  - apply cnot_invol; auto.
Qed.

(** The phase gate on target [t]. *)
Lemma u1_diag (theta : R) (t : nat) (f : N -> C) (i : N) :
  k_apply1 (mat (U1 theta)) n t f i
  = (if qbit n t i then cis theta else cone) * f i.
Proof.
  unfold k_apply1. destruct (qbit n t i) eqn:E;
    cbn [U1 mat ment m00 m01 m10 m11];
    rewrite (@qset_id' n t _ i E); ring.
Qed.

End CtlSwap.

(** *** Phase gates and their roots *)

Lemma cis_add (a b : R) : cis (a + b) = cmul (cis a) (cis b).
Proof.
  unfold cis, cmul, re, im; cbn. rewrite cos_plus, sin_plus.
  f_equal; ring.
Qed.

Lemma cis_0 : cis 0 = cone.
Proof. unfold cis, cone. now rewrite cos_0, sin_0. Qed.

Lemma U1_half_square (theta : R) :
  mmul (mat (U1 (theta / 2))) (mat (U1 (theta / 2))) = mat (U1 theta).
Proof.
  unfold mmul, U1; cbn [mat m00 m01 m10 m11].
  replace (cis theta) with (cmul (cis (theta / 2)) (cis (theta / 2))).
  - f_equal; ring.
  - rewrite <- cis_add. f_equal. lra.
Qed.

Lemma U1_unitary (theta : R) : unitary (mat (U1 theta)).
Proof.
  assert (E : cmul (conj (cis theta)) (cis theta) = cone).
  { unfold conj, cis, cmul, cone, re, im; cbn. apply c_eq; cbn.
    - generalize (sin2_cos2 theta). unfold Rsqr. lra.
    - ring. }
  assert (E' : cmul (cis theta) (conj (cis theta)) = cone).
  { rewrite <- E. ring. }
  unfold unitary, mmul, madj, mid, U1; cbn [mat m00 m01 m10 m11].
  replace (conj cone) with cone by (unfold conj, cone; cbn; f_equal; lra).
  replace (conj czero) with czero by (unfold conj, czero; cbn; f_equal; lra).
  split; f_equal; try ring.
  - transitivity (cmul (conj (cis theta)) (cis theta)); [ring|exact E].
  - transitivity (cmul (cis theta) (conj (cis theta))); [ring|exact E'].
Qed.

(* ------------------------------------------------------------------ *)
(** ** Names of sub-circuits *)

Lemma str_length_app (s t : string) :
  String.length (s ++ t) = String.length s + String.length t.
Proof. induction s as [|c s IH]; cbn; [reflexivity|now rewrite IH]. Qed.

Lemma str_app_inv_tail (s1 s2 t : string) :
  (s1 ++ t = s2 ++ t)%string -> s1 = s2.
Proof.
  revert s2. induction s1 as [|c s1 IH]; intros [|d s2] E; cbn in E.
  - reflexivity.
  - apply (f_equal String.length) in E. cbn in E.
    rewrite str_length_app in E. lia.
  - apply (f_equal String.length) in E. cbn in E.
    rewrite str_length_app in E. lia.
  - injection E as -> E. f_equal. now apply IH.
Qed.

Lemma str_nat_inj (a b : nat) : str_nat a = str_nat b -> a = b.
Proof.
  unfold str_nat. intro E.
  apply (f_equal NilEmpty.uint_of_string) in E.
  rewrite !NilEmpty.usu in E. injection E as E.
  apply (f_equal Nat.of_uint) in E. now rewrite !Unsigned.of_to in E.
Qed.

(* ------------------------------------------------------------------ *)
(** ** Gate calls over a list of indices *)

Lemma for_each_app {A : Type} (l1 l2 : list A) (body : A -> M unit)
  (s : qc) :
  for_each (l1 ++ l2) body s
  = bind (for_each l1 body) (fun _ => for_each l2 body) s.
Proof.
  revert s. induction l1 as [|a l1 IH]; intro s; cbn [app for_each].
  - reflexivity.
  - unfold bind. destruct (body a s) as [u s1|e s1]; [|reflexivity].
    rewrite IH. reflexivity.
Qed.

Lemma emits_apply1_idx (p : bool) (gate : Operator) (nm : option string)
  (val : option R) (i : nat) :
  emitsp p (apply1_idx gate nm val i) tt [Single nm i gate val].
Proof.
  eapply emits_ext; [|apply (emits_apply1 p gate i nm val)].
  intro s. unfold apply1. cbn [indices_of for_each]. unfold bind, ret.
  destruct (apply1_idx gate nm val i s) as [[] s1|e s1]; reflexivity.
Qed.

Lemma emits_apply1_list (p : bool) (gate : Operator) (nm : option string)
  (val : option R) (l : list nat) :
  emitsp p (for_each l (apply1_idx gate nm val)) tt
    (map (fun i => Single nm i gate val) l).
Proof.
  rewrite <- flat_map_single. apply emits_for_each.
  intros i _. apply emits_apply1_idx.
Qed.

(* ------------------------------------------------------------------ *)
(** ** What a controlled circuit does *)

(** The node does not touch qubit [q]. *)
Definition avoids (q : nat) (g : Node) : Prop :=
  match g with
  | Single _ i _ _ => i <> q
  | Controlled _ c t _ _ => c <> q /\ t <> q
  end.

(** [sqrtm] returns a unitary square root of the operator of a controlled
    node (the root that [ccu] takes when the node is promoted). *)
Definition root_ok (sqrtm : Mat2 -> Mat2) (g : Node) : Prop :=
  match g with
  | Single _ _ _ _ => True
  | Controlled _ _ _ o _ =>
      mmul (sqrtm (mat o)) (sqrtm (mat o)) = mat o
      /\ unitary (sqrtm (mat o))
  end.

Lemma control_by_lazy (sqrtm : Mat2 -> Mat2) (FLAGS : option string)
  (ctl : nat) (s : qc) :
  eager s = false ->
  control_by sqrtm FLAGS ctl s
  = Ok tt (set_ir (mkIr (flat_map (promote sqrtm ctl) (gates (ir s))) []) s).
Proof.
  intro He. unfold control_by, bind, get. rewrite He.
  cbn [negb py_assert ret].
  destruct (control_by_loop_spec sqrtm FLAGS ctl (gates (ir s)) [] Ir.empty s)
    as [r E].
  rewrite E. unfold modify. reflexivity.
Qed.

Section CtlBySem.

Local Open Scope C_scope.

Variable n : nat.
Variable ctl : nat.
Variable sqrtm : Mat2 -> Mat2.
Hypothesis Hctl : ctl < n.

Lemma promote_sem (g : Node) (f : N -> C) (x : N) :
  node_wf n g -> avoids ctl g -> root_ok sqrtm g ->
  replay n (promote sqrtm ctl g) f x
  = if qbit n ctl x then node_sem n g f x else f x.
Proof.
  destruct g as [nm i o v|nm c t o v]; cbn [node_wf avoids root_ok promote].
  - intros _ _ _. reflexivity.
  - intros (Hc & Ht & Hct) (Hcc & Htc) (Hroot & Hunit).
    rewrite (@ccu_nodes_sem n sqrtm (CInt ctl) (CInt c) t o)
      by (cbn [ctl_qubit _ctl_by_0 fst]; auto).
    unfold dep1. cbn [fires node_sem]. unfold k_applyc.
    destruct (qbit n ctl x), (qbit n c x); cbn [andb];
      try reflexivity; apply k_apply1_id.
Qed.

(** A node that avoids [ctl] maps amplitude vectors that agree on the
    basis states with a given [ctl] bit to vectors that agree there. *)
Lemma node_sem_local (g : Node) (b : bool) (f1 f2 : N -> C) :
  node_wf n g -> avoids ctl g ->
  (forall y, qbit n ctl y = b -> f1 y = f2 y) ->
  forall y, qbit n ctl y = b -> node_sem n g f1 y = node_sem n g f2 y.
Proof.
  intros Hwf Hav E y Hy.
  assert (K : forall t, t < n -> t <> ctl ->
              k_apply1 (mat (node_gate g)) n t f1 y
              = k_apply1 (mat (node_gate g)) n t f2 y).
  { intros t Ht Hne. unfold k_apply1.
    rewrite !E by (rewrite qbit_qset_other by auto; exact Hy).
    reflexivity. }
  destruct g as [nm i o v|nm c t o v]; cbn [node_wf avoids node_sem node_gate]
    in *.
  - now apply K.
  - destruct Hwf as (Hc & Ht & Hct). destruct Hav as (Hcc & Htc).
    unfold k_applyc. destruct (qbit n c y); [now apply K|now apply E].
Qed.

Lemma replay_local (gs : list Node) (b : bool) (f1 f2 : N -> C) :
  Forall (node_wf n) gs -> Forall (avoids ctl) gs ->
  (forall y, qbit n ctl y = b -> f1 y = f2 y) ->
  forall y, qbit n ctl y = b -> replay n gs f1 y = replay n gs f2 y.
Proof.
  revert f1 f2. induction gs as [|g gs IH]; intros f1 f2 Hwf Hav E.
  - exact E.
  - inversion Hwf; inversion Hav; subst. cbn [replay fold_left].
    apply IH; try assumption. now apply node_sem_local.
Qed.

(** The promoted gates act as the original gates on the basis states
    whose [ctl] bit is 1 and as the identity on the others. *)
Lemma promote_list_sem (gs : list Node) (f : N -> C) (x : N) :
  Forall (node_wf n) gs -> Forall (avoids ctl) gs ->
  Forall (root_ok sqrtm) gs ->
  replay n (flat_map (promote sqrtm ctl) gs) f x
  = if qbit n ctl x then replay n gs f x else f x.
Proof.
  revert f x. induction gs as [|g gs IH]; intros f x Hwf Hav Hroot.
  - cbn. now destruct (qbit n ctl x).
  - inversion Hwf; inversion Hav; inversion Hroot; subst.
    cbn [flat_map]. rewrite replay_app, IH by assumption.
    destruct (qbit n ctl x) eqn:Ex.
    + change (replay n (g :: gs) f x) with (replay n gs (node_sem n g f) x).
      apply replay_local with (b := true); try assumption.
      intros y Hy. rewrite promote_sem by assumption. now rewrite Hy.
    + rewrite promote_sem by assumption. now rewrite Ex.
Qed.

End CtlBySem.

(** A circuit that records: two qubits, not eager, after [h(0)] and
    [cx(0, 1)]. *)
Definition demo_bell : qc :=
  match (h (IInt 0) true ;; cx (CInt 0) (IInt 1)) (fresh false 2) with
  | Ok _ s => s
  | Err _ s => s
  end.

Lemma demo_bell_gates : gates (ir demo_bell) = [h_node 0; cx_node 0 1].
Proof. reflexivity. Qed.

(* ------------------------------------------------------------------ *)
(** ** Inverting twice *)

Lemma conj_invol (z : C) : conj (conj z) = z.
Proof. destruct z as [a b]. unfold conj; cbn. f_equal. lra. Qed.

Lemma madj_invol (m : Mat2) : madj (madj m) = m.
Proof.
  destruct m. unfold madj; cbn [m00 m01 m10 m11].
  now rewrite !conj_invol.
Qed.

Lemma is_named_inv (g : Node) : is_named (inv_node g) = is_named g.
Proof. destruct g as [[nm|] i o v|[nm|] c t o v]; reflexivity. Qed.

Lemma node_sem_inv_inv (n : nat) (g : Node) (f : N -> C) :
  node_sem n (inv_node (inv_node g)) f = node_sem n g f.
Proof.
  destruct g as [nm i o v|nm c t o v];
    cbn [inv_node node_sem adjoint mat]; now rewrite madj_invol.
Qed.

Lemma replay_inv_inv (n : nat) (gs : list Node) (f : N -> C) :
  replay n (map (fun g => inv_node (inv_node g)) gs) f = replay n gs f.
Proof.
  revert f. induction gs as [|g gs IH]; intro f; [reflexivity|].
  cbn [map replay fold_left].
  change (fold_left (fun f g => node_sem n g f) ?l ?f0) with (replay n l f0).
  now rewrite node_sem_inv_inv, IH.
Qed.

(* ------------------------------------------------------------------ *)
(** ** Diagonal gates and how they cancel *)

Definition u1_node (q : nat) (theta : R) : Node :=
  Single (Some "u1"%string) q (U1 theta) (Some theta).

Section Diagonal.

Local Open Scope C_scope.

Variable n : nat.

(** The gates [L] multiply the amplitude of basis state [i] by [d i]. *)
Definition diag_nodes (L : list Node) (d : N -> C) : Prop :=
  forall f, replay n L f = fun i => d i * f i.

Lemma diag_nil : diag_nodes [] (fun _ => cone).
Proof.
  intro f. apply functional_extensionality; intro i. cbn. ring.
Qed.

Lemma diag_app (L1 L2 : list Node) (d1 d2 : N -> C) :
  diag_nodes L1 d1 -> diag_nodes L2 d2 ->
  diag_nodes (L1 ++ L2) (fun i => d1 i * d2 i).
Proof.
  intros H1 H2 f. rewrite replay_app, H1, H2.
  apply functional_extensionality; intro i. ring.
Qed.

Lemma diag_ext (L : list Node) (d d' : N -> C) :
  diag_nodes L d -> (forall i, d i = d' i) -> diag_nodes L d'.
Proof.
  intros H E f. rewrite H. apply functional_extensionality; intro i.
  now rewrite E.
Qed.

(** Product of the factors [d a] over the [a] of [l]. *)
Definition dprod {A : Type} (d : A -> N -> C) (l : list A) (i : N) : C :=
  fold_right (fun a acc => d a i * acc) cone l.

Lemma diag_flat_map {A : Type} (g : A -> list Node) (d : A -> N -> C)
  (l : list A) :
  (forall a, In a l -> diag_nodes (g a) (d a)) ->
  diag_nodes (flat_map g l) (dprod d l).
Proof.
  induction l as [|a l IH]; intro H; cbn [flat_map].
  - apply diag_nil.
  - eapply diag_ext.
    + apply diag_app; [apply H; now left|].
      apply IH. intros b Hb. apply H. now right.
    + reflexivity.
Qed.

Lemma dprod_cancel {A : Type} (d d' : A -> N -> C) (l : list A) (i : N) :
  (forall a, In a l -> d a i * d' a i = cone) ->
  dprod d l i * dprod d' l i = cone.
Proof.
  induction l as [|a l IH]; intro H; unfold dprod; cbn [fold_right]; [ring|].
  fold (dprod d l i) (dprod d' l i).
  transitivity ((d a i * d' a i) * (dprod d l i * dprod d' l i)); [ring|].
  rewrite H by (now left). rewrite IH; [ring|].
  intros b Hb. apply H. now right.
Qed.

(** Two runs of diagonal gates whose factors are inverse to each other
    cancel. *)
Lemma diag_cancel (L1 L2 : list Node) (d1 d2 : N -> C) :
  diag_nodes L1 d1 -> diag_nodes L2 d2 ->
  (forall i, d1 i * d2 i = cone) ->
  forall f, replay n L2 (replay n L1 f) = f.
Proof.
  intros H1 H2 E f. rewrite H1, H2.
  apply functional_extensionality; intro i.
  transitivity ((d1 i * d2 i) * f i); [ring|]. rewrite E. ring.
Qed.

(** The factor of a phase gate on [t]. *)
Definition sphase (theta : R) (t : nat) (i : N) : C :=
  if qbit n t i then cis theta else cone.

(** The factor of a phase gate on [t] with controls [c1] and [c2]. *)
Definition ccph (theta : R) (c1 c2 t : nat) (i : N) : C :=
  if qbit n c1 i && qbit n c2 i && qbit n t i then cis theta else cone.

Lemma diag_u1 (t : nat) (theta : R) :
  diag_nodes [u1_node t theta] (sphase theta t).
Proof.
  intro f. apply functional_extensionality; intro i. cbn. apply u1_diag.
Qed.

Lemma diag_cu1 (c t : nat) (theta : R) :
  diag_nodes [cu1_node c t theta] (phase n theta c t).
Proof. intro f. cbn. apply cu1_diag. Qed.

Lemma cis_cancel (x y : R) : (x + y = 0)%R -> cis x * cis y = cone.
Proof. intro E. now rewrite <- cis_add, E, cis_0. Qed.

Lemma sphase_cancel (x y : R) (t : nat) (i : N) :
  (x + y = 0)%R -> sphase x t i * sphase y t i = cone.
Proof.
  intro E. unfold sphase. destruct (qbit n t i); [now apply cis_cancel|ring].
Qed.

Lemma phase_cancel2 (x y : R) (c t : nat) (i : N) :
  (x + y = 0)%R -> phase n x c t i * phase n y c t i = cone.
Proof.
  intro E. unfold phase.
  destruct (qbit n c i && qbit n t i); [now apply cis_cancel|ring].
Qed.

Lemma ccph_cancel (x y : R) (c1 c2 t : nat) (i : N) :
  (x + y = 0)%R -> ccph x c1 c2 t i * ccph y c1 c2 t i = cone.
Proof.
  intro E. unfold ccph.
  destruct (qbit n c1 i && qbit n c2 i && qbit n t i);
    [now apply cis_cancel|ring].
Qed.

(** The gates of a doubly-controlled phase built from controlled phases
    and CNOTs, as [ccphase] of the order-finding example emits them. *)
Definition ccphase_nodes (angle : R) (ctl1 ctl2 idx : nat) : list Node :=
  [cu1_node ctl1 idx (angle / 2);
   cx_node ctl2 ctl1;
   cu1_node ctl1 idx (- angle / 2);
   cx_node ctl2 ctl1;
   cu1_node ctl2 idx (angle / 2)].

Lemma diag_ccphase (angle : R) (c1 c2 t : nat) :
  c1 < n -> c2 < n -> t < n -> c1 <> c2 -> c1 <> t -> c2 <> t ->
  diag_nodes (ccphase_nodes angle c1 c2 t) (ccph angle c1 c2 t).
Proof.
  intros H1 H2 Ht H12 H1t H2t f.
  unfold ccphase_nodes, replay.
  cbn [fold_left node_sem cu1_node cx_node mat].
  rewrite !CX_perm, !cu1_diag.
  apply functional_extensionality; intro i. unfold perm_gate.
  rewrite (@cnot_invol n c2 c1) by auto.
  unfold phase, ccph.
  rewrite (@qbit_cnot_tgt n c2 c1 i).
  rewrite (@qbit_cnot_other n c2 c1 t) by auto.
  assert (Eh : cis (angle / 2) * cis (angle / 2) = cis angle).
  { rewrite <- cis_add. f_equal. lra. }
  assert (Ec : cis (angle / 2) * cis (- angle / 2) = cone).
  { apply cis_cancel. lra. }
  destruct (qbit n c1 i), (qbit n c2 i), (qbit n t i); cbn [andb xorb].
  - transitivity ((cis (angle / 2) * cis (angle / 2)) * f i); [ring|].
    now rewrite Eh.
  - ring.
  - transitivity ((cis (angle / 2) * cis (- angle / 2)) * f i); [ring|].
    rewrite Ec. ring.
  - ring.
  - transitivity ((cis (angle / 2) * cis (- angle / 2)) * f i); [ring|].
    rewrite Ec. ring.
  - ring.
  - ring.
  - ring.
Qed.

End Diagonal.

(** ** Inverse QFT followed by QFT *)

Section IqftQft.

Variable n : nat.
Variable reg : list nat.

Lemma iqft_qft_block (m : nat) (f : N -> C) :
  replay n (qft_block reg m) (replay n (iqft_block reg m) f) = f.
Proof.
  unfold iqft_block, qft_block.
  apply (@diag_cancel n _ _
           (dprod (fun y => phase n (- PI / 2 ^ (m - y)) (reg_at reg m)
                              (reg_at reg y)) (rev (seq 0 m)))
           (dprod (fun y => phase n (PI / 2 ^ (m - y)) (reg_at reg m)
                              (reg_at reg y)) (rev (seq 0 m)))).
  - rewrite <- flat_map_single. apply diag_flat_map.
    intros y _. apply diag_cu1.
  - rewrite <- flat_map_single. apply diag_flat_map.
    intros y _. apply diag_cu1.
  - intro i. apply dprod_cancel. intros y _. apply phase_cancel2.
    unfold Rdiv. ring.
Qed.

Lemma iqft_qft_upto (m : nat) (f : N -> C) :
  replay n (iqft_upto reg m ++ qft_upto reg m) f = f.
Proof.
  revert f. induction m as [|m IH]; intro f; [reflexivity|].
  unfold qft_upto, iqft_upto.
  rewrite !seq_S, rev_app_distr, !flat_map_app.
  cbn [rev app flat_map Nat.add].
  fold (qft_upto reg m) (iqft_upto reg m).
  rewrite !app_nil_r, <- !app_assoc. cbn [app].
  rewrite !replay_app.
  change (replay n (h_node (reg_at reg m) :: h_node (reg_at reg m) :: ?l) ?g)
    with (replay n l
            (k_apply1 (mat Hadamard) n (reg_at reg m)
               (k_apply1 (mat Hadamard) n (reg_at reg m) g))).
  rewrite hh_id, replay_app, iqft_qft_block, <- replay_app. apply IH.
Qed.

(** The gates of [inverse_qft] followed by those of [qft] leave every
    amplitude vector as it was. *)
Lemma iqft_qft_nodes (f : N -> C) :
  replay n (inverse_qft_nodes reg ++ qft_nodes reg) f = f.
Proof. rewrite inverse_qft_nodes_upto. apply iqft_qft_upto. Qed.

End IqftQft.

(** ** Loops that agree body by body *)

Lemma for_each_ext_in {A : Type} (l : list A) (f g : A -> M unit) :
  (forall a, In a l -> forall s, f a s = g a s) ->
  forall s, for_each l f s = for_each l g s.
Proof.
  induction l as [|a l IH]; intros H s; cbn [for_each]; [reflexivity|].
  unfold bind. rewrite (H a (or_introl eq_refl)).
  destruct (g a s) as [u s1|e s1]; [|reflexivity].
  apply IH. intros b Hb. apply H. now right.
Qed.

Lemma for_each_map {A B : Type} (g : A -> B) (l : list A) (f : B -> M unit)
  (s : qc) :
  for_each (map g l) f s = for_each l (fun a => f (g a)) s.
Proof.
  revert s. induction l as [|a l IH]; intro s; cbn [map for_each];
    [reflexivity|].
  unfold bind. destruct (f (g a) s) as [u s1|e s1]; [|reflexivity].
  apply IH.
Qed.

Lemma bind_ext {A B : Type} (m m' : M A) (k k' : A -> M B) (s : qc) :
  m s = m' s -> (forall a s', k a s' = k' a s') ->
  bind m k s = bind m' k' s.
Proof.
  intros E H. unfold bind. rewrite E.
  destruct (m' s); [apply H|reflexivity].
Qed.

Lemma bind_ext_r {A B : Type} (m : M A) (k k' : A -> M B) (s : qc) :
  (forall a s', k a s' = k' a s') -> bind m k s = bind m k' s.
Proof. intro H. unfold bind. destruct (m s); [apply H|reflexivity]. Qed.

(* ------------------------------------------------------------------ *)
(** * Order finding ([src/order_finding.py]) *)

From Equations Require Import Equations.

Module OrderFinding.

Import Ascii.

(** ** Modular inverse *)

Section Numbers.

Local Open Scope Z_scope.

(** The local function [egcd] of [modular_inverse], on Python's unbounded
    integers: [%] and [//] round towards minus infinity, as [Z.modulo] and
    [Z.div] do. The recursion ends because [|b % a| < |a|]; Python's limit
    on the recursion depth is not modelled. *)
Equations? egcd (a b : Z) : Z * Z * Z by wf (Z.abs_nat a) lt :=
  egcd a b with Z.eq_dec a 0 := {
    | left _ => (b, 0, 1)
    | right _ =>
        let '(g, y, x) := egcd (b mod a) a in
        (g, x - (b / a) * y, y) }.
Proof.
  assert (H := Z.mod_bound_or b a n). lia.
Qed.

(** What [modular_inverse] raises: its own [Exception], or the
    [ZeroDivisionError] of [x % m]. *)
Inductive OfExc : Type :=
| NoModularInverse (a m : Z)
| ZeroDivisionError.

(** [modular_inverse(a, m)]. *)
Definition modular_inverse (a m : Z) : Z + OfExc :=
  let '(g, x, _) := egcd a m in
  if negb (g =? 1) then inr (NoModularInverse a m)
  else if m =? 0 then inr ZeroDivisionError
  else inl (x mod m).

(** The recursion of [egcd] as the source states it. *)
Lemma egcd_eqn (a b : Z) :
  egcd a b
  = if a =? 0 then (b, 0, 1)
    else let '(g, y, x) := egcd (b mod a) a in (g, x - (b / a) * y, y).
Proof.
  rewrite egcd_equation_1. destruct (Z.eq_dec a 0) as [->|H]; cbn.
  - reflexivity.
  - destruct (Z.eqb_spec a 0); [contradiction|]. reflexivity.
Qed.

Lemma egcd_rect (P : Z -> Z -> Prop) :
  (forall b, P 0 b) ->
  (forall a b, a <> 0 -> P (b mod a) a -> P a b) ->
  forall a b, P a b.
Proof.
  intros H0 Hs a. remember (Z.abs_nat a) as k eqn:Ek. revert a Ek.
  induction k as [k IH] using lt_wf_ind. intros a -> b.
  destruct (Z.eq_dec a 0) as [->|Hne]; [apply H0|].
  apply Hs; [exact Hne|].
  apply (IH (Z.abs_nat (b mod a))); [|reflexivity].
  assert (H := Z.mod_bound_or b a Hne). lia.
Qed.

Lemma egcd_bezout_eq (a b : Z) :
  a * snd (fst (egcd a b)) + b * snd (egcd a b) = fst (fst (egcd a b)).
Proof.
  revert a b. apply egcd_rect.
  - intro b. rewrite egcd_eqn. cbn. lia.
  - intros a b Hne IH. rewrite egcd_eqn.
    destruct (Z.eqb_spec a 0); [contradiction|].
    destruct (egcd (b mod a) a) as [[g y] x]. cbn [fst snd] in *.
    rewrite <- IH. rewrite (Z.mod_eq b a) by assumption. ring.
Qed.

(** The first component is the gcd, with the sign of [a]. *)
Lemma egcd_gcd_sgn (a b : Z) :
  a <> 0 -> fst (fst (egcd a b)) = Z.sgn a * Z.gcd a b.
Proof.
  revert a b. apply (egcd_rect (fun a b =>
    a <> 0 -> fst (fst (egcd a b)) = Z.sgn a * Z.gcd a b)).
  - intros b H. contradiction.
  - intros a b Hne IH _. rewrite egcd_eqn.
    destruct (Z.eqb_spec a 0); [contradiction|].
    destruct (Z.eq_dec (b mod a) 0) as [E0|E0].
    + rewrite E0, egcd_eqn. cbn [Z.eqb fst].
      assert (Hd : (a | b)) by (apply Z.mod_divide; assumption).
      assert (Hg : Z.gcd a b = Z.abs a).
      { rewrite <- Z.gcd_abs_l. apply Z.divide_gcd_iff; [lia|].
        now apply Z.divide_abs_l. }
      rewrite Hg. lia.
    + specialize (IH E0).
      destruct (egcd (b mod a) a) as [[g y] x]. cbn [fst] in *.
      rewrite IH, (Z.gcd_mod b a) by assumption.
      assert (H := Z.mod_bound_or b a Hne).
      f_equal. lia.
Qed.

(** For [a >= 0] and a positive modulus, the inverse is returned exactly
    when [a] and [m] are coprime. *)
Lemma modular_inverse_cases (a m : Z) :
  0 <= a -> 0 < m ->
  (Z.gcd a m = 1 -> exists r, modular_inverse a m = inl r)
  /\ (Z.gcd a m <> 1 ->
      modular_inverse a m = inr (NoModularInverse a m)).
Proof.
  intros Ha Hm.
  assert (Hg : fst (fst (egcd a m)) = Z.gcd a m).
  { destruct (Z.eq_dec a 0) as [->|Hne].
    - rewrite egcd_eqn. cbn [Z.eqb fst]. rewrite Z.gcd_0_l. lia.
    - rewrite egcd_gcd_sgn by assumption. rewrite Z.sgn_pos by lia. lia. }
  unfold modular_inverse.
  destruct (egcd a m) as [[g x] y]. cbn [fst] in Hg. subst g. split.
  - intros ->. cbn [Z.eqb negb].
    destruct (Z.eqb_spec m 0); [lia|]. eexists; reflexivity.
  - intro Hne. destruct (Z.eqb_spec (Z.gcd a m) 1); [contradiction|].
    reflexivity.
Qed.

End Numbers.

(** ** Angles of the adder in Fourier space *)

(** Binary digits of a positive number, most significant first, in front
    of [acc]. *)
Fixpoint bin_digits (p : positive) (acc : string) : string :=
  match p with
  | xH => String "1"%char acc
  | xO q => bin_digits q (String "0"%char acc)
  | xI q => bin_digits q (String "1"%char acc)
  end.

(** Python's [bin]. *)
Definition py_bin (a : Z) : string :=
  match a with
  | Z0 => "0b0"%string
  | Zpos p => ("0b" ++ bin_digits p EmptyString)%string
  | Zneg p => ("-0b" ++ bin_digits p EmptyString)%string
  end.

(** [s[k:]]. *)
Fixpoint str_from (k : nat) (s : string) : string :=
  match k, s with
  | S k', String _ t => str_from k' t
  | _, _ => s
  end.

Fixpoint str_zeros (k : nat) : string :=
  match k with
  | O => EmptyString
  | S k' => String "0"%char (str_zeros k')
  end.

(** [s.zfill(width)]: zeros are put in front, after a leading sign. *)
Definition zfill (width : nat) (s : string) : string :=
  if width <=? String.length s then s
  else match s with
       | String c t =>
           if (Ascii.eqb c "+"%char || Ascii.eqb c "-"%char)%bool
           then String c (str_zeros (width - String.length s) ++ t)
           else (str_zeros (width - String.length s) ++ s)%string
       | EmptyString => str_zeros width
       end.

(** [s[j] == '1'], for [j] inside the string. *)
Definition is_one (s : string) (j : nat) : bool :=
  match String.get j s with
  | Some c => Ascii.eqb c "1"%char
  | None => false
  end.

(** [l[k] = v] on a list of floats, for [k] inside the list. *)
Fixpoint upd (l : list R) (k : nat) (v : R) : list R :=
  match l, k with
  | [], _ => []
  | _ :: t, O => v :: t
  | a :: t, S k' => a :: upd t k' v
  end.

(** [precompute_angles(a, n)]; the floats are read as exact reals, and
    [2**(-(j-i))] as the inverse of a power of 2. The string [s] has at
    least [n] characters, so [s[j]] is inside it. *)
Definition precompute_angles (a : Z) (n : nat) : list R :=
  let s := zfill n (str_from 2 (py_bin a)) in
  fold_left
    (fun angles i =>
       let angles1 :=
         fold_left
           (fun ang j =>
              if is_one s j
              then upd ang (n - i - 1)
                     (nth (n - i - 1) ang 0 + / 2 ^ (j - i))%R
              else ang)
           (seq i (n - i)) angles in
       upd angles1 (n - i - 1) (nth (n - i - 1) angles1 0 * PI)%R)
    (seq 0 n) (repeat 0%R n).

(** *** The digits of [bin] *)

Definition bit_char (b : bool) : ascii := if b then "1"%char else "0"%char.

Lemma bin_digits_length (p : positive) (acc : string) :
  String.length (bin_digits p acc) = Pos.size_nat p + String.length acc.
Proof.
  revert acc. induction p as [q IH|q IH|]; intro acc; cbn [bin_digits Pos.size_nat].
  - rewrite IH. cbn. lia.
  - rewrite IH. cbn. lia.
  - reflexivity.
Qed.

Lemma bin_digits_head (p : positive) (acc : string) :
  exists t, bin_digits p acc = String "1"%char t.
Proof.
  revert acc. induction p as [q IH|q IH|]; intro acc; cbn [bin_digits].
  - apply IH.
  - apply IH.
  - eexists; reflexivity.
Qed.

Lemma bin_digits_get (p : positive) (acc : string) (j : nat) :
  String.get j (bin_digits p acc)
  = if j <? Pos.size_nat p
    then Some (bit_char (Z.testbit (Zpos p)
                           (Z.of_nat (Pos.size_nat p - 1 - j))))
    else String.get (j - Pos.size_nat p) acc.
Proof.
  revert acc j.
  induction p as [q IH|q IH|]; intros acc j; cbn [bin_digits Pos.size_nat].
  - rewrite IH.
    destruct (Nat.ltb_spec j (Pos.size_nat q)) as [Hlt|Hge].
    + replace (j <? S (Pos.size_nat q)) with true
        by (symmetry; apply Nat.ltb_lt; lia).
      replace (S (Pos.size_nat q) - 1 - j) with (S (Pos.size_nat q - 1 - j))
        by lia.
      rewrite Znat.Nat2Z.inj_succ, Pos2Z.inj_xI.
      now rewrite Z.testbit_odd_succ by lia.
    + destruct (Nat.eq_dec j (Pos.size_nat q)) as [->|Hne].
      * rewrite Nat.sub_diag.
        replace (Pos.size_nat q <? S (Pos.size_nat q)) with true
          by (symmetry; apply Nat.ltb_lt; lia).
        replace (S (Pos.size_nat q) - 1 - Pos.size_nat q) with 0 by lia.
        rewrite Pos2Z.inj_xI. cbn [Z.of_nat].
        now rewrite Z.testbit_odd_0.
      * replace (j <? S (Pos.size_nat q)) with false
          by (symmetry; apply Nat.ltb_ge; lia).
        replace (j - Pos.size_nat q) with (S (j - S (Pos.size_nat q))) by lia.
        reflexivity.
  - rewrite IH.
    destruct (Nat.ltb_spec j (Pos.size_nat q)) as [Hlt|Hge].
    + replace (j <? S (Pos.size_nat q)) with true
        by (symmetry; apply Nat.ltb_lt; lia).
      replace (S (Pos.size_nat q) - 1 - j) with (S (Pos.size_nat q - 1 - j))
        by lia.
      rewrite Znat.Nat2Z.inj_succ, Pos2Z.inj_xO.
      now rewrite Z.testbit_even_succ by lia.
    + destruct (Nat.eq_dec j (Pos.size_nat q)) as [->|Hne].
      * rewrite Nat.sub_diag.
        replace (Pos.size_nat q <? S (Pos.size_nat q)) with true
          by (symmetry; apply Nat.ltb_lt; lia).
        replace (S (Pos.size_nat q) - 1 - Pos.size_nat q) with 0 by lia.
        rewrite Pos2Z.inj_xO. cbn [Z.of_nat].
        now rewrite Z.testbit_even_0.
      * replace (j <? S (Pos.size_nat q)) with false
          by (symmetry; apply Nat.ltb_ge; lia).
        replace (j - Pos.size_nat q) with (S (j - S (Pos.size_nat q))) by lia.
        reflexivity.
  - destruct j as [|j]; cbn [String.get].
    + reflexivity.
    + replace (S j <? 1) with false by (symmetry; apply Nat.ltb_ge; lia).
      replace (S j - 1) with j by lia. reflexivity.
Qed.

Lemma size_nat_bound (p : positive) (n : nat) :
  (Zpos p < 2 ^ Z.of_nat n)%Z -> Pos.size_nat p <= n.
Proof.
  revert n. induction p as [q IH|q IH|]; intros [|n] H; cbn [Pos.size_nat].
  - cbn in H. lia.
  - apply le_n_S, IH. rewrite Znat.Nat2Z.inj_succ, Z.pow_succ_r in H by lia. lia.
  - cbn in H. lia.
  - apply le_n_S, IH. rewrite Znat.Nat2Z.inj_succ, Z.pow_succ_r in H by lia. lia.
  - cbn in H. lia.
  - lia.
Qed.

Lemma str_zeros_length (k : nat) : String.length (str_zeros k) = k.
Proof. induction k as [|k IH]; cbn; [reflexivity|now rewrite IH]. Qed.

Lemma get_zeros_app (k : nat) (t : string) (j : nat) :
  String.get j (str_zeros k ++ t)
  = if j <? k then Some "0"%char else String.get (j - k) t.
Proof.
  revert j. induction k as [|k IH]; intro j; cbn [str_zeros append].
  - now rewrite Nat.sub_0_r.
  - destruct j as [|j]; cbn [String.get]; [reflexivity|].
    rewrite IH. reflexivity.
Qed.

Lemma zfill_length (n : nat) (s : string) :
  n <= String.length (zfill n s).
Proof.
  unfold zfill. destruct (Nat.leb_spec n (String.length s)) as [H|H].
  - exact H.
  - destruct s as [|c t].
    + rewrite str_zeros_length. lia.
    + destruct (Ascii.eqb c "+" || Ascii.eqb c "-")%bool; cbn [String.length];
        rewrite str_length_app, str_zeros_length; cbn [String.length] in *;
        lia.
Qed.

(** The characters that [precompute_angles] reads are the binary digits
    of [a], the most significant of [n] digits first. *)
Lemma is_one_spec (a : Z) (n j : nat) :
  (0 <= a < 2 ^ Z.of_nat n)%Z -> j < n ->
  is_one (zfill n (str_from 2 (py_bin a))) j
  = Z.testbit a (Z.of_nat (n - 1 - j)).
Proof.
  intros [Ha Hlt] Hj. destruct a as [|p|p]; [| |lia].
  - (* a = 0 *)
    rewrite Z.testbit_0_l. cbn [py_bin str_from]. unfold zfill, is_one.
    cbn [String.length].
    destruct (Nat.leb_spec n 1) as [H|H].
    + replace j with 0 by lia. reflexivity.
    + cbn [Ascii.eqb Bool.eqb orb].
      change (Ascii.eqb "0" "+" || Ascii.eqb "0" "-")%bool with false.
      cbn iota. rewrite get_zeros_app.
      destruct (Nat.ltb_spec j (n - 1)); [reflexivity|].
      replace (j - (n - 1)) with 0 by lia. reflexivity.
  - (* a > 0 *)
    cbn [py_bin append str_from].
    pose proof (@size_nat_bound p n Hlt) as Hs.
    pose proof (bin_digits_length p EmptyString) as Hlen.
    cbn [String.length] in Hlen. rewrite Nat.add_0_r in Hlen.
    assert (Hhigh : forall m, Pos.size_nat p <= m ->
                      Z.testbit (Zpos p) (Z.of_nat m) = false).
    { intros m Hm.
      rewrite <- (Z.mod_small (Zpos p) (2 ^ Z.of_nat (Pos.size_nat p))).
      - apply Z.mod_pow2_bits_high. lia.
      - split; [lia|]. clear. induction p as [q IH|q IH|]; cbn [Pos.size_nat].
        + rewrite Znat.Nat2Z.inj_succ, Z.pow_succ_r by lia. lia.
        + rewrite Znat.Nat2Z.inj_succ, Z.pow_succ_r by lia. lia.
        + cbn. lia. }
    assert (Hd : forall jj,
               is_one (bin_digits p EmptyString) jj
               = if jj <? Pos.size_nat p
                 then Z.testbit (Zpos p) (Z.of_nat (Pos.size_nat p - 1 - jj))
                 else false).
    { intro jj. unfold is_one. rewrite bin_digits_get.
      destruct (jj <? Pos.size_nat p).
      - now destruct (Z.testbit _ _).
      - now destruct (jj - Pos.size_nat p). }
    unfold zfill. rewrite Hlen.
    destruct (Nat.leb_spec n (Pos.size_nat p)) as [H|H].
    + rewrite Hd. replace (j <? Pos.size_nat p) with true
        by (symmetry; apply Nat.ltb_lt; lia).
      do 2 f_equal. lia.
    + destruct (bin_digits_head p EmptyString) as [t Et].
      rewrite Et.
      change (Ascii.eqb "1" "+" || Ascii.eqb "1" "-")%bool with false.
      cbn iota. rewrite <- Et. unfold is_one. rewrite get_zeros_app.
      destruct (Nat.ltb_spec j (n - Pos.size_nat p)) as [Hlo|Hhi].
      * cbn. symmetry. apply Hhigh. lia.
      * fold (is_one (bin_digits p EmptyString) (j - (n - Pos.size_nat p))).
        rewrite Hd.
        replace (j - (n - Pos.size_nat p) <? Pos.size_nat p) with true
          by (symmetry; apply Nat.ltb_lt; lia).
        do 2 f_equal. lia.
Qed.

(** *** The two loops *)

Section AngleLoops.

Local Open Scope R_scope.

Lemma upd_length (l : list R) (k : nat) (v : R) :
  List.length (upd l k v) = List.length l.
Proof.
  revert k. induction l as [|a l IH]; intros [|k]; cbn; auto.
Qed.

Lemma nth_upd_same (l : list R) (k : nat) (v : R) :
  (k < List.length l)%nat -> nth k (upd l k v) 0 = v.
Proof.
  revert k. induction l as [|a l IH]; intros [|k] H; cbn in *; try lia.
  - reflexivity.
  - apply IH. lia.
Qed.

Lemma nth_upd_other (l : list R) (k k' : nat) (v : R) :
  k <> k' -> nth k' (upd l k v) 0 = nth k' l 0.
Proof.
  revert k k'. induction l as [|a l IH]; intros [|k] [|k'] H; cbn;
    try reflexivity; try lia.
  apply IH. lia.
Qed.

Lemma upd_upd (l : list R) (k : nat) (v w : R) :
  upd (upd l k v) k w = upd l k w.
Proof.
  revert k. induction l as [|a l IH]; intros [|k]; cbn; try reflexivity.
  now rewrite IH.
Qed.

(** Sum of the terms [t j] over the [j] of [l] that pass the test [c]. *)
Definition sumf (c : nat -> bool) (t : nat -> R) (l : list nat) : R :=
  fold_right (fun j acc => (if c j then t j else 0) + acc) 0 l.

Lemma inner_loop (c : nat -> bool) (t : nat -> R) (l : list nat)
  (ang : list R) (k : nat) :
  (k < List.length ang)%nat ->
  fold_left (fun ang j => if c j then upd ang k (nth k ang 0 + t j) else ang)
    l ang
  = upd ang k (nth k ang 0 + sumf c t l).
Proof.
  revert ang. induction l as [|j l IH]; intros ang Hk; cbn [fold_left sumf fold_right].
  - rewrite Rplus_0_r. clear Hk. revert k.
    induction ang as [|a ang IHa]; intros [|k]; cbn; try reflexivity.
    now rewrite <- IHa.
  - fold (sumf c t l). destruct (c j).
    + rewrite IH by (now rewrite upd_length).
      rewrite nth_upd_same, upd_upd by assumption. f_equal. ring.
    + rewrite IH by assumption. f_equal. ring.
Qed.

(** One round of the outer loop, as a function of the list of angles. *)
Definition angle_step (s : string) (n : nat) (angles : list R) (i : nat)
  : list R :=
  let angles1 :=
    fold_left
      (fun ang j =>
         if is_one s j
         then upd ang (n - i - 1) (nth (n - i - 1) ang 0 + / 2 ^ (j - i))
         else ang)
      (seq i (n - i)) angles in
  upd angles1 (n - i - 1) (nth (n - i - 1) angles1 0 * PI).

Lemma angle_step_eq (s : string) (n i : nat) (angles : list R) :
  (i < n)%nat -> List.length angles = n ->
  angle_step s n angles i
  = upd angles (n - i - 1)
      ((nth (n - i - 1) angles 0
        + sumf (is_one s) (fun j => / 2 ^ (j - i)) (seq i (n - i))) * PI).
Proof.
  intros Hi Hlen. unfold angle_step.
  rewrite (inner_loop (is_one s) (fun j => / 2 ^ (j - i))) by lia.
  rewrite nth_upd_same, upd_upd by lia. reflexivity.
Qed.

Lemma outer_loop (s : string) (n r m : nat) (angles : list R) :
  (m + r = n)%nat -> List.length angles = n ->
  let res := fold_left (angle_step s n) (seq m r) angles in
  List.length res = n
  /\ (forall i, (m <= i < n)%nat ->
        nth (n - i - 1) res 0
        = (nth (n - i - 1) angles 0
           + sumf (is_one s) (fun j => / 2 ^ (j - i)) (seq i (n - i))) * PI)
  /\ (forall k, (n - m <= k)%nat -> nth k res 0 = nth k angles 0).
Proof.
  revert m angles. induction r as [|r IH]; intros m angles Hm Hlen; cbn zeta.
  - cbn [seq fold_left]. split; [exact Hlen|]. split; [intros; lia|reflexivity].
  - cbn [seq fold_left]. rewrite angle_step_eq by lia.
    set (ang' := upd angles (n - m - 1) _).
    assert (Hlen' : List.length ang' = n) by (unfold ang'; now rewrite upd_length).
    destruct (IH (S m) ang' ltac:(lia) Hlen') as (H1 & H2 & H3).
    split; [exact H1|]. split.
    + intros i Hi. destruct (Nat.eq_dec i m) as [->|Hne].
      * rewrite H3 by lia. unfold ang'. now rewrite nth_upd_same by lia.
      * rewrite H2 by lia. unfold ang'.
        now rewrite nth_upd_other by lia.
    + intros k Hk. rewrite H3 by lia. unfold ang'.
      now rewrite nth_upd_other by lia.
Qed.

Lemma sumf_ext (c c' : nat -> bool) (t t' : nat -> R) (l : list nat) :
  (forall j, In j l -> c j = c' j /\ t j = t' j) ->
  sumf c t l = sumf c' t' l.
Proof.
  induction l as [|j l IH]; intro H; cbn [sumf fold_right]; [reflexivity|].
  fold (sumf c t l) (sumf c' t' l).
  destruct (H j (or_introl eq_refl)) as [-> ->].
  rewrite IH; [reflexivity|]. intros j' Hj'. apply H. now right.
Qed.

Lemma sumf_scale (c : nat -> bool) (t : nat -> R) (x : R) (l : list nat) :
  sumf c (fun j => x * t j) l = x * sumf c t l.
Proof.
  induction l as [|j l IH]; cbn [sumf fold_right]; [ring|].
  fold (sumf c (fun j => x * t j) l) (sumf c t l). rewrite IH.
  destruct (c j); ring.
Qed.

End AngleLoops.

(** *** The sums *)

Section AngleSum.

Local Open Scope R_scope.

Variable a : Z.

(** The bit of [a] at position [m], as a real. *)
Definition bitr (m : nat) : R :=
  if Z.testbit a (Z.of_nat m) then 1 else 0.

(** The sum that the inner loop builds for the angle of index [k]: the
    bits of [a] from position [k] down, each at half the weight of the one
    before. *)
Definition low_sum (n k : nat) : R :=
  sumf (fun j => Z.testbit a (Z.of_nat (n - 1 - j)))
       (fun j => / 2 ^ (j - (n - 1 - k))) (seq (n - 1 - k) (S k)).

Lemma sumf_cons (c : nat -> bool) (t : nat -> R) (j : nat) (l : list nat) :
  sumf c t (j :: l) = (if c j then t j else 0) + sumf c t l.
Proof. reflexivity. Qed.

Lemma low_sum_0 (n : nat) : (0 < n)%nat -> low_sum n 0 = bitr 0.
Proof.
  intro Hn. unfold low_sum, bitr. cbn [seq]. rewrite sumf_cons.
  replace (n - 1 - (n - 1 - 0))%nat with 0%nat by lia.
  rewrite Nat.sub_diag. cbn [pow sumf fold_right]. rewrite Rinv_1.
  destruct (Z.testbit a (Z.of_nat 0)); ring.
Qed.

Lemma low_sum_S (n k : nat) :
  (S k < n)%nat -> low_sum n (S k) = bitr (S k) + low_sum n k / 2.
Proof.
  intro Hk. unfold low_sum at 1. rewrite <- cons_seq, sumf_cons.
  replace (n - 1 - (n - 1 - S k))%nat with (S k) by lia.
  rewrite Nat.sub_diag. cbn [pow]. rewrite Rinv_1.
  replace (S (n - 1 - S k)) with (n - 1 - k)%nat by lia.
  rewrite (@sumf_ext (fun j => Z.testbit a (Z.of_nat (n - 1 - j)))
             (fun j => Z.testbit a (Z.of_nat (n - 1 - j)))
             (fun j => / 2 ^ (j - (n - 1 - S k)))
             (fun j => / 2 * / 2 ^ (j - (n - 1 - k)))).
  - rewrite sumf_scale. fold (low_sum n k). unfold bitr.
    destruct (Z.testbit a (Z.of_nat (S k))); lra.
  - intros j Hj. apply in_seq in Hj. split; [reflexivity|].
    replace (j - (n - 1 - S k))%nat with (S (j - (n - 1 - k))) by lia.
    cbn [pow]. rewrite Rinv_mult. reflexivity.
Qed.

Lemma mod_pow2_S (k : nat) :
  (a mod 2 ^ Z.of_nat (S (S k))
   = a mod 2 ^ Z.of_nat (S k)
     + 2 ^ Z.of_nat (S k) * Z.b2z (Z.testbit a (Z.of_nat (S k))))%Z.
Proof.
  rewrite (Znat.Nat2Z.inj_succ (S k)), Z.pow_succ_r by lia.
  rewrite (Z.mul_comm 2), Z.rem_mul_r by lia.
  now rewrite Z.testbit_spec' by lia.
Qed.

Lemma IZR_pow2 (k : nat) : IZR (2 ^ Z.of_nat k) = 2 ^ k.
Proof. now rewrite <- pow_IZR. Qed.

(** The sum is the low part of [a], scaled. *)
Lemma low_sum_closed (n k : nat) :
  (k < n)%nat ->
  low_sum n k = IZR (a mod 2 ^ Z.of_nat (S k)) / 2 ^ k.
Proof.
  induction k as [|k IH]; intro Hk.
  - rewrite low_sum_0 by lia. unfold bitr.
    change (2 ^ Z.of_nat 1)%Z with 2%Z. rewrite <- Z.bit0_mod.
    cbn [pow Z.of_nat]. destruct (Z.testbit a 0); cbn [Z.b2z]; lra.
  - rewrite low_sum_S, IH by lia. rewrite mod_pow2_S.
    rewrite plus_IZR, mult_IZR, IZR_pow2. unfold bitr.
    assert (Hp : 2 ^ k <> 0) by (apply pow_nonzero; lra).
    destruct (Z.testbit a (Z.of_nat (S k))); cbn [Z.b2z pow];
      field; exact Hp.
Qed.

End AngleSum.

(** For [0 <= a < 2^n], entry [k] of [precompute_angles(a, n)] is [pi]
    times the low [k + 1] bits of [a] read as a binary fraction with one
    digit before the point. *)
Lemma precompute_angles_spec (a : Z) (n : nat) :
  (0 <= a < 2 ^ Z.of_nat n)%Z ->
  List.length (precompute_angles a n) = n
  /\ forall k, k < n ->
       nth k (precompute_angles a n) 0%R
       = (PI * IZR (a mod 2 ^ Z.of_nat (S k)) / 2 ^ k)%R.
Proof.
  intro Ha. unfold precompute_angles.
  set (s := zfill n (str_from 2 (py_bin a))).
  change (fold_left _ (seq 0 n) (repeat 0%R n))
    with (fold_left (angle_step s n) (seq 0 n) (repeat 0%R n)).
  destruct (@outer_loop s n n 0 (repeat 0%R n) eq_refl (repeat_length _ _))
    as (H1 & H2 & _).
  split; [exact H1|]. intros k Hk.
  specialize (H2 (n - 1 - k) ltac:(lia)).
  replace (n - (n - 1 - k) - 1) with k in H2 by lia.
  rewrite H2, nth_repeat, Rplus_0_l.
  replace (n - (n - 1 - k)) with (S k) by lia.
  rewrite (@sumf_ext (is_one s)
             (fun j => Z.testbit a (Z.of_nat (n - 1 - j)))
             (fun j => (/ 2 ^ (j - (n - 1 - k)))%R)
             (fun j => (/ 2 ^ (j - (n - 1 - k)))%R)).
  - fold (low_sum a n k). rewrite low_sum_closed by assumption.
    unfold Rdiv. ring.
  - intros j Hj. apply in_seq in Hj. split; [|reflexivity].
    unfold s. apply is_one_spec; [exact Ha|lia].
Qed.

(** ** The circuit pieces *)

(** Modelled from the spec: [reg[i]] on a register, an ordered sequence of
    global qubit indices ([state.Reg] is not in src), indexed as a Python
    list: a negative index counts from the end, and an index outside the
    sequence raises [IndexError]. *)
Definition reg_get (reg : list nat) (i : Z) : M nat :=
  let j := if (i <? 0)%Z then (i + Z.of_nat (List.length reg))%Z else i in
  if (j <? 0)%Z then raise IndexError
  else match nth_error reg (Z.to_nat j) with
       | Some q => ret q
       | None => raise IndexError
       end.

(** [add(qc, q, a, n, factor)]: un-controlled add in Fourier space. *)
Definition add (q : list nat) (a : Z) (n : nat) (factor : R) : M unit :=
  let angles := precompute_angles a n in
  for_each (seq 0 n) (fun i =>
    qi <- reg_get q (Z.of_nat i) ;;
    u1 (IInt qi) (factor * nth i angles 0)%R).

(** [cadd(qc, q, ctl, a, n, factor)]: controlled add in Fourier space. *)
Definition cadd (q : list nat) (ctl : nat) (a : Z) (n : nat) (factor : R)
  : M unit :=
  let angles := precompute_angles a n in
  for_each (seq 0 n) (fun i =>
    qi <- reg_get q (Z.of_nat i) ;;
    cu1 (CInt ctl) (IInt qi) (factor * nth i angles 0)%R).

(** [ccphase(qc, angle, ctl1, ctl2, idx)]: controlled-controlled phase
    gate. *)
Definition ccphase (angle : R) (ctl1 ctl2 idx : nat) : M unit :=
  cu1 (CInt ctl1) (IInt idx) (angle / 2)%R ;;
  cx (CInt ctl2) (IInt ctl1) ;;
  cu1 (CInt ctl1) (IInt idx) (- angle / 2)%R ;;
  cx (CInt ctl2) (IInt ctl1) ;;
  cu1 (CInt ctl2) (IInt idx) (angle / 2)%R.

(** [ccadd(qc, q, ctl1, ctl2, a, n, factor)]: controlled-controlled add
    in Fourier space. *)
Definition ccadd (q : list nat) (ctl1 ctl2 : nat) (a : Z) (n : nat)
  (factor : R) : M unit :=
  let angles := precompute_angles a n in
  for_each (seq 0 n) (fun i =>
    qi <- reg_get q (Z.of_nat i) ;;
    ccphase (factor * nth i angles 0)%R ctl1 ctl2 qi).

(** [qft(qc, up_reg, n, with_swaps)]. *)
Definition qft (up_reg : list nat) (n : nat) (with_swaps : Z) : M unit :=
  for_each (rev (seq 0 n)) (fun i =>
    ri <- reg_get up_reg (Z.of_nat i) ;;
    h (IInt ri) true ;;
    for_each (rev (seq 0 i)) (fun j =>
      ri <- reg_get up_reg (Z.of_nat i) ;;
      rj <- reg_get up_reg (Z.of_nat j) ;;
      cu1 (CInt ri) (IInt rj) (PI / 2 ^ (i - j))%R)) ;;
  when (with_swaps =? 1)%Z
    (for_each (seq 0 (n / 2)) (fun i =>
       ri <- reg_get up_reg (Z.of_nat i) ;;
       rk <- reg_get up_reg (Z.of_nat n - 1 - Z.of_nat i) ;;
       swap ri rk)).

(** [inverse_qft(qc, up_reg, n, with_swaps)]. *)
Definition inverse_qft (up_reg : list nat) (n : nat) (with_swaps : Z)
  : M unit :=
  when (with_swaps =? 1)%Z
    (for_each (seq 0 (n / 2)) (fun i =>
       ri <- reg_get up_reg (Z.of_nat i) ;;
       rk <- reg_get up_reg (Z.of_nat n - 1 - Z.of_nat i) ;;
       swap ri rk)) ;;
  for_each (seq 0 n) (fun i =>
    ri <- reg_get up_reg (Z.of_nat i) ;;
    h (IInt ri) true ;;
    when (negb (Z.of_nat i =? Z.of_nat n - 1)%Z)
      (let j := i + 1 in
       for_each (rev (seq 0 (i + 1))) (fun y =>
         rj <- reg_get up_reg (Z.of_nat j) ;;
         ry <- reg_get up_reg (Z.of_nat y) ;;
         cu1 (CInt rj) (IInt ry) (- PI / 2 ^ (j - y))%R))).

(** [cc_add_mod_n(qc, q, ctl1, ctl2, aux, a, number, n)]: double
    controlled modular addition by [a]. *)
Definition cc_add_mod_n (q : list nat) (ctl1 ctl2 aux : nat)
  (a number : Z) (n : nat) : M unit :=
  ccadd q ctl1 ctl2 a n 1 ;;
  add q number n (-1) ;;
  inverse_qft q n 0 ;;
  (ql <- reg_get q (Z.of_nat n - 1) ;; cx (CInt ql) (IInt aux)) ;;
  qft q n 0 ;;
  cadd q aux number n 1 ;;
  ccadd q ctl1 ctl2 a n (-1) ;;
  inverse_qft q n 0 ;;
  (ql <- reg_get q (Z.of_nat n - 1) ;; x (IInt ql) true) ;;
  (ql <- reg_get q (Z.of_nat n - 1) ;; cx (CInt ql) (IInt aux)) ;;
  (ql <- reg_get q (Z.of_nat n - 1) ;; x (IInt ql) true) ;;
  qft q n 0 ;;
  ccadd q ctl1 ctl2 a n 1.

(** [cc_add_mod_n_inverse(qc, q, ctl1, ctl2, aux, a, number, n)]. *)
Definition cc_add_mod_n_inverse (q : list nat) (ctl1 ctl2 aux : nat)
  (a number : Z) (n : nat) : M unit :=
  ccadd q ctl1 ctl2 a n (-1) ;;
  inverse_qft q n 0 ;;
  (ql <- reg_get q (Z.of_nat n - 1) ;; x (IInt ql) true) ;;
  (ql <- reg_get q (Z.of_nat n - 1) ;; cx (CInt ql) (IInt aux)) ;;
  (ql <- reg_get q (Z.of_nat n - 1) ;; x (IInt ql) true) ;;
  qft q n 0 ;;
  ccadd q ctl1 ctl2 a n 1 ;;
  cadd q aux number n (-1) ;;
  inverse_qft q n 0 ;;
  (ql <- reg_get q (Z.of_nat n - 1) ;; cx (CInt ql) (IInt aux)) ;;
  qft q n 0 ;;
  add q number n 1 ;;
  ccadd q ctl1 ctl2 a n (-1).

(** *** What the pieces emit *)

Lemma reg_get_ok (reg : list nat) (i : nat) :
  i < List.length reg -> reg_get reg (Z.of_nat i) = ret (nth i reg 0).
Proof.
  intro Hi. unfold reg_get. cbv zeta.
  assert (E : (Z.of_nat i <? 0)%Z = false) by (apply Z.ltb_ge; lia).
  rewrite !E, Znat.Nat2Z.id, (nth_error_nth' reg 0 Hi). reflexivity.
Qed.

Lemma reg_get_from_end (reg : list nat) (n i : nat) :
  i < n -> n <= List.length reg ->
  reg_get reg (Z.of_nat n - 1 - Z.of_nat i) = ret (nth (n - 1 - i) reg 0).
Proof.
  intros Hi Hn. replace (Z.of_nat n - 1 - Z.of_nat i)%Z
    with (Z.of_nat (n - 1 - i)) by lia.
  apply reg_get_ok. lia.
Qed.

Lemma reg_get_last (reg : list nat) (n : nat) :
  1 <= n <= List.length reg ->
  reg_get reg (Z.of_nat n - 1) = ret (nth (n - 1) reg 0).
Proof.
  intro Hn. replace (Z.of_nat n - 1)%Z with (Z.of_nat (n - 1)) by lia.
  apply reg_get_ok. lia.
Qed.

Lemma emits_u1 (q : nat) (theta : R) :
  emits (u1 (IInt q) theta) tt [u1_node q theta].
Proof. unfold u1. apply emits_apply1. Qed.

Lemma emits_ccphase (angle : R) (c1 c2 t : nat) :
  emits (ccphase angle c1 c2 t) tt (ccphase_nodes angle c1 c2 t).
Proof.
  unfold ccphase, ccphase_nodes. eapply emits_eq.
  - eapply emits_bind; [apply emits_cu1|].
    eapply emits_bind; [apply emits_cx|].
    eapply emits_bind; [apply emits_cu1|].
    eapply emits_bind; [apply emits_cx|apply emits_cu1].
  - reflexivity.
Qed.

(** The gates of the three adders. *)
Definition add_nodes (q : list nat) (a : Z) (n : nat) (factor : R)
  : list Node :=
  map (fun i => u1_node (reg_at q i)
                  (factor * nth i (precompute_angles a n) 0)%R)
      (seq 0 n).

Definition cadd_nodes (q : list nat) (ctl : nat) (a : Z) (n : nat)
  (factor : R) : list Node :=
  map (fun i => cu1_node ctl (reg_at q i)
                  (factor * nth i (precompute_angles a n) 0)%R)
      (seq 0 n).

Definition ccadd_nodes (q : list nat) (ctl1 ctl2 : nat) (a : Z) (n : nat)
  (factor : R) : list Node :=
  flat_map (fun i => ccphase_nodes
                       (factor * nth i (precompute_angles a n) 0)%R
                       ctl1 ctl2 (reg_at q i))
           (seq 0 n).

Lemma emits_add (q : list nat) (a : Z) (n : nat) (factor : R) :
  n <= List.length q ->
  emits (add q a n factor) tt (add_nodes q a n factor).
Proof.
  intro Hn. unfold add, add_nodes. rewrite <- flat_map_single.
  apply emits_for_each. intros i Hi. apply in_seq in Hi.
  rewrite reg_get_ok by lia. apply emits_ret_bind. apply emits_u1.
Qed.

Lemma emits_cadd (q : list nat) (ctl : nat) (a : Z) (n : nat) (factor : R) :
  n <= List.length q ->
  emits (cadd q ctl a n factor) tt (cadd_nodes q ctl a n factor).
Proof.
  intro Hn. unfold cadd, cadd_nodes. rewrite <- flat_map_single.
  apply emits_for_each. intros i Hi. apply in_seq in Hi.
  rewrite reg_get_ok by lia. apply emits_ret_bind. apply emits_cu1.
Qed.

Lemma emits_ccadd (q : list nat) (ctl1 ctl2 : nat) (a : Z) (n : nat)
  (factor : R) :
  n <= List.length q ->
  emits (ccadd q ctl1 ctl2 a n factor) tt
    (ccadd_nodes q ctl1 ctl2 a n factor).
Proof.
  intro Hn. unfold ccadd, ccadd_nodes.
  apply emits_for_each. intros i Hi. apply in_seq in Hi.
  rewrite reg_get_ok by lia. apply emits_ret_bind. apply emits_ccphase.
Qed.

End OrderFinding.

(* ------------------------------------------------------------------ *)
(** ** The QFT of the order-finding example is the QFT of the builder *)

Lemma reg_at_firstn (q : list nat) (n i : nat) :
  i < n -> reg_at (firstn n q) i = nth i q 0.
Proof.
  intro Hi. unfold reg_at. rewrite nth_firstn.
  now replace (i <? n) with true by (symmetry; apply Nat.ltb_lt; exact Hi).
Qed.

Section OfQft.

Variable q : list nat.
Variable n : nat.
Hypothesis Hn : n <= List.length q.

Lemma of_flip_eq (s : qc) :
  for_each (seq 0 (n / 2)) (fun i =>
    ri <- OrderFinding.reg_get q (Z.of_nat i) ;;
    rk <- OrderFinding.reg_get q (Z.of_nat n - 1 - Z.of_nat i) ;;
    swap ri rk) s
  = flip (firstn n q) s.
Proof.
  unfold flip. rewrite (firstn_length_le q Hn).
  apply for_each_ext_in. intros i Hi s'. apply in_seq in Hi.
  assert (Hlt : i < n).
  { pose proof (Nat.div_mod_eq n 2). lia. }
  rewrite OrderFinding.reg_get_ok by lia.
  rewrite (@OrderFinding.reg_get_from_end q n i Hlt Hn).
  rewrite !reg_at_firstn by lia. reflexivity.
Qed.

Lemma of_qft_eq (ws : Z) (s : qc) :
  OrderFinding.qft q n ws s = qft (firstn n q) (ws =? 1)%Z s.
Proof.
  unfold OrderFinding.qft, qft. rewrite (firstn_length_le q Hn).
  apply bind_ext.
  - apply for_each_ext_in. intros i Hi s'. apply in_rev, in_seq in Hi.
    rewrite OrderFinding.reg_get_ok by lia.
    rewrite reg_at_firstn by lia.
    change (bind (ret (nth i q 0)) ?k s') with (k (nth i q 0) s').
    cbv beta. apply bind_ext_r. intros _ s2.
    apply for_each_ext_in. intros j Hj s3. apply in_rev, in_seq in Hj.
    rewrite !OrderFinding.reg_get_ok by lia.
    rewrite reg_at_firstn by lia. reflexivity.
  - intros _ s'. destruct (ws =? 1)%Z; cbn [when];
      [apply of_flip_eq|reflexivity].
Qed.

Lemma of_inverse_qft_eq (ws : Z) (s : qc) :
  OrderFinding.inverse_qft q n ws s
  = inverse_qft (firstn n q) (ws =? 1)%Z s.
Proof.
  unfold OrderFinding.inverse_qft, inverse_qft.
  rewrite (firstn_length_le q Hn).
  apply bind_ext.
  - destruct (ws =? 1)%Z; cbn [when]; [apply of_flip_eq|reflexivity].
  - intros _ s1.
    pose proof (combine_seq (firstn n q) 0) as Ec.
    rewrite (firstn_length_le q Hn) in Ec. rewrite Ec, for_each_map.
    apply for_each_ext_in. intros i Hi s'. apply in_seq in Hi.
    rewrite OrderFinding.reg_get_ok by lia.
    rewrite Nat.sub_0_r. fold (reg_at (firstn n q) i).
    rewrite reg_at_firstn by lia.
    change (bind (ret (nth i q 0)) ?k s') with (k (nth i q 0) s').
    cbv beta. apply bind_ext_r. intros _ s2.
    replace (Z.of_nat i =? Z.of_nat n - 1)%Z with (i =? n - 1).
    + destruct (Nat.eqb_spec i (n - 1)) as [E|E]; cbn [negb when];
        [reflexivity|].
      apply for_each_ext_in. intros y Hy s3. apply in_rev, in_seq in Hy.
      rewrite !OrderFinding.reg_get_ok by lia.
      rewrite !reg_at_firstn by lia. reflexivity.
    + destruct (Nat.eqb_spec i (n - 1)),
        (Z.eqb_spec (Z.of_nat i) (Z.of_nat n - 1));
        try reflexivity; lia.
Qed.

End OfQft.

(* ------------------------------------------------------------------ *)
(** ** Modular addition and its inverse *)

Section ModAdd.

Variable q : list nat.
Variables ctl1 ctl2 aux : nat.
Variables a number : Z.
Variable n : nat.
Hypothesis Hn : 1 <= n <= List.length q.

Definition cc_add_mod_n_nodes : list Node :=
  OrderFinding.ccadd_nodes q ctl1 ctl2 a n 1
  ++ OrderFinding.add_nodes q number n (-1)
  ++ inverse_qft_nodes (firstn n q)
  ++ [cx_node (nth (n - 1) q 0) aux]
  ++ qft_nodes (firstn n q)
  ++ OrderFinding.cadd_nodes q aux number n 1
  ++ OrderFinding.ccadd_nodes q ctl1 ctl2 a n (-1)
  ++ inverse_qft_nodes (firstn n q)
  ++ [x_node (nth (n - 1) q 0)]
  ++ [cx_node (nth (n - 1) q 0) aux]
  ++ [x_node (nth (n - 1) q 0)]
  ++ qft_nodes (firstn n q)
  ++ OrderFinding.ccadd_nodes q ctl1 ctl2 a n 1.

Definition cc_add_mod_n_inverse_nodes : list Node :=
  OrderFinding.ccadd_nodes q ctl1 ctl2 a n (-1)
  ++ inverse_qft_nodes (firstn n q)
  ++ [x_node (nth (n - 1) q 0)]
  ++ [cx_node (nth (n - 1) q 0) aux]
  ++ [x_node (nth (n - 1) q 0)]
  ++ qft_nodes (firstn n q)
  ++ OrderFinding.ccadd_nodes q ctl1 ctl2 a n 1
  ++ OrderFinding.cadd_nodes q aux number n (-1)
  ++ inverse_qft_nodes (firstn n q)
  ++ [cx_node (nth (n - 1) q 0) aux]
  ++ qft_nodes (firstn n q)
  ++ OrderFinding.add_nodes q number n 1
  ++ OrderFinding.ccadd_nodes q ctl1 ctl2 a n (-1).

Lemma emits_of_qft : emits (OrderFinding.qft q n 0) tt (qft_nodes (firstn n q)).
Proof.
  eapply emits_ext; [|apply emits_qft].
  intro s. symmetry. apply of_qft_eq. lia.
Qed.

Lemma emits_of_inverse_qft :
  emits (OrderFinding.inverse_qft q n 0) tt (inverse_qft_nodes (firstn n q)).
Proof.
  eapply emits_ext; [|apply emits_inverse_qft].
  intro s. symmetry. apply of_inverse_qft_eq. lia.
Qed.

Lemma emits_last_cx :
  emits (ql <- OrderFinding.reg_get q (Z.of_nat n - 1) ;;
         cx (CInt ql) (IInt aux)) tt [cx_node (nth (n - 1) q 0) aux].
Proof.
  rewrite OrderFinding.reg_get_last by exact Hn.
  apply emits_ret_bind. apply emits_cx.
Qed.

Lemma emits_last_x :
  emits (ql <- OrderFinding.reg_get q (Z.of_nat n - 1) ;; x (IInt ql) true)
    tt [x_node (nth (n - 1) q 0)].
Proof.
  rewrite OrderFinding.reg_get_last by exact Hn.
  apply emits_ret_bind. apply (emits_x false (nth (n - 1) q 0) true).
Qed.

Ltac emits_piece :=
  first [ apply OrderFinding.emits_ccadd; lia
        | apply OrderFinding.emits_cadd; lia
        | apply OrderFinding.emits_add; lia
        | apply emits_of_inverse_qft
        | apply emits_of_qft
        | apply emits_last_cx
        | apply emits_last_x ].

Lemma emits_cc_add_mod_n :
  emits (OrderFinding.cc_add_mod_n q ctl1 ctl2 aux a number n) tt
    cc_add_mod_n_nodes.
Proof.
  unfold OrderFinding.cc_add_mod_n, cc_add_mod_n_nodes.
  repeat (eapply emits_bind; [emits_piece|]). emits_piece.
Qed.

Lemma emits_cc_add_mod_n_inverse :
  emits (OrderFinding.cc_add_mod_n_inverse q ctl1 ctl2 aux a number n) tt
    cc_add_mod_n_inverse_nodes.
Proof.
  unfold OrderFinding.cc_add_mod_n_inverse, cc_add_mod_n_inverse_nodes.
  repeat (eapply emits_bind; [emits_piece|]). emits_piece.
Qed.

End ModAdd.

Section ModAddSem.

Local Open Scope C_scope.

(** The number of qubits of the state. *)
Variable nq : nat.
Variable q : list nat.
Variables ctl1 ctl2 aux : nat.
Variables a number : Z.
Variable n : nat.
Hypothesis Hn : 1 <= n <= List.length q.
Hypothesis H1 : ctl1 < nq.
Hypothesis H2 : ctl2 < nq.
Hypothesis Hx : aux < nq.
Hypothesis Hq : Forall (fun x => x < nq) (firstn n q).
Hypothesis Hnd : NoDup (ctl1 :: ctl2 :: aux :: firstn n q).

Lemma q_in (i : nat) : i < n -> In (reg_at q i) (firstn n q).
Proof.
  intro Hi. change (reg_at q i) with (nth i q 0).
  rewrite <- (@reg_at_firstn q n i Hi). unfold reg_at.
  apply nth_In. rewrite firstn_length_le; lia.
Qed.

Lemma q_lt (i : nat) : i < n -> reg_at q i < nq.
Proof.
  intro Hi. rewrite Forall_forall in Hq. apply Hq. now apply q_in.
Qed.

Lemma q_facts (i : nat) :
  i < n ->
  ctl1 <> ctl2 /\ ctl1 <> reg_at q i /\ ctl2 <> reg_at q i
  /\ aux <> reg_at q i.
Proof.
  intro Hi. pose proof (q_in Hi) as Hin.
  inversion Hnd as [|? ? N1 Hnd1]; subst.
  inversion Hnd1 as [|? ? N2 Hnd2]; subst.
  inversion Hnd2 as [|? ? N3 Hnd3]; subst.
  repeat split; intro E.
  - apply N1. left. now symmetry.
  - apply N1. right. right. now rewrite E.
  - apply N2. right. now rewrite E.
  - apply N3. now rewrite E.
Qed.

Lemma diag_ccadd (x : R) :
  diag_nodes nq (OrderFinding.ccadd_nodes q ctl1 ctl2 a n x)
    (dprod (fun i => ccph nq
                       (x * nth i (OrderFinding.precompute_angles a n) 0)%R
                       ctl1 ctl2 (reg_at q i)) (seq 0 n)).
Proof.
  unfold OrderFinding.ccadd_nodes. apply diag_flat_map.
  intros i Hi. apply in_seq in Hi.
  destruct (@q_facts i ltac:(lia)) as (N12 & N1q & N2q & _).
  apply diag_ccphase; auto. apply q_lt. lia.
Qed.

Lemma diag_add (x : R) :
  diag_nodes nq (OrderFinding.add_nodes q number n x)
    (dprod (fun i => sphase nq
                       (x * nth i (OrderFinding.precompute_angles number n) 0)%R
                       (reg_at q i)) (seq 0 n)).
Proof.
  unfold OrderFinding.add_nodes. rewrite <- flat_map_single.
  apply diag_flat_map. intros i _. apply diag_u1.
Qed.

Lemma diag_cadd (x : R) :
  diag_nodes nq (OrderFinding.cadd_nodes q aux number n x)
    (dprod (fun i => phase nq
                       (x * nth i (OrderFinding.precompute_angles number n) 0)%R
                       aux (reg_at q i)) (seq 0 n)).
Proof.
  unfold OrderFinding.cadd_nodes. rewrite <- flat_map_single.
  apply diag_flat_map. intros i _. apply diag_cu1.
Qed.

Lemma ccadd_cancel (x y : R) (g : N -> C) :
  (x + y = 0)%R ->
  replay nq (OrderFinding.ccadd_nodes q ctl1 ctl2 a n y)
    (replay nq (OrderFinding.ccadd_nodes q ctl1 ctl2 a n x) g) = g.
Proof.
  intro E. apply (diag_cancel (diag_ccadd x) (diag_ccadd y)).
  intro i. apply dprod_cancel. intros k _. apply ccph_cancel.
  transitivity ((x + y) * nth k (OrderFinding.precompute_angles a n) 0)%R;
    [ring|]. rewrite E. ring.
Qed.

Lemma add_cancel (x y : R) (g : N -> C) :
  (x + y = 0)%R ->
  replay nq (OrderFinding.add_nodes q number n y)
    (replay nq (OrderFinding.add_nodes q number n x) g) = g.
Proof.
  intro E. apply (diag_cancel (diag_add x) (diag_add y)).
  intro i. apply dprod_cancel. intros k _. apply sphase_cancel.
  transitivity
    ((x + y) * nth k (OrderFinding.precompute_angles number n) 0)%R;
    [ring|]. rewrite E. ring.
Qed.

Lemma cadd_cancel (x y : R) (g : N -> C) :
  (x + y = 0)%R ->
  replay nq (OrderFinding.cadd_nodes q aux number n y)
    (replay nq (OrderFinding.cadd_nodes q aux number n x) g) = g.
Proof.
  intro E. apply (diag_cancel (diag_cadd x) (diag_cadd y)).
  intro i. apply dprod_cancel. intros k _. apply phase_cancel2.
  transitivity
    ((x + y) * nth k (OrderFinding.precompute_angles number n) 0)%R;
    [ring|]. rewrite E. ring.
Qed.

Lemma x_cancel (t : nat) (g : N -> C) :
  replay nq [x_node t] (replay nq [x_node t] g) = g.
Proof.
  rewrite !replay_x. apply functional_extensionality; intro i.
  unfold perm_gate. now rewrite flipq_invol.
Qed.

Lemma cx_cancel (c t : nat) (g : N -> C) :
  c < nq -> t < nq -> c <> t ->
  replay nq [cx_node c t] (replay nq [cx_node c t] g) = g.
Proof.
  intros Hc Ht Hct. rewrite !replay_cx.
  apply functional_extensionality; intro i. unfold perm_gate.
  now rewrite cnot_invol.
Qed.

Lemma qft_iqft_cancel (g : N -> C) :
  replay nq (inverse_qft_nodes (firstn n q))
    (replay nq (qft_nodes (firstn n q)) g) = g.
Proof. rewrite <- replay_app. apply qft_iqft_nodes. Qed.

Lemma iqft_qft_cancel (g : N -> C) :
  replay nq (qft_nodes (firstn n q))
    (replay nq (inverse_qft_nodes (firstn n q)) g) = g.
Proof. rewrite <- replay_app. apply iqft_qft_nodes. Qed.

(** The gates of [cc_add_mod_n] followed by those of
    [cc_add_mod_n_inverse] leave every amplitude vector as it was. *)
Lemma cc_add_mod_n_cancel (f : N -> C) :
  replay nq (cc_add_mod_n_nodes q ctl1 ctl2 aux a number n
             ++ cc_add_mod_n_inverse_nodes q ctl1 ctl2 aux a number n) f
  = f.
Proof.
  assert (Hl : nth (n - 1) q 0 < nq /\ nth (n - 1) q 0 <> aux).
  { destruct (@q_facts (n - 1) ltac:(lia)) as (_ & _ & _ & Nx).
    split; [apply (@q_lt (n - 1)); lia|]. intro E. apply Nx.
    now rewrite <- E. }
  destruct Hl as [Hl Hla].
  unfold cc_add_mod_n_nodes, cc_add_mod_n_inverse_nodes.
  rewrite !replay_app.
  rewrite (@ccadd_cancel 1 (-1)) by lra.
  rewrite qft_iqft_cancel.
  rewrite x_cancel, cx_cancel, x_cancel by assumption.
  rewrite iqft_qft_cancel.
  rewrite (@ccadd_cancel (-1) 1) by lra.
  rewrite (@cadd_cancel 1 (-1)) by lra.
  rewrite qft_iqft_cancel.
  rewrite cx_cancel by assumption.
  rewrite iqft_qft_cancel.
  rewrite (@add_cancel (-1) 1) by lra.
  rewrite (@ccadd_cancel 1 (-1)) by lra.
  reflexivity.
Qed.

(** *** Every gate is in range *)

Lemma ccphase_nodes_ok (angle : R) (t : nat) :
  t < nq -> forallb (node_ok nq) (ccphase_nodes angle ctl1 ctl2 t) = true.
Proof.
  intro Ht. apply Nat.ltb_lt in Ht. pose proof H1 as E1. pose proof H2 as E2.
  apply Nat.ltb_lt in E1, E2. cbn. now rewrite E1, E2, Ht.
Qed.

Lemma ccadd_nodes_ok (x : R) :
  forallb (node_ok nq) (OrderFinding.ccadd_nodes q ctl1 ctl2 a n x) = true.
Proof.
  unfold OrderFinding.ccadd_nodes. apply node_ok_flat_map.
  intros i Hi. apply in_seq in Hi. apply ccphase_nodes_ok. apply q_lt. lia.
Qed.

Lemma add_nodes_ok (x : R) :
  forallb (node_ok nq) (OrderFinding.add_nodes q number n x) = true.
Proof.
  unfold OrderFinding.add_nodes. apply node_ok_map.
  intros i Hi. apply in_seq in Hi. cbn. apply Nat.ltb_lt. apply q_lt. lia.
Qed.

Lemma cadd_nodes_ok (x : R) :
  forallb (node_ok nq) (OrderFinding.cadd_nodes q aux number n x) = true.
Proof.
  unfold OrderFinding.cadd_nodes. apply node_ok_map.
  intros i Hi. apply in_seq in Hi. cbn.
  pose proof Hx as Ex. apply Nat.ltb_lt in Ex. rewrite Ex. cbn.
  apply Nat.ltb_lt. apply q_lt. lia.
Qed.

Lemma last_ok :
  (nth (n - 1) q 0 <? nq) = true /\ (aux <? nq) = true.
Proof.
  split; apply Nat.ltb_lt; [|exact Hx].
  apply (@q_lt (n - 1)). lia.
Qed.

Lemma cc_add_mod_n_nodes_ok :
  forallb (node_ok nq) (cc_add_mod_n_nodes q ctl1 ctl2 aux a number n) = true.
Proof.
  destruct last_ok as [El Ea].
  unfold cc_add_mod_n_nodes.
  rewrite !forallb_app, !ccadd_nodes_ok, add_nodes_ok, cadd_nodes_ok,
    !(qft_nodes_ok Hq), !(inverse_qft_nodes_ok Hq).
  cbn. now rewrite El, Ea.
Qed.

Lemma cc_add_mod_n_inverse_nodes_ok :
  forallb (node_ok nq) (cc_add_mod_n_inverse_nodes q ctl1 ctl2 aux a number n)
  = true.
Proof.
  destruct last_ok as [El Ea].
  unfold cc_add_mod_n_inverse_nodes.
  rewrite !forallb_app, !ccadd_nodes_ok, add_nodes_ok, cadd_nodes_ok,
    !(qft_nodes_ok Hq), !(inverse_qft_nodes_ok Hq).
  cbn. now rewrite El, Ea.
Qed.

End ModAddSem.

(* ------------------------------------------------------------------ *)
(** ** The phase of the un-controlled adder *)

Section AddPhase.

Local Open Scope C_scope.

Variable nq : nat.

Lemma dprod_sphase (tq : nat -> nat) (th : nat -> R) (l : list nat) (i : N) :
  dprod (fun k => sphase nq (th k) (tq k)) l i
  = cis (OrderFinding.sumf (fun k => qbit nq (tq k) i) th l).
Proof.
  induction l as [|k l IH]; unfold dprod; cbn [fold_right].
  - cbn. now rewrite cis_0.
  - fold (dprod (fun k => sphase nq (th k) (tq k)) l i). rewrite IH.
    rewrite OrderFinding.sumf_cons, cis_add. unfold sphase.
    destruct (qbit nq (tq k) i); [reflexivity|]. now rewrite cis_0.
Qed.

End AddPhase.

(* ------------------------------------------------------------------ *)
(** ** Controlled modular multiplication *)

(** What [cmultmodn] can raise: a failure of the circuit builder, or one
    of the number helpers. *)
Inductive OfErr : Type :=
| CircuitErr (e : Exc)
| NumberErr (e : OrderFinding.OfExc).

Inductive OfRes (A : Type) : Type :=
| OfOk (a : A) (s : qc)
| OfFail (e : OfErr) (s : qc).
Arguments OfOk {A} a s.
Arguments OfFail {A} e s.

Definition MO (A : Type) : Type := qc -> OfRes A.

Definition obind {A B : Type} (m : MO A) (k : A -> MO B) : MO B :=
  fun s => match m s with
           | OfOk a s' => k a s'
           | OfFail e s' => OfFail e s'
           end.

(** A call into the circuit builder. *)
Definition lift {A : Type} (m : M A) : MO A :=
  fun s => match m s with
           | Ok a s' => OfOk a s'
           | Err e s' => OfFail (CircuitErr e) s'
           end.

(** A call of a number helper; the circuit is not touched. *)
Definition number_step {A : Type} (r : A + OrderFinding.OfExc) : MO A :=
  fun s => match r with
           | inl a => OfOk a s
           | inr e => OfFail (NumberErr e) s
           end.

Fixpoint ofor_each {A : Type} (l : list A) (body : A -> MO unit) : MO unit :=
  match l with
  | [] => fun s => OfOk tt s
  | a :: rest => obind (body a) (fun _ => ofor_each rest body)
  end.

(** [x % m] on integers. *)
Definition py_mod (x m : Z) : Z + OrderFinding.OfExc :=
  if (m =? 0)%Z then inr OrderFinding.ZeroDivisionError
  else inl (x mod m)%Z.

Section CMult.

Variable sqrtm : Mat2 -> Mat2.

Variable ctl : nat.
Variables q aux : list nat.
Variables a number : Z.
Variable n : nat.

(** The stages of [cmultmodn], named after what it prints: the additions
    in Fourier space, ... *)
Definition cmultmodn_compute : MO unit :=
  obind (lift (OrderFinding.qft aux (n + 1) 0)) (fun _ =>
  obind (ofor_each (seq 0 n) (fun i =>
           obind (lift (OrderFinding.reg_get q (Z.of_nat i))) (fun qi =>
           obind (lift (OrderFinding.reg_get aux (Z.of_nat n + 1))) (fun ax =>
           obind (number_step (py_mod (2 ^ Z.of_nat i * a) number)) (fun am =>
           lift (OrderFinding.cc_add_mod_n aux qi ctl ax am number
                   (n + 1))))))) (fun _ =>
  lift (OrderFinding.inverse_qft aux (n + 1) 0))).

(** ... the controlled swaps, ... *)
Definition cmultmodn_swap : MO unit :=
  ofor_each (seq 0 n) (fun i =>
    obind (lift (OrderFinding.reg_get q (Z.of_nat i))) (fun qi =>
    obind (lift (OrderFinding.reg_get aux (Z.of_nat i))) (fun ai =>
    lift (cswap sqrtm (CInt ctl) qi ai)))).

(** ... and the subtractions with the modular inverse. *)
Definition cmultmodn_uncompute (a_inv : Z) : MO unit :=
  obind (lift (OrderFinding.qft aux (n + 1) 0)) (fun _ =>
  obind (ofor_each (rev (seq 0 n)) (fun i =>
           obind (lift (OrderFinding.reg_get q (Z.of_nat i))) (fun qi =>
           obind (lift (OrderFinding.reg_get aux (Z.of_nat n + 1))) (fun ax =>
           obind (number_step (py_mod (2 ^ Z.of_nat i * a_inv) number))
             (fun am =>
           lift (OrderFinding.cc_add_mod_n_inverse aux qi ctl ax am number
                   (n + 1))))))) (fun _ =>
  lift (OrderFinding.inverse_qft aux (n + 1) 0))).

(** [cmultmodn(qc, ctl, q, aux, a, number, n)]; the printing is left
    out. *)
Definition cmultmodn : MO unit :=
  obind cmultmodn_compute (fun _ =>
  obind cmultmodn_swap (fun _ =>
  obind (number_step (OrderFinding.modular_inverse a number)) (fun a_inv =>
  cmultmodn_uncompute a_inv))).

End CMult.

(** *** Running the stages on a circuit that is not eager *)

(** On a circuit that is not eager, [m] returns [a] after emitting the
    gates [l]. *)
Definition orecords {A : Type} (m : MO A) (a : A) (l : list Node) : Prop :=
  forall s, eager s = false -> exists mk, m s = OfOk a (after l mk s).

Lemma orecords_lift {A : Type} (m : M A) (a : A) (l : list Node) :
  emits m a l -> orecords (lift m) a l.
Proof.
  intros H s He. destruct (H s) as [mk [_ E]].
  { rewrite He. discriminate. }
  exists mk. unfold lift. now rewrite E.
Qed.

Lemma orecords_bind {A B : Type} (m : MO A) (k : A -> MO B) (a : A) (b : B)
  (l1 l2 : list Node) :
  orecords m a l1 -> orecords (k a) b l2 ->
  orecords (obind m k) b (l1 ++ l2).
Proof.
  intros H1 H2 s He. destruct (H1 s He) as [mk1 E1].
  destruct (H2 (after l1 mk1 s) He) as [mk2 E2].
  exists (mk1 ++ mk2). unfold obind. rewrite E1, E2.
  now rewrite after_after.
Qed.

Lemma orecords_number {A : Type} (x : A) : orecords (number_step (inl x)) x [].
Proof. intros s _. exists []. cbn. now rewrite after_nil. Qed.

Lemma orecords_for_each {A : Type} (body : A -> MO unit)
  (g : A -> list Node) (l : list A) :
  (forall a, In a l -> orecords (body a) tt (g a)) ->
  orecords (ofor_each l body) tt (flat_map g l).
Proof.
  induction l as [|a l IH]; intro H; cbn [ofor_each flat_map].
  - intros s _. exists []. now rewrite after_nil.
  - apply orecords_bind with (a := tt).
    + apply H. now left.
    + apply IH. intros b Hb. apply H. now right.
Qed.

Lemma orecords_eq {A : Type} (m : MO A) (a : A) (l l' : list Node) :
  orecords m a l -> l = l' -> orecords m a l'.
Proof. now intros H <-. Qed.

Section CMultRecords.

Variable sqrtm : Mat2 -> Mat2.
Variable ctl : nat.
Variables q aux : list nat.
Variables a number : Z.
Variable n : nat.
Hypothesis Haux : n + 2 <= List.length aux.
Hypothesis Hq : n <= List.length q.
Hypothesis Hnum : (number <> 0)%Z.

(** The gates of the three stages. *)
Definition cmult_compute_nodes : list Node :=
  qft_nodes (firstn (n + 1) aux)
  ++ flat_map (fun i =>
       cc_add_mod_n_nodes aux (reg_at q i) ctl (nth (n + 1) aux 0)
         ((2 ^ Z.of_nat i * a) mod number)%Z number (n + 1))
       (seq 0 n)
  ++ inverse_qft_nodes (firstn (n + 1) aux).

Definition cmult_swap_nodes : list Node :=
  flat_map (fun i =>
    [cx_node (reg_at aux i) (reg_at q i)]
    ++ ccu_nodes sqrtm (CInt ctl) (CInt (reg_at q i)) (reg_at aux i) PauliX
    ++ [cx_node (reg_at aux i) (reg_at q i)])
    (seq 0 n).

Definition cmult_uncompute_nodes (a_inv : Z) : list Node :=
  qft_nodes (firstn (n + 1) aux)
  ++ flat_map (fun i =>
       cc_add_mod_n_inverse_nodes aux (reg_at q i) ctl (nth (n + 1) aux 0)
         ((2 ^ Z.of_nat i * a_inv) mod number)%Z number (n + 1))
       (rev (seq 0 n))
  ++ inverse_qft_nodes (firstn (n + 1) aux).

Lemma py_mod_ok (x : Z) : py_mod x number = inl (x mod number)%Z.
Proof.
  unfold py_mod. destruct (Z.eqb_spec number 0); [contradiction|reflexivity].
Qed.

Lemma reg_get_aux_last :
  OrderFinding.reg_get aux (Z.of_nat n + 1) = ret (nth (n + 1) aux 0).
Proof.
  replace (Z.of_nat n + 1)%Z with (Z.of_nat (n + 1)) by lia.
  apply OrderFinding.reg_get_ok. lia.
Qed.

Lemma orecords_compute :
  orecords (cmultmodn_compute ctl q aux a number n) tt cmult_compute_nodes.
Proof.
  unfold cmultmodn_compute, cmult_compute_nodes.
  eapply orecords_bind; [apply orecords_lift, emits_of_qft; lia|].
  eapply orecords_bind; [|apply orecords_lift, emits_of_inverse_qft; lia].
  apply orecords_for_each. intros i Hi. apply in_seq in Hi.
  rewrite OrderFinding.reg_get_ok by lia. rewrite reg_get_aux_last, py_mod_ok.
  eapply orecords_eq.
  - eapply orecords_bind; [apply orecords_lift, emits_ret|].
    eapply orecords_bind; [apply orecords_lift, emits_ret|].
    eapply orecords_bind; [apply orecords_number|].
    apply orecords_lift, emits_cc_add_mod_n. lia.
  - reflexivity.
Qed.

Lemma orecords_swap :
  orecords (cmultmodn_swap sqrtm ctl q aux n) tt cmult_swap_nodes.
Proof.
  unfold cmultmodn_swap, cmult_swap_nodes.
  apply orecords_for_each. intros i Hi. apply in_seq in Hi.
  rewrite !OrderFinding.reg_get_ok by lia.
  eapply orecords_eq.
  - eapply orecords_bind; [apply orecords_lift, emits_ret|].
    eapply orecords_bind; [apply orecords_lift, emits_ret|].
    apply orecords_lift, emits_cswap.
  - reflexivity.
Qed.

Lemma orecords_uncompute (a_inv : Z) :
  orecords (cmultmodn_uncompute ctl q aux number n a_inv) tt
    (cmult_uncompute_nodes a_inv).
Proof.
  unfold cmultmodn_uncompute, cmult_uncompute_nodes.
  eapply orecords_bind; [apply orecords_lift, emits_of_qft; lia|].
  eapply orecords_bind; [|apply orecords_lift, emits_of_inverse_qft; lia].
  apply orecords_for_each. intros i Hi. apply in_rev, in_seq in Hi.
  rewrite OrderFinding.reg_get_ok by lia. rewrite reg_get_aux_last, py_mod_ok.
  eapply orecords_eq.
  - eapply orecords_bind; [apply orecords_lift, emits_ret|].
    eapply orecords_bind; [apply orecords_lift, emits_ret|].
    eapply orecords_bind; [apply orecords_number|].
    apply orecords_lift, emits_cc_add_mod_n_inverse. lia.
  - reflexivity.
Qed.

Lemma qft_nodes_nonempty :
  1 <= List.length (qft_nodes (firstn (n + 1) aux)).
Proof.
  clear - Haux. unfold qft_nodes. rewrite firstn_length_le by lia.
  rewrite Nat.add_1_r, seq_S, rev_app_distr. cbn. lia.
Qed.

End CMultRecords.

(* ------------------------------------------------------------------ *)
(** ** A controlled gate whose target is out of range *)

Lemma record_apply_c_fail (gate : Operator) (c t : nat)
  (nm : option string) (val : option R) (s : qc) :
  eager s = true -> nbits (psi s) <= t ->
  (when_ build_ir
     (modify (fun s => set_ir (controlled nm c t gate val (ir s)) s)) ;;
   when_ eager (
     n <- get (fun s => nbits (psi s)) ;;
     py_assert (t <? n) "Invalid qubit index" ;;
     call_kernel (fun p => xgates_applyc p (mat gate) c t))) s
  = Err (AssertionError "Invalid qubit index")
        (recorded (Controlled nm c t gate val) s).
Proof.
  intros He Hn. apply Nat.ltb_ge in Hn.
  destruct s as [sn [nb am] r e b g k]; cbn in He, Hn; subst.
  destruct b; run_m; rewrite Hn; reflexivity.
Qed.

(* ------------------------------------------------------------------ *)
(** ** [precompute_angles] outside its domain *)

Section AnglesEdge.

Lemma size_nat_pow2 (p : positive) :
  (Zpos p < 2 ^ Z.of_nat (Pos.size_nat p))%Z.
Proof.
  induction p as [q IH|q IH|]; cbn [Pos.size_nat].
  - rewrite Znat.Nat2Z.inj_succ, Z.pow_succ_r by lia. lia.
  - rewrite Znat.Nat2Z.inj_succ, Z.pow_succ_r by lia. lia.
  - cbn. lia.
Qed.

Lemma is_one_digits (p : positive) (j : nat) :
  OrderFinding.is_one (OrderFinding.bin_digits p EmptyString) j
  = if j <? Pos.size_nat p
    then Z.testbit (Zpos p) (Z.of_nat (Pos.size_nat p - 1 - j))
    else false.
Proof.
  unfold OrderFinding.is_one. rewrite OrderFinding.bin_digits_get.
  destruct (j <? Pos.size_nat p).
  - now destruct (Z.testbit _ _).
  - now destruct (j - Pos.size_nat p).
Qed.

(** The angles depend on the characters of the string only through the
    test [s[j] == '1'] at the positions below [n]. *)
Lemma angles_ext (s s' : string) (n : nat) :
  (forall j, j < n -> OrderFinding.is_one s j = OrderFinding.is_one s' j) ->
  fold_left (OrderFinding.angle_step s n) (seq 0 n) (repeat 0%R n)
  = fold_left (OrderFinding.angle_step s' n) (seq 0 n) (repeat 0%R n).
Proof.
  intro H.
  destruct (@OrderFinding.outer_loop s n n 0 (repeat 0%R n) eq_refl
              (repeat_length _ _)) as (L1 & V1 & _).
  destruct (@OrderFinding.outer_loop s' n n 0 (repeat 0%R n) eq_refl
              (repeat_length _ _)) as (L2 & V2 & _).
  apply (nth_ext _ _ 0%R 0%R); [congruence|].
  intros k Hk. rewrite L1 in Hk.
  specialize (V1 (n - 1 - k) ltac:(lia)). specialize (V2 (n - 1 - k) ltac:(lia)).
  replace (n - (n - 1 - k) - 1) with k in V1, V2 by lia.
  rewrite V1, V2. f_equal. f_equal.
  apply OrderFinding.sumf_ext. intros j Hj. apply in_seq in Hj.
  split; [apply H; lia|reflexivity].
Qed.

Lemma precompute_angles_ext (a a' : Z) (n : nat) :
  (forall j, j < n ->
     OrderFinding.is_one
       (OrderFinding.zfill n (OrderFinding.str_from 2 (OrderFinding.py_bin a)))
       j
     = OrderFinding.is_one
         (OrderFinding.zfill n
            (OrderFinding.str_from 2 (OrderFinding.py_bin a'))) j) ->
  OrderFinding.precompute_angles a n = OrderFinding.precompute_angles a' n.
Proof. intro H. now apply angles_ext. Qed.

Lemma testbit_above_size (p : positive) (m : nat) :
  Pos.size_nat p <= m -> Z.testbit (Zpos p) (Z.of_nat m) = false.
Proof.
  intro Hm.
  rewrite <- (Z.mod_small (Zpos p) (2 ^ Z.of_nat (Pos.size_nat p))).
  - apply Z.mod_pow2_bits_high. lia.
  - split; [lia|apply size_nat_pow2].
Qed.

(** A negative number: the character that [bin] leaves in front of the
    digits once the sign is sliced off is not a 1, so it reads as a 0. *)
Lemma is_one_neg (p : positive) (n j : nat) :
  Pos.size_nat p + 1 <= n -> j < n ->
  OrderFinding.is_one
    (OrderFinding.zfill n
       (OrderFinding.str_from 2 (OrderFinding.py_bin (Zneg p)))) j
  = OrderFinding.is_one
      (OrderFinding.zfill n
         (OrderFinding.str_from 2 (OrderFinding.py_bin (Zpos p)))) j.
Proof.
  intros Hs Hj.
  assert (Hpos : (0 <= Zpos p < 2 ^ Z.of_nat n)%Z).
  { split; [lia|]. pose proof (size_nat_pow2 p) as Hp.
    apply Z.lt_le_trans with (1 := Hp).
    apply Z.pow_le_mono_r; lia. }
  rewrite (@OrderFinding.is_one_spec (Zpos p) n j Hpos Hj).
  cbn [OrderFinding.py_bin append OrderFinding.str_from].
  pose proof (OrderFinding.bin_digits_length p EmptyString) as Hlen.
  cbn [String.length] in Hlen. rewrite Nat.add_0_r in Hlen.
  unfold OrderFinding.zfill. cbn [String.length]. rewrite Hlen.
  destruct (Nat.leb_spec n (S (Pos.size_nat p))) as [H|H].
  - destruct j as [|j].
    + cbn. symmetry. apply testbit_above_size. lia.
    + change (OrderFinding.is_one (String ?c ?d) (S j))
        with (OrderFinding.is_one d j).
      rewrite is_one_digits.
      replace (j <? Pos.size_nat p) with true
        by (symmetry; apply Nat.ltb_lt; lia).
      do 2 f_equal. lia.
  - cbn [Ascii.eqb Bool.eqb orb andb]. cbn iota.
    unfold OrderFinding.is_one. rewrite OrderFinding.get_zeros_app.
    destruct (Nat.ltb_spec j (n - S (Pos.size_nat p))) as [Hlo|Hhi].
    + cbn. symmetry. apply testbit_above_size. lia.
    + destruct (j - (n - S (Pos.size_nat p))) as [|j'] eqn:Ej.
      * cbn. symmetry. apply testbit_above_size. lia.
      * cbn [String.get].
        fold (OrderFinding.is_one (OrderFinding.bin_digits p EmptyString) j').
        rewrite is_one_digits.
        replace (j' <? Pos.size_nat p) with true
          by (symmetry; apply Nat.ltb_lt; lia).
        do 2 f_equal. lia.
Qed.

(** A number with more than [n] binary digits: only the first [n] digits
    are read. *)
Lemma is_one_long (p : positive) (n j : nat) :
  n <= Pos.size_nat p -> j < n ->
  OrderFinding.is_one
    (OrderFinding.zfill n
       (OrderFinding.str_from 2 (OrderFinding.py_bin (Zpos p)))) j
  = OrderFinding.is_one
      (OrderFinding.zfill n
         (OrderFinding.str_from 2
            (OrderFinding.py_bin
               (Zpos p / 2 ^ Z.of_nat (Pos.size_nat p - n))))) j.
Proof.
  intros Hs Hj.
  assert (Hq : (0 <= Zpos p / 2 ^ Z.of_nat (Pos.size_nat p - n)
                < 2 ^ Z.of_nat n)%Z).
  { split; [apply Z.div_pos; lia|].
    apply Z.div_lt_upper_bound; [lia|].
    rewrite <- Z.pow_add_r by lia.
    replace (Z.of_nat (Pos.size_nat p - n) + Z.of_nat n)%Z
      with (Z.of_nat (Pos.size_nat p)) by lia.
    apply size_nat_pow2. }
  rewrite (@OrderFinding.is_one_spec _ n j Hq Hj).
  rewrite Z.div_pow2_bits by lia.
  cbn [OrderFinding.py_bin append OrderFinding.str_from].
  pose proof (OrderFinding.bin_digits_length p EmptyString) as Hlen.
  cbn [String.length] in Hlen. rewrite Nat.add_0_r in Hlen.
  unfold OrderFinding.zfill. rewrite Hlen.
  replace (n <=? Pos.size_nat p) with true
    by (symmetry; apply Nat.leb_le; exact Hs).
  rewrite is_one_digits.
  replace (j <? Pos.size_nat p) with true
    by (symmetry; apply Nat.ltb_lt; lia).
  f_equal. lia.
Qed.

Lemma size_nat_low (p : positive) :
  (2 ^ (Z.of_nat (Pos.size_nat p) - 1) <= Zpos p)%Z.
Proof.
  induction p as [q IH|q IH|]; cbn [Pos.size_nat].
  - replace (Z.of_nat (S (Pos.size_nat q)) - 1)%Z
      with (Z.succ (Z.of_nat (Pos.size_nat q) - 1)) by lia.
    rewrite Z.pow_succ_r; [lia|].
    destruct q; cbn [Pos.size_nat]; lia.
  - replace (Z.of_nat (S (Pos.size_nat q)) - 1)%Z
      with (Z.succ (Z.of_nat (Pos.size_nat q) - 1)) by lia.
    rewrite Z.pow_succ_r; [lia|].
    destruct q; cbn [Pos.size_nat]; lia.
  - cbn. lia.
Qed.

(** The number of binary digits of a positive number. *)
Lemma log2_size_nat (p : positive) :
  (Z.log2 (Zpos p) + 1 = Z.of_nat (Pos.size_nat p))%Z.
Proof.
  assert (H : Z.log2 (Zpos p) = (Z.of_nat (Pos.size_nat p) - 1)%Z).
  { apply Z.log2_unique.
    - destruct p; cbn [Pos.size_nat]; lia.
    - split; [apply size_nat_low|].
      replace (Z.succ (Z.of_nat (Pos.size_nat p) - 1))
        with (Z.of_nat (Pos.size_nat p)) by lia.
      apply size_nat_pow2. }
  lia.
Qed.

Lemma precompute_angles_neg (a : Z) (n : nat) :
  (0 < a < 2 ^ (Z.of_nat n - 1))%Z ->
  OrderFinding.precompute_angles (- a) n = OrderFinding.precompute_angles a n.
Proof.
  intros [Ha Hlt]. destruct a as [|p|p]; try lia.
  assert (Hn : 1 <= n).
  { destruct n; [cbn in Hlt; lia|lia]. }
  cbn [Z.opp]. apply precompute_angles_ext. intros j Hj.
  apply is_one_neg; [|exact Hj].
  assert (Hs : Pos.size_nat p <= n - 1).
  { apply OrderFinding.size_nat_bound.
    now replace (Z.of_nat (n - 1)) with (Z.of_nat n - 1)%Z by lia. }
  lia.
Qed.

Lemma precompute_angles_long (a : Z) (n : nat) :
  (2 ^ Z.of_nat n <= a)%Z ->
  OrderFinding.precompute_angles a n
  = OrderFinding.precompute_angles
      (a / 2 ^ (Z.log2 a + 1 - Z.of_nat n)) n.
Proof.
  intro Hge.
  assert (Hpos : (0 < 2 ^ Z.of_nat n)%Z) by (apply Z.pow_pos_nonneg; lia).
  destruct a as [|p|p]; try lia.
  rewrite log2_size_nat.
  assert (Hs : n <= Pos.size_nat p).
  { pose proof (size_nat_pow2 p) as Hp.
    destruct (Nat.le_gt_cases n (Pos.size_nat p)) as [H|H]; [exact H|].
    exfalso.
    assert ((2 ^ Z.of_nat (Pos.size_nat p) <= 2 ^ Z.of_nat n)%Z)
      by (apply Z.pow_le_mono_r; lia).
    lia. }
  replace (Z.of_nat (Pos.size_nat p) - Z.of_nat n)%Z
    with (Z.of_nat (Pos.size_nat p - n)) by lia.
  apply precompute_angles_ext. intros j Hj. now apply is_one_long.
Qed.

End AnglesEdge.

(* ------------------------------------------------------------------ *)
(** * Properties of the further gates *)

(** X4. On an eager circuit, [cx0(c, t)] on two different qubits flips the
    target on exactly the basis states whose control bit is 0; it emits
    the gates x, cx, x, and it is in every mode the same call as
    [cx([c], t)]. *)
Theorem cx0_fires_on_zero (c t : nat) (s : qc) :
  eager s = true -> c < nbits (psi s) -> t < nbits (psi s) -> c <> t ->
  (exists s',
     cx0 c (IInt t) s = Ok tt s'
     /\ nbits (psi s') = nbits (psi s)
     /\ (forall i,
           amp (psi s') i
           = amp (psi s) (if qbit (nbits (psi s)) c i then i
                          else flipq (nbits (psi s)) t i))
     /\ gates (ir s')
        = gates (ir s)
          ++ (if build_ir s
              then [Single (Some "x"%string) c PauliX None;
                    Controlled (Some "cx"%string) c t PauliX None;
                    Single (Some "x"%string) c PauliX None]
              else []))
  /\ (forall s0, cx0 c (IInt t) s0 = cx (CList c) (IInt t) s0).
Proof.
  intros He Hc Ht Hct. split.
  - destruct (emits_eager (emits_weaken (emits_cx0 true c t)) s He)
      as (s' & E & Hn & Ha & Hg & _).
    { cbn. apply Nat.ltb_lt in Hc, Ht. now rewrite Hc, Ht. }
    exists s'. repeat (split; [assumption|]). split; [|exact Hg].
    intro i. rewrite Ha, cx0_nodes_sem by assumption. reflexivity.
  - intro s0. unfold cx0, cx, add_ctl, applyc, x, add_single.
    cbn [_ctl_by_0]. unfold bind, ret.
    destruct (apply1 PauliX (IInt c) (Some "x"%string) None s0) as [u s1|e s1];
      [|reflexivity].
    destruct (when_ build_ir _ s1) as [u2 s2|e s2]; [|reflexivity].
    destruct (when_ eager _ s2) as [u3 s3|e s3]; reflexivity.
Qed.

(** The hypotheses of X4 hold for qubits 0 and 1 of a fresh eager
    two-qubit circuit. *)
Lemma cx0_fires_on_zero_witness :
  exists s',
    cx0 0 (IInt 1) (fresh true 2) = Ok tt s'
    /\ nbits (psi s') = 2.
Proof.
  assert (H0 : 0 < nbits (psi (fresh true 2))) by (cbn; lia).
  assert (H1 : 1 < nbits (psi (fresh true 2))) by (cbn; lia).
  assert (Hne : 0 <> 1) by discriminate.
  destruct (proj1 (@cx0_fires_on_zero 0 1 (fresh true 2) eq_refl H0 H1 Hne))
    as (s' & E & Hn & _).
  exists s'. split; [exact E|exact Hn].
Defined.

(** X5. On an eager circuit, [swap(a, b)] on two different qubits
    exchanges them: the amplitude of a basis state becomes the amplitude
    of the state with the two bits exchanged. It emits three CNOTs. *)
Theorem swap_exchanges_qubits (a b : nat) (s : qc) :
  eager s = true -> a < nbits (psi s) -> b < nbits (psi s) -> a <> b ->
  exists s',
    swap a b s = Ok tt s'
    /\ nbits (psi s') = nbits (psi s)
    /\ (forall i,
          amp (psi s') i
          = amp (psi s)
              (qset (nbits (psi s)) a (qbit (nbits (psi s)) b i)
                 (qset (nbits (psi s)) b (qbit (nbits (psi s)) a i) i)))
    /\ gates (ir s')
       = gates (ir s)
         ++ (if build_ir s
             then [Controlled (Some "cx"%string) b a PauliX None;
                   Controlled (Some "cx"%string) a b PauliX None;
                   Controlled (Some "cx"%string) b a PauliX None]
             else []).
Proof.
  intros He Ha Hb Hab.
  destruct (emits_eager (emits_swap a b) s He) as (s' & E & Hn & Hamp & Hg & _).
  { cbn. apply Nat.ltb_lt in Ha, Hb. now rewrite Ha, Hb. }
  exists s'. repeat (split; [assumption|]). split; [|exact Hg].
  intro i. rewrite Hamp, swap_nodes_sem by assumption. reflexivity.
Qed.

(** The hypotheses of X5 hold for qubits 0 and 1 of a fresh eager
    two-qubit circuit. *)
Lemma swap_exchanges_qubits_witness :
  exists s',
    swap 0 1 (fresh true 2) = Ok tt s'
    /\ nbits (psi s') = 2.
Proof.
  assert (H0 : 0 < nbits (psi (fresh true 2))) by (cbn; lia).
  assert (H1 : 1 < nbits (psi (fresh true 2))) by (cbn; lia).
  assert (Hne : 0 <> 1) by discriminate.
  destruct (@swap_exchanges_qubits 0 1 (fresh true 2) eq_refl H0 H1 Hne)
    as (s' & E & Hn & _).
  exists s'. split; [exact E|exact Hn].
Defined.

(** X6. On an eager circuit, [flip(reg)] on a register of distinct qubits
    of the state reverses the register: the amplitude of a basis state
    becomes the amplitude of the state in which position [p] of the
    register holds the bit of position [len(reg) - 1 - p]; qubits outside
    the register keep their bit. *)
Theorem flip_reverses_register (reg : list nat) (s : qc) :
  eager s = true -> NoDup reg ->
  Forall (fun q => q < nbits (psi s)) reg ->
  exists s',
    flip reg s = Ok tt s'
    /\ nbits (psi s') = nbits (psi s)
    /\ (forall i,
          amp (psi s') i = amp (psi s) (flip_idx (nbits (psi s)) reg i))
    /\ (forall i p,
          p < List.length reg ->
          qbit (nbits (psi s)) (reg_at reg p)
            (flip_idx (nbits (psi s)) reg i)
          = qbit (nbits (psi s)) (reg_at reg (List.length reg - 1 - p)) i)
    /\ (forall i q,
          q < nbits (psi s) -> ~ In q reg ->
          qbit (nbits (psi s)) q (flip_idx (nbits (psi s)) reg i)
          = qbit (nbits (psi s)) q i).
Proof.
  intros He Hnd Hreg.
  destruct (emits_eager (emits_flip reg) s He) as (s' & E & Hn & Hamp & _).
  { now apply flip_nodes_ok. }
  exists s'. repeat (split; [assumption|]). split; [|split].
  - intro i. rewrite Hamp, flip_nodes_sem by assumption. reflexivity.
  - intros i p Hp. now apply flip_idx_reverses.
  - intros i q Hq Hni. now apply flip_idx_outside.
Qed.

(** The hypotheses of X6 hold for the register [0; 1; 2] of a fresh eager
    three-qubit circuit. *)
Lemma flip_reverses_register_witness :
  exists s',
    flip [0; 1; 2] (fresh true 3) = Ok tt s'
    /\ nbits (psi s') = 3.
Proof.
  assert (Hnd : NoDup [0; 1; 2]).
  { repeat constructor; cbn; intuition discriminate. }
  assert (Hreg : Forall (fun q => q < nbits (psi (fresh true 3))) [0; 1; 2]).
  { repeat constructor. }
  destruct (@flip_reverses_register [0; 1; 2] (fresh true 3) eq_refl Hnd Hreg)
    as (s' & E & Hn & _).
  exists s'. split; [exact E|exact Hn].
Defined.

(** X7. On an eager circuit, for a register of distinct qubits of the
    state, [qft(reg, with_swaps=True)] followed by
    [inverse_qft(reg, with_swaps=True)] succeed and return every amplitude
    to its starting value, whatever the size of the register. *)
Theorem qft_swaps_round_trip (reg : list nat) (s : qc) :
  eager s = true -> NoDup reg ->
  Forall (fun q => q < nbits (psi s)) reg ->
  exists s1 s2,
    qft reg true s = Ok tt s1
    /\ inverse_qft reg true s1 = Ok tt s2
    /\ nbits (psi s2) = nbits (psi s)
    /\ forall i, amp (psi s2) i = amp (psi s) i.
Proof.
  intros He Hnd Hreg.
  destruct (emits_eager (emits_qft_swaps reg) s He)
    as (s1 & E1 & Hn1 & Ha1 & _ & He1 & _).
  { rewrite forallb_app, qft_nodes_ok by assumption.
    now apply flip_nodes_ok. }
  rewrite <- He1 in He.
  destruct (emits_eager (emits_inverse_qft_swaps reg) s1 He)
    as (s2 & E2 & Hn2 & Ha2 & _).
  { rewrite Hn1, forallb_app, inverse_qft_nodes_ok by assumption.
    rewrite andb_true_r. now apply flip_nodes_ok. }
  exists s1, s2. split; [exact E1|]. split; [exact E2|].
  split; [congruence|].
  intro i. rewrite Ha2, Ha1, Hn1, !replay_app.
  rewrite <- (replay_app _ (flip_nodes reg) (flip_nodes reg)).
  rewrite (@flip_flip_nodes (nbits (psi s)) reg Hnd Hreg).
  rewrite <- replay_app. now rewrite qft_iqft_nodes.
Qed.

(** The hypotheses of X7 hold for the register [0; 1; 2] of a fresh eager
    three-qubit circuit. *)
Lemma qft_swaps_round_trip_witness :
  exists s1 s2,
    qft [0; 1; 2] true (fresh true 3) = Ok tt s1
    /\ inverse_qft [0; 1; 2] true s1 = Ok tt s2
    /\ nbits (psi s2) = 3.
Proof.
  assert (Hnd : NoDup [0; 1; 2]).
  { repeat constructor; cbn; intuition discriminate. }
  assert (Hreg : Forall (fun q => q < nbits (psi (fresh true 3))) [0; 1; 2]).
  { repeat constructor. }
  destruct (@qft_swaps_round_trip [0; 1; 2] (fresh true 3) eq_refl Hnd Hreg)
    as (s1 & s2 & E1 & E2 & Hn & _).
  exists s1, s2. split; [exact E1|]. split; [exact E2|exact Hn].
Defined.

(** X8. On an eager circuit, with [sqrtm] returning a square root of X,
    [cswap(ctl, a, b)] on three different qubits exchanges [a] and [b] on
    exactly the basis states where the control fires (on 1, or on 0 for a
    control given as [[q]]), and leaves the other amplitudes alone. *)
Theorem cswap_exchanges_when_control_fires (sqrtm : Mat2 -> Mat2)
  (ctl : Ctl) (a b : nat) (s : qc) :
  mmul (sqrtm (mat PauliX)) (sqrtm (mat PauliX)) = mat PauliX ->
  eager s = true ->
  fst (_ctl_by_0 ctl) < nbits (psi s) ->
  a < nbits (psi s) -> b < nbits (psi s) ->
  fst (_ctl_by_0 ctl) <> a -> fst (_ctl_by_0 ctl) <> b -> a <> b ->
  exists s',
    cswap sqrtm ctl a b s = Ok tt s'
    /\ nbits (psi s') = nbits (psi s)
    /\ forall i,
         amp (psi s') i
         = amp (psi s)
             (if fires (nbits (psi s)) ctl i
              then qset (nbits (psi s)) a (qbit (nbits (psi s)) b i)
                     (qset (nbits (psi s)) b (qbit (nbits (psi s)) a i) i)
              else i).
Proof.
  intros Hroot He Hc Ha Hb Hca Hcb Hab.
  destruct (emits_eager (emits_cswap sqrtm ctl a b) s He)
    as (s' & E & Hn & Hamp & _).
  { rewrite !forallb_app, node_ok_ccu by assumption.
    apply Nat.ltb_lt in Ha, Hb. cbn. now rewrite Ha, Hb. }
  exists s'. repeat (split; [assumption|]).
  intro i. rewrite Hamp, cswap_nodes_sem by assumption. reflexivity.
Qed.

(** The hypotheses of X8 hold for the root [sqrt_X] and qubits 0, 1, 2 of
    a fresh eager three-qubit circuit. *)
Lemma cswap_exchanges_when_control_fires_witness :
  exists s',
    cswap (fun _ => sqrt_X) (CInt 0) 1 2 (fresh true 3) = Ok tt s'
    /\ nbits (psi s') = 3.
Proof.
  assert (H0 : 0 < nbits (psi (fresh true 3))) by (cbn; lia).
  assert (H1 : 1 < nbits (psi (fresh true 3))) by (cbn; lia).
  assert (H2 : 2 < nbits (psi (fresh true 3))) by (cbn; lia).
  assert (N01 : 0 <> 1) by discriminate.
  assert (N02 : 0 <> 2) by discriminate.
  assert (N12 : 1 <> 2) by discriminate.
  destruct (@cswap_exchanges_when_control_fires (fun _ => sqrt_X) (CInt 0)
              1 2 (fresh true 3) sqrt_X_square eq_refl H0 H1 H2 N01 N02 N12)
    as (s' & E & Hn & _).
  exists s'. split; [exact E|exact Hn].
Defined.

(** X9. On an eager circuit, when [sqrtm] returns a unitary square root
    of the phase gate, [ccu1(c0, c1, t, theta)] on three different qubits
    multiplies by [e^{i theta}] the amplitude of exactly the basis states
    where both controls fire and the target bit is 1. *)
Theorem ccu1_doubly_controlled_phase (sqrtm : Mat2 -> Mat2)
  (c0 c1 : Ctl) (t : nat) (theta : R) (s : qc) :
  mmul (sqrtm (mat (U1 theta))) (sqrtm (mat (U1 theta))) = mat (U1 theta) ->
  unitary (sqrtm (mat (U1 theta))) ->
  eager s = true ->
  fst (_ctl_by_0 c0) < nbits (psi s) ->
  fst (_ctl_by_0 c1) < nbits (psi s) -> t < nbits (psi s) ->
  fst (_ctl_by_0 c0) <> fst (_ctl_by_0 c1) ->
  fst (_ctl_by_0 c0) <> t -> fst (_ctl_by_0 c1) <> t ->
  exists s',
    ccu1 sqrtm c0 c1 t theta s = Ok tt s'
    /\ nbits (psi s') = nbits (psi s)
    /\ forall i,
         amp (psi s') i
         = cmul (if fires (nbits (psi s)) c0 i && fires (nbits (psi s)) c1 i
                    && qbit (nbits (psi s)) t i
                 then cis theta else cone)
                (amp (psi s) i).
Proof.
  intros Hroot Hunit He H0 H1 Ht H01 H0t H1t.
  destruct (emits_eager (emits_ccu sqrtm c0 c1 t (U1 theta)
                           (Some EmptyString)) s He)
    as (s' & E & Hn & Hamp & _).
  { now apply node_ok_ccu. }
  exists s'. split; [exact E|]. split; [exact Hn|].
  intro i. rewrite Hamp, ccu_nodes_sem by assumption.
  unfold dep1.
  destruct (fires (nbits (psi s)) c0 i && fires (nbits (psi s)) c1 i);
    cbn [andb].
  - apply u1_diag.
  - rewrite k_apply1_id. unfold cmul, cone, re, im; cbn.
    destruct (amp (psi s) i) as [x y]. cbn. f_equal; ring.
Qed.

(** The hypotheses of X9 hold for the root [U1(theta / 2)] and qubits 0,
    1, 2 of a fresh eager three-qubit circuit. *)
Lemma ccu1_doubly_controlled_phase_witness :
  exists s',
    ccu1 (fun _ => mat (U1 (PI / 2))) (CInt 0) (CInt 1) 2 PI (fresh true 3)
    = Ok tt s'
    /\ nbits (psi s') = 3.
Proof.
  assert (H0 : 0 < nbits (psi (fresh true 3))) by (cbn; lia).
  assert (H1 : 1 < nbits (psi (fresh true 3))) by (cbn; lia).
  assert (H2 : 2 < nbits (psi (fresh true 3))) by (cbn; lia).
  assert (N01 : 0 <> 1) by discriminate.
  assert (N02 : 0 <> 2) by discriminate.
  assert (N12 : 1 <> 2) by discriminate.
  destruct (@ccu1_doubly_controlled_phase (fun _ => mat (U1 (PI / 2)))
              (CInt 0) (CInt 1) 2 PI (fresh true 3) (U1_half_square PI)
              (U1_unitary (PI / 2)) eq_refl H0 H1 H2 N01 N02 N12)
    as (s' & E & Hn & _).
  exists s'. split; [exact E|exact Hn].
Defined.

(** X10. [sub(name)] returns a new circuit that is not eager and records,
    with an empty IR, whatever the export flags; the parent keeps its
    state, IR and modes and counts one more sub-circuit. Two calls made at
    different counts with the same suffix give circuits with different
    names. *)
Theorem sub_circuits_are_lazy_and_numbered (FLAGS : option string)
  (nm : string) (s s' : qc) :
  sub_circuits s <> sub_circuits s' ->
  exists c c',
    sub FLAGS nm s = Ok c (set_sub_circuits (sub_circuits s + 1) s)
    /\ sub FLAGS nm s' = Ok c' (set_sub_circuits (sub_circuits s' + 1) s')
    /\ eager c = false /\ build_ir c = true /\ ir c = Ir.empty
    /\ psi c = unit_state
    /\ name c <> name c'.
Proof.
  intro Hne. unfold sub, bind, get, modify, ret.
  do 2 eexists. split; [reflexivity|]. split; [reflexivity|].
  destruct (init_lazy FLAGS
              (Some ("inner_" ++ str_nat (sub_circuits s) ++ nm)%string))
    as (He & Hb & Hi & Hp).
  repeat (split; [assumption|]).
  unfold init. destruct FLAGS as [[|a t]|]; cbn; intro E;
    injection E as E; apply str_app_inv_tail, str_nat_inj in E;
    contradiction.
Qed.

(** The hypothesis of X10 holds for a fresh circuit and the same circuit
    after one call of [sub]. *)
Lemma sub_circuits_are_lazy_and_numbered_witness :
  exists c c',
    sub None "a" (fresh false 1)
    = Ok c (set_sub_circuits 1 (fresh false 1))
    /\ sub None "a" (set_sub_circuits 1 (fresh false 1))
       = Ok c' (set_sub_circuits 2 (set_sub_circuits 1 (fresh false 1)))
    /\ name c <> name c'.
Proof.
  assert (Hne : sub_circuits (fresh false 1)
                <> sub_circuits (set_sub_circuits 1 (fresh false 1))).
  { cbn. discriminate. }
  destruct (@sub_circuits_are_lazy_and_numbered None "a" (fresh false 1)
              (set_sub_circuits 1 (fresh false 1)) Hne)
    as (c & c' & E & E' & _ & _ & _ & _ & Hn).
  exists c, c'. split; [exact E|]. split; [exact E'|exact Hn].
Defined.

(** X11. [qc.qc(c, offset)] on a circuit that is not eager never fails
    and checks no index: it leaves the state alone and, when the circuit
    records, appends the nodes of [c] in order, each with its indices
    moved up by [offset] and its label, operator and parameter kept. On an
    eager circuit on which the moved indices are in range, the state
    becomes the replay of the moved nodes. *)
Theorem qc_embeds_at_offset (gs : list Node) (off : nat) (s : qc) :
  (eager s = false ->
   qc_qc gs off s
   = Ok tt (set_ir (mkIr (gates (ir s)
                          ++ (if build_ir s then map (shift off) gs else []))
                         (marks (ir s))) s))
  /\ (eager s = true ->
      forallb (node_ok (nbits (psi s))) (map (shift off) gs) = true ->
      exists s',
        qc_qc gs off s = Ok tt s'
        /\ nbits (psi s') = nbits (psi s)
        /\ amp (psi s')
           = replay (nbits (psi s)) (map (shift off) gs) (amp (psi s))
        /\ gates (ir s')
           = gates (ir s) ++ (if build_ir s then map (shift off) gs else []))
  /\ (forall nm i o v,
        shift off (Single nm i o v) = Single nm (i + off) o v)
  /\ (forall nm c t o v,
        shift off (Controlled nm c t o v)
        = Controlled nm (c + off) (t + off) o v).
Proof.
  split; [|split; [|split; reflexivity]].
  - intro He.
    rewrite (emits_plain_run (emits_qc_qc true gs off)).
    + destruct s as [sn p r e b g c]. cbn in He. subst e.
      unfold after, set_ir; cbn. now rewrite app_nil_r.
    + rewrite He. discriminate.
  - intros He Hok.
    destruct (emits_eager (emits_qc_qc false gs off) s He Hok)
      as (s' & E & Hn & Ha & Hg & _).
    exists s'. repeat split; assumption.
Qed.

(** Both modes of X11 on the recorded Hadamard: appended at offset 1 to a
    circuit that records, and applied at offset 1 to an eager one. *)
Lemma qc_embeds_at_offset_witness :
  qc_qc (gates (ir demo_recorded)) 1 (fresh false 2)
  = Ok tt (set_ir (mkIr [h_node 1] []) (fresh false 2))
  /\ exists s',
       qc_qc (gates (ir demo_recorded)) 1 (fresh true 2) = Ok tt s'
       /\ nbits (psi s') = 2.
Proof.
  split.
  - exact (proj1 (@qc_embeds_at_offset (gates (ir demo_recorded)) 1
                    (fresh false 2)) eq_refl).
  - destruct (proj1 (proj2 (@qc_embeds_at_offset (gates (ir demo_recorded)) 1
                              (fresh true 2))) eq_refl eq_refl)
      as (s' & E & Hn & _).
    exists s'. split; [exact E|exact Hn].
Defined.

(** X12. On an eager circuit, [apply1] over a list of indices is not
    atomic: when an index of the list is out of range, the call fails
    with the builder's assertion at that index, the gates on the indices
    before it stay applied to the state, and a circuit that records keeps
    their nodes and the node of the failing index. *)
Theorem apply1_list_stops_at_bad_index (gate : Operator)
  (l1 l2 : list nat) (bad : nat) (nm : option string) (val : option R)
  (s : qc) :
  eager s = true ->
  Forall (fun i => i < nbits (psi s)) l1 ->
  nbits (psi s) <= bad ->
  exists s',
    apply1 gate (IReg (l1 ++ bad :: l2)) nm val s
    = Err (AssertionError "Invalid qubit index") s'
    /\ nbits (psi s') = nbits (psi s)
    /\ amp (psi s')
       = replay (nbits (psi s)) (map (fun i => Single nm i gate val) l1)
           (amp (psi s))
    /\ gates (ir s')
       = gates (ir s)
         ++ (if build_ir s
             then map (fun i => Single nm i gate val) (l1 ++ [bad])
             else []).
Proof.
  intros He Hl1 Hbad. unfold apply1. cbn [indices_of].
  rewrite for_each_app. unfold bind at 1.
  destruct (emits_eager (emits_weaken (emits_apply1_list true gate nm val l1))
              s He) as (s1 & E & Hn & Ha & Hg & He1 & Hb1).
  { apply forallb_forall. intros g Hg. apply in_map_iff in Hg as (i & <- & Hi).
    rewrite Forall_forall in Hl1. cbn. apply Nat.ltb_lt. now apply Hl1. }
  rewrite E. cbn [for_each]. unfold bind at 1.
  rewrite apply1_idx_fail by (rewrite ?Hn, ?He1; assumption).
  eexists. split; [reflexivity|].
  unfold recorded. rewrite Hb1.
  destruct (build_ir s); cbn [psi ir set_ir gates add_node];
    rewrite ?Hg, ?map_app, ?app_nil_r, <- ?app_assoc; auto.
Qed.

(** The hypotheses of X12 hold for the list [0; 5] on a fresh eager
    two-qubit circuit. *)
Lemma apply1_list_stops_at_bad_index_witness :
  exists s',
    apply1 Hadamard (IReg [0; 5]) (Some "h"%string) None (fresh true 2)
    = Err (AssertionError "Invalid qubit index") s'
    /\ nbits (psi s') = 2.
Proof.
  assert (H1 : Forall (fun i => i < nbits (psi (fresh true 2))) [0]).
  { repeat constructor. }
  assert (H2 : nbits (psi (fresh true 2)) <= 5) by (cbn; lia).
  destruct (@apply1_list_stops_at_bad_index Hadamard [0] [] 5
              (Some "h"%string) None (fresh true 2) eq_refl H1 H2)
    as (s' & E & Hn & _).
  exists s'. split; [exact E|exact Hn].
Defined.

(** X13. On a circuit that is not eager, whose recorded nodes are well
    formed on [n] qubits and do not touch the qubit [ctl], and for whose
    controlled nodes [sqrtm] returns a unitary square root of the
    operator, [control_by(ctl)] leaves a gate log that acts on an
    [n]-qubit state as the original log on the basis states whose [ctl]
    bit is 1, and as the identity on the others. *)
Theorem control_by_controls (sqrtm : Mat2 -> Mat2) (FLAGS : option string)
  (n ctl : nat) (s : qc) :
  eager s = false -> ctl < n ->
  Forall (node_wf n) (gates (ir s)) ->
  Forall (avoids ctl) (gates (ir s)) ->
  Forall (root_ok sqrtm) (gates (ir s)) ->
  exists s',
    control_by sqrtm FLAGS ctl s = Ok tt s'
    /\ psi s' = psi s
    /\ forall f x,
         replay n (gates (ir s')) f x
         = if qbit n ctl x then replay n (gates (ir s)) f x else f x.
Proof.
  intros He Hctl Hwf Hav Hroot.
  eexists. split; [now apply control_by_lazy|]. split; [reflexivity|].
  intros f x. cbn [ir set_ir gates]. now apply promote_list_sem.
Qed.

(** The hypotheses of X13 hold for the recorded circuit [h(0); cx(0, 1)],
    controlled by qubit 2 of three, with the root [sqrt_X]. *)
Lemma control_by_controls_witness :
  exists s',
    control_by (fun _ => sqrt_X) None 2 demo_bell = Ok tt s'
    /\ psi s' = psi demo_bell.
Proof.
  assert (Hc : 2 < 3) by lia.
  assert (Hwf : Forall (node_wf 3) (gates (ir demo_bell))).
  { rewrite demo_bell_gates. repeat constructor. discriminate. }
  assert (Hav : Forall (avoids 2) (gates (ir demo_bell))).
  { rewrite demo_bell_gates. repeat constructor; discriminate. }
  assert (Hroot : Forall (root_ok (fun _ => sqrt_X)) (gates (ir demo_bell))).
  { rewrite demo_bell_gates. constructor; [exact I|].
    constructor; [|constructor].
    split; [exact sqrt_X_square|exact (sqrt_x_unitary sqrt_X_square)]. }
  destruct (@control_by_controls (fun _ => sqrt_X) None 3 2 demo_bell
              eq_refl Hc Hwf Hav Hroot) as (s' & E & Hp & _).
  exists s'. split; [exact E|exact Hp].
Defined.

(** X14. For a circuit whose recorded nodes all carry a label,
    [inverse()] of [inverse()] succeeds and gives back a gate log with the
    same indices in the same order and the same operator matrices, so that
    it acts on every state as the original log; the labels carry two
    stars and a parameter that is not 0 is restored. *)
Theorem inverse_twice_restores_gates (FLAGS : option string) (c : qc) :
  forallb is_named (gates (ir c)) = true ->
  exists c1 c2,
    inverse FLAGS c = inl c1
    /\ inverse FLAGS c1 = inl c2
    /\ gates (ir c2) = map (fun g => inv_node (inv_node g)) (gates (ir c))
    /\ (forall n f,
          replay n (gates (ir c2)) f = replay n (gates (ir c)) f)
    /\ (forall g,
          mat (node_gate (inv_node (inv_node g))) = mat (node_gate g)
          /\ node_idx0 (inv_node (inv_node g)) = node_idx0 g
          /\ node_idx1 (inv_node (inv_node g)) = node_idx1 g
          /\ node_name (inv_node (inv_node g))
             = option_map (fun t => ((t ++ "*") ++ "*")%string)
                 (node_name g))
    /\ (forall g v,
          node_val g = Some v -> v <> 0%R ->
          node_val (inv_node (inv_node g)) = Some v).
Proof.
  intro Hn.
  destruct (inverse_named FLAGS c Hn) as (c1 & E1 & _ & _ & _ & Hg1).
  assert (Hn1 : forallb is_named (gates (ir c1)) = true).
  { rewrite Hg1. apply forallb_forall. intros g Hg.
    apply in_map_iff in Hg as (g0 & <- & Hin). rewrite is_named_inv.
    rewrite forallb_forall in Hn. apply Hn. now apply in_rev. }
  destruct (inverse_named FLAGS c1 Hn1) as (c2 & E2 & _ & _ & _ & Hg2).
  assert (Hg : gates (ir c2)
               = map (fun g => inv_node (inv_node g)) (gates (ir c))).
  { rewrite Hg2, Hg1, <- map_rev, rev_involutive, map_map. reflexivity. }
  exists c1, c2. repeat (split; [assumption|]). split; [|split].
  - intros n f. rewrite Hg. apply replay_inv_inv.
  - intros [[nm|] i o v|[nm|] k t o v]; cbn; rewrite madj_invol; auto.
  - intros [nm i o w|nm k t o w] v Hv Hne; cbn [node_val] in Hv; subst w;
      cbn [inv_node node_val];
      rewrite (inverse_val_nonzero Hne);
      rewrite inverse_val_nonzero by lra; f_equal; lra.
Qed.

(** The hypothesis of X14 holds for the recorded circuit
    [h(0); cx(0, 1)]. *)
Lemma inverse_twice_restores_gates_witness :
  exists c1 c2,
    inverse None demo_bell = inl c1
    /\ inverse None c1 = inl c2
    /\ gates (ir c2)
       = map (fun g => inv_node (inv_node g)) (gates (ir demo_bell)).
Proof.
  destruct (@inverse_twice_restores_gates None demo_bell eq_refl)
    as (c1 & c2 & E1 & E2 & Hg & _).
  exists c1, c2. split; [exact E1|]. split; [exact E2|exact Hg].
Defined.

(* ------------------------------------------------------------------ *)
(** * Properties of the order-finding helpers *)

Section NumberProperties.

Import OrderFinding.

Local Open Scope Z_scope.

(** X15. For all integers, [egcd(a, b)] returns [(g, x, y)] with
    [a * x + b * y = g], where [g] is [gcd(a, b)] for positive [a],
    [- gcd(a, b)] for negative [a], and [b] itself for [a = 0]. *)
Theorem egcd_bezout (a b : Z) :
  let '(g, x, y) := egcd a b in
  a * x + b * y = g
  /\ (0 < a -> g = Z.gcd a b)
  /\ (a < 0 -> g = - Z.gcd a b)
  /\ (a = 0 -> g = b).
Proof.
  pose proof (egcd_bezout_eq a b) as HB.
  pose proof (@egcd_gcd_sgn a b) as HG.
  destruct (egcd a b) as [[g x] y] eqn:E. cbn [fst snd] in *.
  split; [exact HB|]. split; [|split].
  - intro Ha. rewrite HG by lia. rewrite Z.sgn_pos by assumption. lia.
  - intro Ha. rewrite HG by lia. rewrite Z.sgn_neg by assumption. lia.
  - intros ->. rewrite egcd_eqn in E. cbn in E. congruence.
Qed.

(** X16. Whenever [modular_inverse(a, m)] returns a value [r], that value
    is an inverse of [a] modulo [m], reduced modulo [m]:
    [a * r = 1 (mod m)], and [0 <= r < m] for a positive modulus. *)
Theorem modular_inverse_sound (a m r : Z) :
  modular_inverse a m = inl r ->
  (a * r) mod m = 1 mod m /\ (0 < m -> 0 <= r < m).
Proof.
  unfold modular_inverse. pose proof (egcd_bezout_eq a m) as HB.
  destruct (egcd a m) as [[g x] y]. cbn [fst snd] in HB.
  destruct (Z.eqb_spec g 1) as [->|]; cbn [negb]; [|discriminate].
  destruct (Z.eqb_spec m 0) as [|Hm]; [discriminate|].
  intro E. injection E as <-. split.
  - rewrite Z.mul_mod_idemp_r by assumption.
    replace (a * x) with (1 + (- y) * m) by lia.
    now rewrite Z.mod_add.
  - intro Hpos. apply Z.mod_pos_bound. exact Hpos.
Qed.

(** The hypothesis of X16 holds for [a = 4], [m = 15]. *)
Lemma modular_inverse_sound_witness :
  modular_inverse 4 15 = inl 4
  /\ (4 * 4) mod 15 = 1 mod 15.
Proof.
  assert (H : modular_inverse 4 15 = inl 4) by (vm_compute; reflexivity).
  split; [exact H|].
  exact (proj1 (@modular_inverse_sound 4 15 4 H)).
Defined.

(** X17. For [a >= 0] and a positive modulus, [modular_inverse(a, m)]
    returns a value exactly when [a] and [m] are coprime, and raises its
    exception otherwise. *)
Theorem modular_inverse_defined_iff_coprime (a m : Z) :
  0 <= a -> 0 < m ->
  (Z.gcd a m = 1 -> exists r, modular_inverse a m = inl r)
  /\ (Z.gcd a m <> 1 ->
      modular_inverse a m = inr (NoModularInverse a m)).
Proof. apply modular_inverse_cases. Qed.

(** The hypotheses of X17 hold for [a = 4], [m = 15]. *)
Lemma modular_inverse_defined_iff_coprime_witness :
  exists r, modular_inverse 4 15 = inl r.
Proof.
  assert (Ha : 0 <= 4) by lia. assert (Hm : 0 < 15) by lia.
  exact (proj1 (@modular_inverse_defined_iff_coprime 4 15 Ha Hm) eq_refl).
Defined.

(** X18. Outside that domain [modular_inverse] never returns a value: for
    every negative [a] it raises its exception, whether or not an inverse
    exists, and for the modulus 0 it raises [ZeroDivisionError] when
    [a = 1] and its exception for every other [a]. *)
Theorem modular_inverse_outside_domain (a m : Z) :
  (a < 0 -> modular_inverse a m = inr (NoModularInverse a m))
  /\ modular_inverse a 0
     = (if a =? 1 then inr ZeroDivisionError
        else inr (NoModularInverse a 0)).
Proof.
  split.
  - intro Ha. unfold modular_inverse.
    pose proof (@egcd_gcd_sgn a m ltac:(lia)) as Hg.
    destruct (egcd a m) as [[g x] y]. cbn [fst] in Hg.
    rewrite Z.sgn_neg in Hg by assumption.
    pose proof (Z.gcd_nonneg a m).
    destruct (Z.eqb_spec g 1); [lia|reflexivity].
  - unfold modular_inverse.
    destruct (Z.eq_dec a 0) as [->|Hne]; [reflexivity|].
    pose proof (@egcd_gcd_sgn a 0 Hne) as Hg.
    destruct (egcd a 0) as [[g x] y]. cbn [fst] in Hg.
    rewrite Z.gcd_0_r in Hg.
    destruct (Z.eqb_spec a 1) as [->|Ha1].
    + subst g. reflexivity.
    + destruct (Z.eqb_spec g 1); [lia|reflexivity].
Qed.

(** The first part of X18 at [a = -1], [m = 5], where 4 is an inverse of
    [a]. *)
Lemma modular_inverse_outside_domain_witness :
  modular_inverse (-1) 5 = inr (NoModularInverse (-1) 5)
  /\ (-1 * 4) mod 5 = 1 mod 5.
Proof.
  assert (Ha : -1 < 0) by lia.
  split; [exact (proj1 (@modular_inverse_outside_domain (-1) 5) Ha)|].
  reflexivity.
Defined.

End NumberProperties.

(** X19. For [0 <= a < 2^n], [precompute_angles(a, n)] returns [n]
    angles, and the angle of index [k] is [pi * (a mod 2^(k+1)) / 2^k]:
    the phase that adding [a] in Fourier space puts on bit [k] (floats
    read as exact reals). *)
Theorem precompute_angles_closed_form (a : Z) (n : nat) :
  (0 <= a < 2 ^ Z.of_nat n)%Z ->
  List.length (OrderFinding.precompute_angles a n) = n
  /\ forall k, k < n ->
       nth k (OrderFinding.precompute_angles a n) 0%R
       = (PI * IZR (a mod 2 ^ Z.of_nat (k + 1)) / 2 ^ k)%R.
Proof.
  intro Ha. destruct (OrderFinding.precompute_angles_spec n Ha) as [H1 H2].
  split; [exact H1|]. intros k Hk. rewrite H2 by assumption.
  now rewrite Nat.add_1_r.
Qed.

(** The hypothesis of X19 holds for [a = 1], [n = 2]; the angles are
    [pi] and [pi / 2]. *)
Lemma precompute_angles_closed_form_witness :
  List.length (OrderFinding.precompute_angles 1 2) = 2
  /\ nth 1 (OrderFinding.precompute_angles 1 2) 0%R
     = (PI * IZR (1 mod 2 ^ Z.of_nat (1 + 1)) / 2 ^ 1)%R.
Proof.
  assert (Ha : (0 <= 1 < 2 ^ Z.of_nat 2)%Z) by (cbn; lia).
  destruct (@precompute_angles_closed_form 1 2 Ha) as [H1 H2].
  split; [exact H1|]. apply H2. lia.
Defined.

(** X20. On an eager circuit, [ccphase(qc, angle, ctl1, ctl2, idx)] of the
    order-finding example, on three different qubits, multiplies by
    [e^{i angle}] the amplitude of exactly the basis states in which the
    two controls and the target are 1. *)
Theorem ccphase_doubly_controlled_phase (angle : R) (c1 c2 t : nat)
  (s : qc) :
  eager s = true ->
  c1 < nbits (psi s) -> c2 < nbits (psi s) -> t < nbits (psi s) ->
  c1 <> c2 -> c1 <> t -> c2 <> t ->
  exists s',
    OrderFinding.ccphase angle c1 c2 t s = Ok tt s'
    /\ nbits (psi s') = nbits (psi s)
    /\ forall i,
         amp (psi s') i
         = cmul (if qbit (nbits (psi s)) c1 i && qbit (nbits (psi s)) c2 i
                    && qbit (nbits (psi s)) t i
                 then cis angle else cone)
                (amp (psi s) i).
Proof.
  intros He H1 H2 Ht H12 H1t H2t.
  destruct (emits_eager (OrderFinding.emits_ccphase angle c1 c2 t) s He)
    as (s' & E & Hn & Hamp & _).
  { pose proof H1 as E1. pose proof H2 as E2. pose proof Ht as E3.
    apply Nat.ltb_lt in E1, E2, E3. cbn. now rewrite E1, E2, E3. }
  exists s'. split; [exact E|]. split; [exact Hn|].
  intro i. rewrite Hamp.
  rewrite (@diag_ccphase (nbits (psi s)) angle c1 c2 t) by assumption.
  reflexivity.
Qed.

(** The hypotheses of X20 hold for qubits 0, 1, 2 of a fresh eager
    three-qubit circuit. *)
Lemma ccphase_doubly_controlled_phase_witness :
  exists s',
    OrderFinding.ccphase PI 0 1 2 (fresh true 3) = Ok tt s'
    /\ nbits (psi s') = 3.
Proof.
  assert (H0 : 0 < nbits (psi (fresh true 3))) by (cbn; lia).
  assert (H1 : 1 < nbits (psi (fresh true 3))) by (cbn; lia).
  assert (H2 : 2 < nbits (psi (fresh true 3))) by (cbn; lia).
  assert (N01 : 0 <> 1) by discriminate.
  assert (N02 : 0 <> 2) by discriminate.
  assert (N12 : 1 <> 2) by discriminate.
  destruct (@ccphase_doubly_controlled_phase PI 0 1 2 (fresh true 3)
              eq_refl H0 H1 H2 N01 N02 N12) as (s' & E & Hn & _).
  exists s'. split; [exact E|exact Hn].
Defined.

(** X21. The [qft] and [inverse_qft] of the order-finding example, called
    with a count [n] that does not exceed the length of the register, are
    the [qft] and [inverse_qft] of the builder on the first [n] entries
    of the register: the same result, the same state and the same failure
    in every mode, with swaps exactly when [with_swaps] is 1. *)
Theorem order_finding_qft_is_builder_qft (q : list nat) (n : nat) :
  n <= List.length q ->
  (forall ws s,
     OrderFinding.qft q n ws s = qft (firstn n q) (ws =? 1)%Z s)
  /\ (forall ws s,
        OrderFinding.inverse_qft q n ws s
        = inverse_qft (firstn n q) (ws =? 1)%Z s).
Proof.
  intro Hn. split; intros ws s.
  - now apply of_qft_eq.
  - now apply of_inverse_qft_eq.
Qed.

(** The hypothesis of X21 holds for the first two entries of the register
    [0; 1; 2]. *)
Lemma order_finding_qft_is_builder_qft_witness :
  OrderFinding.qft [0; 1; 2] 2 1 (fresh true 3)
  = qft [0; 1] true (fresh true 3).
Proof.
  assert (Hn : 2 <= List.length [0; 1; 2]) by (cbn; lia).
  exact (proj1 (@order_finding_qft_is_builder_qft [0; 1; 2] 2 Hn) 1%Z
           (fresh true 3)).
Defined.

(** X22. On an eager circuit, [cc_add_mod_n] followed by
    [cc_add_mod_n_inverse] with the same arguments succeed and return
    every amplitude to its starting value, when the two controls, the
    ancilla and the first [n >= 1] entries of the register are distinct
    qubits of the state. *)
Theorem cc_add_mod_n_round_trip (q : list nat) (ctl1 ctl2 aux : nat)
  (a number : Z) (n : nat) (s : qc) :
  eager s = true ->
  1 <= n <= List.length q ->
  ctl1 < nbits (psi s) -> ctl2 < nbits (psi s) -> aux < nbits (psi s) ->
  Forall (fun x => x < nbits (psi s)) (firstn n q) ->
  NoDup (ctl1 :: ctl2 :: aux :: firstn n q) ->
  exists s1 s2,
    OrderFinding.cc_add_mod_n q ctl1 ctl2 aux a number n s = Ok tt s1
    /\ OrderFinding.cc_add_mod_n_inverse q ctl1 ctl2 aux a number n s1
       = Ok tt s2
    /\ nbits (psi s2) = nbits (psi s)
    /\ forall i, amp (psi s2) i = amp (psi s) i.
Proof.
  intros He Hn H1 H2 Hx Hq Hnd.
  destruct (emits_eager
              (@emits_cc_add_mod_n q ctl1 ctl2 aux a number n Hn) s He)
    as (s1 & E1 & Hn1 & Ha1 & _ & He1 & _).
  { now apply cc_add_mod_n_nodes_ok. }
  rewrite <- He1 in He.
  destruct (emits_eager
              (@emits_cc_add_mod_n_inverse q ctl1 ctl2 aux a number n Hn)
              s1 He) as (s2 & E2 & Hn2 & Ha2 & _).
  { rewrite Hn1. now apply cc_add_mod_n_inverse_nodes_ok. }
  exists s1, s2. split; [exact E1|]. split; [exact E2|].
  split; [congruence|].
  intro i. rewrite Ha2, Ha1, Hn1, <- replay_app.
  now rewrite cc_add_mod_n_cancel.
Qed.

(** The hypotheses of X22 hold on a fresh eager five-qubit circuit, for
    the register [0; 1], the controls 2 and 3 and the ancilla 4. *)
Lemma cc_add_mod_n_round_trip_witness :
  exists s1 s2,
    OrderFinding.cc_add_mod_n [0; 1] 2 3 4 1 3 2 (fresh true 5) = Ok tt s1
    /\ OrderFinding.cc_add_mod_n_inverse [0; 1] 2 3 4 1 3 2 s1 = Ok tt s2
    /\ nbits (psi s2) = 5.
Proof.
  assert (Hn : 1 <= 2 <= List.length [0; 1]) by (cbn; lia).
  assert (H2 : 2 < nbits (psi (fresh true 5))) by (cbn; lia).
  assert (H3 : 3 < nbits (psi (fresh true 5))) by (cbn; lia).
  assert (H4 : 4 < nbits (psi (fresh true 5))) by (cbn; lia).
  assert (Hq : Forall (fun x => x < nbits (psi (fresh true 5)))
                 (firstn 2 [0; 1])).
  { cbn. repeat constructor. }
  assert (Hnd : NoDup (2 :: 3 :: 4 :: firstn 2 [0; 1])).
  { cbn. repeat constructor; cbn; intuition discriminate. }
  destruct (@cc_add_mod_n_round_trip [0; 1] 2 3 4 1 3 2 (fresh true 5)
              eq_refl Hn H2 H3 H4 Hq Hnd) as (s1 & s2 & E1 & E2 & Hb & _).
  exists s1, s2. split; [exact E1|]. split; [exact E2|exact Hb].
Defined.

(** X23. On an eager circuit, [add(qc, q, a, n, factor)] with the first
    [n] entries of the register in range multiplies the amplitude of each
    basis state by [e^{i phi}], where [phi] is the sum of
    [factor * angles[k]] over the positions [k < n] whose qubit [q[k]] is
    1 in that basis state, [angles] being [precompute_angles(a, n)]. *)
Theorem add_multiplies_by_phase (q : list nat) (a : Z) (n : nat)
  (factor : R) (s : qc) :
  eager s = true -> n <= List.length q ->
  Forall (fun x => x < nbits (psi s)) (firstn n q) ->
  exists s',
    OrderFinding.add q a n factor s = Ok tt s'
    /\ nbits (psi s') = nbits (psi s)
    /\ forall i,
         amp (psi s') i
         = cmul (cis (OrderFinding.sumf
                        (fun k => qbit (nbits (psi s)) (reg_at q k) i)
                        (fun k => (factor
                                   * nth k (OrderFinding.precompute_angles a n)
                                       0)%R)
                        (seq 0 n)))
                (amp (psi s) i).
Proof.
  intros He Hn Hq.
  destruct (emits_eager (OrderFinding.emits_add q a factor Hn) s He)
    as (s' & E & Hb & Hamp & _).
  { unfold OrderFinding.add_nodes. apply node_ok_map.
    intros i Hi. apply in_seq in Hi. cbn. apply Nat.ltb_lt.
    rewrite Forall_forall in Hq. apply Hq.
    change (reg_at q i) with (nth i q 0).
    rewrite <- (@reg_at_firstn q n i ltac:(lia)). unfold reg_at.
    apply nth_In. rewrite firstn_length_le; lia. }
  exists s'. split; [exact E|]. split; [exact Hb|].
  intro i. rewrite Hamp.
  rewrite (@diag_add (nbits (psi s)) q a n factor).
  now rewrite dprod_sphase.
Qed.

(** The hypotheses of X23 hold for the register [0; 1] of a fresh eager
    two-qubit circuit. *)
Lemma add_multiplies_by_phase_witness :
  exists s',
    OrderFinding.add [0; 1] 1 2 1 (fresh true 2) = Ok tt s'
    /\ nbits (psi s') = 2.
Proof.
  assert (Hn : 2 <= List.length [0; 1]) by (cbn; lia).
  assert (Hq : Forall (fun x => x < nbits (psi (fresh true 2)))
                 (firstn 2 [0; 1])).
  { cbn. repeat constructor. }
  destruct (@add_multiplies_by_phase [0; 1] 1 2 1 (fresh true 2) eq_refl
              Hn Hq) as (s' & E & Hb & _).
  exists s'. split; [exact E|exact Hb].
Defined.

(** X24. On a circuit that is not eager, with registers long enough for
    its indexing, [a >= 0] and a positive modulus, [cmultmodn] succeeds
    exactly when [a] and the modulus are coprime. When they are not, it
    raises the exception of [modular_inverse] only after the compute and
    swap stages ran: a circuit that records is left with the gates of
    those two stages in its IR. *)
Theorem cmultmodn_needs_modular_inverse (sqrtm : Mat2 -> Mat2) (ctl : nat)
  (q aux : list nat) (a number : Z) (n : nat) (s : qc) :
  eager s = false ->
  n + 2 <= List.length aux -> n <= List.length q ->
  (0 <= a)%Z -> (0 < number)%Z ->
  (Z.gcd a number = 1%Z ->
   exists s', cmultmodn sqrtm ctl q aux a number n s = OfOk tt s'
              /\ psi s' = psi s)
  /\ (Z.gcd a number <> 1%Z ->
      exists s',
        cmultmodn sqrtm ctl q aux a number n s
        = OfFail (NumberErr (OrderFinding.NoModularInverse a number)) s'
        /\ psi s' = psi s
        /\ gates (ir s')
           = gates (ir s)
             ++ (if build_ir s
                 then cmult_compute_nodes ctl q aux a number n
                      ++ cmult_swap_nodes sqrtm ctl q aux n
                 else [])
        /\ (build_ir s = true ->
            List.length (gates (ir s)) < List.length (gates (ir s')))).
Proof.
  intros He Haux Hq Ha Hnum.
  assert (Hne : number <> 0%Z) by lia.
  destruct (OrderFinding.modular_inverse_cases Ha Hnum) as [Hyes Hno].
  assert (Hpsi : forall l mk, psi (after l mk s) = psi s).
  { intros l mk. unfold after; cbn. now rewrite He. }
  split.
  - intro Hg. destruct (Hyes Hg) as [r Er].
    assert (Hrec : orecords (cmultmodn sqrtm ctl q aux a number n) tt
                     (cmult_compute_nodes ctl q aux a number n
                      ++ cmult_swap_nodes sqrtm ctl q aux n
                      ++ [] ++ cmult_uncompute_nodes ctl q aux number n r)).
    { unfold cmultmodn. rewrite Er.
      eapply orecords_bind; [now apply orecords_compute|].
      eapply orecords_bind; [now apply orecords_swap|].
      eapply orecords_bind; [apply orecords_number|].
      now apply orecords_uncompute. }
    destruct (Hrec s He) as [mk E]. eexists. split; [exact E|apply Hpsi].
  - intro Hg.
    destruct (@orecords_compute ctl q aux a number n Haux Hq Hne s He)
      as [mk1 E1].
    destruct (@orecords_swap sqrtm ctl q aux n Haux Hq
                (after (cmult_compute_nodes ctl q aux a number n) mk1 s) He)
      as [mk2 E2].
    unfold cmultmodn, obind. rewrite (Hno Hg), E1, E2. cbn [number_step].
    rewrite after_after.
    eexists. split; [reflexivity|]. split; [apply Hpsi|]. split.
    + unfold after; cbn [ir gates]. reflexivity.
    + intro Hb. unfold after; cbn [ir gates]. rewrite Hb.
      rewrite !length_app.
      pose proof (@qft_nodes_nonempty aux n Haux) as Hq1.
      unfold cmult_compute_nodes. rewrite !length_app. lia.
Qed.

(** The hypotheses of X24 hold for [a = 2] and the modulus 4, which are
    not coprime, on a fresh circuit that records. *)
Lemma cmultmodn_needs_modular_inverse_witness :
  exists s',
    cmultmodn (fun _ => sqrt_X) 0 [1] [2; 3; 4] 2 4 1 (fresh false 5)
    = OfFail (NumberErr (OrderFinding.NoModularInverse 2 4)) s'
    /\ psi s' = psi (fresh false 5).
Proof.
  assert (Haux : 1 + 2 <= List.length [2; 3; 4]) by (cbn; lia).
  assert (Hq : 1 <= List.length [1]) by (cbn; lia).
  assert (Ha : (0 <= 2)%Z) by lia.
  assert (Hnum : (0 < 4)%Z) by lia.
  assert (Hg : Z.gcd 2 4 <> 1%Z) by (cbn; lia).
  destruct (proj2 (@cmultmodn_needs_modular_inverse (fun _ => sqrt_X) 0 [1]
                     [2; 3; 4] 2 4 1 (fresh false 5) eq_refl Haux Hq Ha Hnum)
              Hg) as (s' & E & Hp & _).
  exists s'. split; [exact E|exact Hp].
Defined.

(** X25. On an eager circuit, a gate controlled on 0 (control given as
    [[c]]) whose control is in range but whose target is not fails with
    the builder's assertion after the opening X on the control ran and
    before the closing one: the state is left with the control qubit
    flipped, and a circuit that records keeps the X node and the node of
    the failing gate. *)
Theorem applyc_by_zero_failure_leaves_control_flipped (gate : Operator)
  (c t : nat) (nm : option string) (val : option R) (s : qc) :
  eager s = true -> c < nbits (psi s) -> nbits (psi s) <= t ->
  exists s',
    applyc gate (CList c) (IInt t) nm val s
    = Err (AssertionError "Invalid qubit index") s'
    /\ nbits (psi s') = nbits (psi s)
    /\ (forall i,
          amp (psi s') i = amp (psi s) (flipq (nbits (psi s)) c i))
    /\ gates (ir s')
       = gates (ir s)
         ++ (if build_ir s
             then [Single (Some "x"%string) c PauliX None;
                   Controlled nm c t gate val]
             else []).
Proof.
  intros He Hc Ht. unfold applyc. cbn [_ctl_by_0].
  unfold bind at 1. unfold ret at 1. unfold bind at 1.
  destruct (emits_eager (emits_weaken (emits_x true c true)) s He)
    as (s1 & E & Hn & Ha & Hg & He1 & Hb1).
  { cbn. apply Nat.ltb_lt in Hc. now rewrite Hc. }
  rewrite E, <- bind_assoc. unfold bind at 1.
  rewrite record_apply_c_fail by (rewrite ?He1, ?Hn; assumption).
  eexists. split; [reflexivity|].
  unfold recorded. rewrite Hb1.
  destruct (build_ir s); cbn [psi ir set_ir gates add_node];
    (split; [exact Hn|]);
    (split; [|rewrite Hg, <- ?app_assoc, ?app_nil_r; reflexivity]);
    intro i; rewrite Ha; cbn; now rewrite X_perm.
Qed.

(** The hypotheses of X25 hold for control 0 and target 5 on a fresh
    eager two-qubit circuit. *)
Lemma applyc_by_zero_failure_leaves_control_flipped_witness :
  exists s',
    applyc PauliX (CList 0) (IInt 5) (Some "cx"%string) None (fresh true 2)
    = Err (AssertionError "Invalid qubit index") s'
    /\ nbits (psi s') = 2.
Proof.
  assert (Hc : 0 < nbits (psi (fresh true 2))) by (cbn; lia).
  assert (Ht : nbits (psi (fresh true 2)) <= 5) by (cbn; lia).
  destruct (@applyc_by_zero_failure_leaves_control_flipped PauliX 0 5
              (Some "cx"%string) None (fresh true 2) eq_refl Hc Ht)
    as (s' & E & Hn & _).
  exists s'. split; [exact E|exact Hn].
Defined.

(** X26. [precompute_angles] accepts numbers outside [0 <= a < 2^n]
    without complaint and reads them as another number: a negative
    [-a] with [0 < a < 2^(n-1)] gives the angles of [a], and a number
    [a >= 2^n] gives the angles of its [n] most significant binary digits,
    that is of [a // 2^(bitlen(a) - n)]. *)
Theorem precompute_angles_outside_domain (a : Z) (n : nat) :
  ((0 < a < 2 ^ (Z.of_nat n - 1))%Z ->
   OrderFinding.precompute_angles (- a) n
   = OrderFinding.precompute_angles a n)
  /\ ((2 ^ Z.of_nat n <= a)%Z ->
      OrderFinding.precompute_angles a n
      = OrderFinding.precompute_angles
          (a / 2 ^ (Z.log2 a + 1 - Z.of_nat n)) n).
Proof.
  split.
  - apply precompute_angles_neg.
  - apply precompute_angles_long.
Qed.

(** Both parts of X26 at [n = 3]: [-3] is read as 3, and 13 (binary
    1101) as 6 (binary 110). *)
Lemma precompute_angles_outside_domain_witness :
  OrderFinding.precompute_angles (- 3) 3 = OrderFinding.precompute_angles 3 3
  /\ OrderFinding.precompute_angles 13 3
     = OrderFinding.precompute_angles (13 / 2 ^ (Z.log2 13 + 1 - Z.of_nat 3)) 3.
Proof.
  assert (H1 : (0 < 3 < 2 ^ (Z.of_nat 3 - 1))%Z) by (cbn; lia).
  assert (H2 : (2 ^ Z.of_nat 3 <= 13)%Z) by (cbn; lia).
  split.
  - exact (proj1 (@precompute_angles_outside_domain 3 3) H1).
  - exact (proj2 (@precompute_angles_outside_domain 13 3) H2).
Defined.
